(** * The load/store unit of llvm-mca: a shallow embedding of
      llvm/lib/MCA/HardwareUnits/LSUnit.cpp

    The file follows the C++ source function by function.  64-bit addresses
    are integers ([Z]) with the wrap-around of [uint64_t] written out.  The
    group table ([std::map<unsigned, std::unique_ptr<MemoryGroup>>]) is a
    [gmap N]; successors, which the source holds as pointers into the table,
    are group IDs.  Failing assertions are modelled by [None].

    The classes [MemoryGroup], [MDMemoryAccess] and the inline helpers of
    [LSUnitBase] are declared in LSUnit.h; they are modelled from the
    specification, each under a comment that says so.  Group IDs come from
    the specification's monotonically increasing counter and the queue
    counters from its [+1] / [-1] operations, both as natural numbers
    ([N]). *)

From Stdlib Require Import ZArith NArith Bool Lia.
From stdpp Require Import base option list relations gmap fin_maps.

(** ** Memory-access descriptor ([MDMemoryAccess]) *)

Module MD.

Definition wrap64 (z : Z) : Z := (z mod 2 ^ 64)%Z.

(** One element of [BundledMemoryAccesses::Accesses], built by
    [Accesses.emplace_back(NewIsStore, NewAddr, NewSize)]. *)
Record SubAccess := mkSub {
  sub_IsStore : bool;
  sub_Addr : Z;
  sub_Size : Z
}.

(** Modelled from the spec: the struct [BundledMemoryAccesses] is declared
    in LSUnit.h.  It carries the list of sub-accesses and the extended
    interval; [ExtendedSize] is kept at the width of the expression that
    [append] stores into it (a [uint64_t] difference). *)
Record BundledMemoryAccesses := mkBundle {
  Accesses : list SubAccess;
  ExtendedAddr : Z;
  ExtendedSize : Z
}.

Record MDMemoryAccess := mkMA {
  IsStore : bool;
  Addr : Z;      (* uint64_t *)
  Size : Z;      (* unsigned *)
  BundledMAs : option BundledMemoryAccesses
}.

(** Modelled from the spec: the constructor
    [BundledMemoryAccesses(Addr, Size)] lives in LSUnit.h; it "seeds the
    bundle with the original access", which is also its extended
    interval. *)
Definition make_bundle (ma : MDMemoryAccess) : BundledMemoryAccesses :=
  {| Accesses := [mkSub (IsStore ma) (Addr ma) (Size ma)];
     ExtendedAddr := Addr ma;
     ExtendedSize := Size ma |}.

(** [MDMemoryAccess::getExtendedStartAddr] *)
Definition getExtendedStartAddr (ma : MDMemoryAccess) : Z :=
  match BundledMAs ma with
  | Some bma => ExtendedAddr bma
  | None => Addr ma
  end.

(** [MDMemoryAccess::getExtendedEndAddr] *)
Definition getExtendedEndAddr (ma : MDMemoryAccess) : Z :=
  match BundledMAs ma with
  | Some bma => wrap64 (ExtendedAddr bma + ExtendedSize bma)
  | None => wrap64 (Addr ma + Size ma)
  end.

(** [MDMemoryAccess::append] *)
Definition append (NewIsStore : bool) (NewAddr NewSize : Z)
    (ma : MDMemoryAccess) : MDMemoryAccess :=
  let BMA := match BundledMAs ma with
             | Some b => b
             | None => make_bundle ma
             end in
  let ExtAddr1 :=
    if (NewAddr <? ExtendedAddr BMA)%Z then NewAddr else ExtendedAddr BMA in
  let NewEnd := wrap64 (NewAddr + NewSize) in
  let ExtSize1 :=
    if (wrap64 (ExtAddr1 + ExtendedSize BMA) <? NewEnd)%Z
    then wrap64 (NewEnd - ExtAddr1)
    else ExtendedSize BMA in
  {| IsStore := IsStore ma;
     Addr := Addr ma;
     Size := Size ma;
     BundledMAs :=
       Some {| Accesses := Accesses BMA ++ [mkSub NewIsStore NewAddr NewSize];
               ExtendedAddr := ExtAddr1;
               ExtendedSize := ExtSize1 |} |}.

(** A sequence of [append] calls, oldest first. *)
Definition append_all (calls : list SubAccess) (ma : MDMemoryAccess)
    : MDMemoryAccess :=
  fold_left (fun m c => append (sub_IsStore c) (sub_Addr c) (sub_Size c) m)
            calls ma.

(** The sub-accesses of a descriptor: the bundle when there is one, the
    descriptor's own access otherwise. *)
Definition sub_accesses (ma : MDMemoryAccess) : list SubAccess :=
  match BundledMAs ma with
  | Some bma => Accesses bma
  | None => [mkSub (IsStore ma) (Addr ma) (Size ma)]
  end.

(** Modelled from the spec: the alias test is declared in LSUnit.h.  "Two
    intervals [a1,e1) and [a2,e2) alias iff they overlap." *)
Definition overlap (a b : SubAccess) : bool :=
  (sub_Addr a <? sub_Addr b + sub_Size b)%Z &&
  (sub_Addr b <? sub_Addr a + sub_Size a)%Z.

(** Modelled from the spec: two descriptors alias iff any sub-access of one
    overlaps any sub-access of the other. *)
Definition aliases (a b : MDMemoryAccess) : bool :=
  existsb (fun x => existsb (overlap x) (sub_accesses b)) (sub_accesses a).

End MD.

(** ** Memory groups ([MemoryGroup], declared in LSUnit.h) *)

Module MG.

(** Modelled from the spec: the class [MemoryGroup] is declared in
    LSUnit.h.  A group carries the number of its predecessors, the counter
    of executed predecessors, the number of instructions, the counters of
    issued and executed instructions, its successor list with the per-edge
    [is_data_dependency] flag, and the list of memory accesses.  Successors
    are group IDs. *)
Record MemoryGroup := mkMG {
  NumPredecessors : N;
  NumExecutedPredecessors : N;
  NumInstructions : N;
  NumExecuting : N;
  NumExecuted : N;
  Succ : list (N * bool);
  MemAccesses : list MD.MDMemoryAccess
}.

Definition empty : MemoryGroup := mkMG 0 0 0 0 0 [] [].

(** Modelled from the spec: [add_instruction] "increments instruction
    count". *)
Definition addInstruction (G : MemoryGroup) : MemoryGroup :=
  mkMG (NumPredecessors G) (NumExecutedPredecessors G)
       (NumInstructions G + 1) (NumExecuting G) (NumExecuted G)
       (Succ G) (MemAccesses G).

(** Modelled from the spec: [add_mem_access] "appends MA to the bundle if
    present". *)
Definition addMemAccess (MDA : option MD.MDMemoryAccess) (G : MemoryGroup)
    : MemoryGroup :=
  match MDA with
  | Some ma =>
      mkMG (NumPredecessors G) (NumExecutedPredecessors G)
           (NumInstructions G) (NumExecuting G) (NumExecuted G)
           (Succ G) (MemAccesses G ++ [ma])
  | None => G
  end.

(** Modelled from the spec: the two halves of [add_successor]: the source
    group records the edge, the target counts one more predecessor. *)
Definition pushSuccessor (tgt : N) (IsDataDependent : bool)
    (G : MemoryGroup) : MemoryGroup :=
  mkMG (NumPredecessors G) (NumExecutedPredecessors G)
       (NumInstructions G) (NumExecuting G) (NumExecuted G)
       (Succ G ++ [(tgt, IsDataDependent)]) (MemAccesses G).

Definition addPredecessor (G : MemoryGroup) : MemoryGroup :=
  mkMG (NumPredecessors G + 1) (NumExecutedPredecessors G)
       (NumInstructions G) (NumExecuting G) (NumExecuted G)
       (Succ G) (MemAccesses G).

(** Modelled from the spec: "a group is ready iff executed_predecessors ==
    num_predecessors". *)
Definition isReady (G : MemoryGroup) : bool :=
  (NumExecutedPredecessors G =? NumPredecessors G)%N.

(** Modelled from the spec: "a group is executing iff it has at least one
    instruction not yet executed and at least one executing". *)
Definition isExecuting (G : MemoryGroup) : bool :=
  (NumExecuted G <? NumInstructions G)%N && (0 <? NumExecuting G)%N.

(** Modelled from the spec: "executed (all instructions executed)". *)
Definition isExecuted (G : MemoryGroup) : bool :=
  (NumInstructions G =? NumExecuted G)%N.

(** Modelled from the spec: [on_instruction_issued] updates the issue
    counter. *)
Definition onInstructionIssued (G : MemoryGroup) : MemoryGroup :=
  mkMG (NumPredecessors G) (NumExecutedPredecessors G)
       (NumInstructions G) (NumExecuting G + 1) (NumExecuted G)
       (Succ G) (MemAccesses G).

(** Modelled from the spec: [on_instruction_executed] updates the execute
    counter (the spec keeps [num_executed <= num_executing]). *)
Definition countExecuted (G : MemoryGroup) : MemoryGroup :=
  mkMG (NumPredecessors G) (NumExecutedPredecessors G)
       (NumInstructions G) (NumExecuting G) (NumExecuted G + 1)
       (Succ G) (MemAccesses G).

Definition onGroupExecuted (G : MemoryGroup) : MemoryGroup :=
  mkMG (NumPredecessors G) (NumExecutedPredecessors G + 1)
       (NumInstructions G) (NumExecuting G) (NumExecuted G)
       (Succ G) (MemAccesses G).

(** Modelled from the spec: [cycle_event] is a deferred-action tick,
    "stateless w.r.t. dependencies"; no modelled field changes. *)
Definition cycleEvent (G : MemoryGroup) : MemoryGroup := G.

(** Modelled from the spec: "a group MG aliases incoming access MA iff any
    sub-access of any MA in MG overlaps any sub-access of MA". *)
Definition isMemAccessAlias (G : MemoryGroup) (ma : MD.MDMemoryAccess)
    : bool :=
  existsb (fun m => MD.aliases m ma) (MemAccesses G).

(** Modelled from the spec: [on_instruction_executed] on the group stored
    under [gid]; when the whole group becomes executed, every successor
    counts one more executed predecessor. *)
Definition onInstructionExecuted (gid : N) (Groups : gmap N MemoryGroup)
    : gmap N MemoryGroup :=
  match Groups !! gid with
  | None => Groups
  | Some G =>
      let G1 := countExecuted G in
      let Groups1 := <[gid := G1]> Groups in
      if isExecuted G1
      then fold_left (fun m e => alter onGroupExecuted (fst e) m)
                     (Succ G1) Groups1
      else Groups1
  end.

End MG.

(** ** Instructions and the unit's state *)

Record InstrDesc := mkDesc {
  MayLoad : bool;
  MayStore : bool
}.

(** What the unit reads of an [Instruction] through an [InstRef]. *)
Record Instruction := mkInstr {
  getDesc : InstrDesc;
  isALoadBarrier : bool;
  isAStoreBarrier : bool;
  getMetadataToken : option N;
  getLSUTokenID : N
}.

(** What the constructor reads of the scheduling model. *)
Record MCSchedModel := mkSM {
  hasExtraProcessorInfo : bool;
  LoadQueueID : N;
  StoreQueueID : N;
  BufferSize : N → Z      (* getProcResource(ID)->BufferSize, an int *)
}.

(** The fields of [LSUnitBase] followed by the four current pointers of
    [LSUnit].  [MDRegistry] is the registry's memory-access category, when a
    registry is attached. *)
Record LSUnit := mkLSU {
  LQSize : N;
  SQSize : N;
  UsedLQEntries : N;
  UsedSQEntries : N;
  NoAlias : bool;
  NextGroupID : N;
  Groups : gmap N MG.MemoryGroup;
  MDRegistry : option (gmap N MD.MDMemoryAccess);
  CurrentLoadGroupID : N;
  CurrentStoreGroupID : N;
  CurrentLoadBarrierGroupID : N;
  CurrentStoreBarrierGroupID : N
}.

Inductive Status := LSU_AVAILABLE | LSU_LQUEUE_FULL | LSU_SQUEUE_FULL.

Definition set_Groups (f : gmap N MG.MemoryGroup → gmap N MG.MemoryGroup)
    (st : LSUnit) : LSUnit :=
  mkLSU (LQSize st) (SQSize st) (UsedLQEntries st) (UsedSQEntries st)
        (NoAlias st) (NextGroupID st) (f (Groups st)) (MDRegistry st)
        (CurrentLoadGroupID st) (CurrentStoreGroupID st)
        (CurrentLoadBarrierGroupID st) (CurrentStoreBarrierGroupID st).

Definition set_UsedLQ (f : N → N) (st : LSUnit) : LSUnit :=
  mkLSU (LQSize st) (SQSize st) (f (UsedLQEntries st)) (UsedSQEntries st)
        (NoAlias st) (NextGroupID st) (Groups st) (MDRegistry st)
        (CurrentLoadGroupID st) (CurrentStoreGroupID st)
        (CurrentLoadBarrierGroupID st) (CurrentStoreBarrierGroupID st).

Definition set_UsedSQ (f : N → N) (st : LSUnit) : LSUnit :=
  mkLSU (LQSize st) (SQSize st) (UsedLQEntries st) (f (UsedSQEntries st))
        (NoAlias st) (NextGroupID st) (Groups st) (MDRegistry st)
        (CurrentLoadGroupID st) (CurrentStoreGroupID st)
        (CurrentLoadBarrierGroupID st) (CurrentStoreBarrierGroupID st).

Definition set_NextGroupID (n : N) (st : LSUnit) : LSUnit :=
  mkLSU (LQSize st) (SQSize st) (UsedLQEntries st) (UsedSQEntries st)
        (NoAlias st) n (Groups st) (MDRegistry st)
        (CurrentLoadGroupID st) (CurrentStoreGroupID st)
        (CurrentLoadBarrierGroupID st) (CurrentStoreBarrierGroupID st).

Definition set_CurrentLoad (g : N) (st : LSUnit) : LSUnit :=
  mkLSU (LQSize st) (SQSize st) (UsedLQEntries st) (UsedSQEntries st)
        (NoAlias st) (NextGroupID st) (Groups st) (MDRegistry st)
        g (CurrentStoreGroupID st)
        (CurrentLoadBarrierGroupID st) (CurrentStoreBarrierGroupID st).

Definition set_CurrentStore (g : N) (st : LSUnit) : LSUnit :=
  mkLSU (LQSize st) (SQSize st) (UsedLQEntries st) (UsedSQEntries st)
        (NoAlias st) (NextGroupID st) (Groups st) (MDRegistry st)
        (CurrentLoadGroupID st) g
        (CurrentLoadBarrierGroupID st) (CurrentStoreBarrierGroupID st).

Definition set_CurrentLoadBarrier (g : N) (st : LSUnit) : LSUnit :=
  mkLSU (LQSize st) (SQSize st) (UsedLQEntries st) (UsedSQEntries st)
        (NoAlias st) (NextGroupID st) (Groups st) (MDRegistry st)
        (CurrentLoadGroupID st) (CurrentStoreGroupID st)
        g (CurrentStoreBarrierGroupID st).

Definition set_CurrentStoreBarrier (g : N) (st : LSUnit) : LSUnit :=
  mkLSU (LQSize st) (SQSize st) (UsedLQEntries st) (UsedSQEntries st)
        (NoAlias st) (NextGroupID st) (Groups st) (MDRegistry st)
        (CurrentLoadGroupID st) (CurrentStoreGroupID st)
        (CurrentLoadBarrierGroupID st) g.

Definition set_NoAlias (b : bool) (st : LSUnit) : LSUnit :=
  mkLSU (LQSize st) (SQSize st) (UsedLQEntries st) (UsedSQEntries st)
        b (NextGroupID st) (Groups st) (MDRegistry st)
        (CurrentLoadGroupID st) (CurrentStoreGroupID st)
        (CurrentLoadBarrierGroupID st) (CurrentStoreBarrierGroupID st).

(** ** Helpers of [LSUnitBase] declared in LSUnit.h *)

(** Modelled from the spec: [LSUnit]'s constructor (LSUnit.h) starts the four
    current pointers at the sentinel 0. *)
Definition initial_pointers : N := 0%N.

(** [LSUnitBase::LSUnitBase], followed by the pointers' initialisation. *)
Definition LSUnit_new (SM : MCSchedModel) (LQ SQ : N) (AssumeNoAlias : bool)
    (MDR : option (gmap N MD.MDMemoryAccess)) : LSUnit :=
  let LQSize1 :=
    if hasExtraProcessorInfo SM && (LQ =? 0)%N && negb (LoadQueueID SM =? 0)%N
    then Z.to_N (Z.max 0 (BufferSize SM (LoadQueueID SM)))
    else LQ in
  let SQSize1 :=
    if hasExtraProcessorInfo SM && (SQ =? 0)%N && negb (StoreQueueID SM =? 0)%N
    then Z.to_N (Z.max 0 (BufferSize SM (StoreQueueID SM)))
    else SQ in
  mkLSU LQSize1 SQSize1 0 0 AssumeNoAlias 1 ∅ MDR
        initial_pointers initial_pointers initial_pointers initial_pointers.

(** Modelled from the spec: "an instruction is a store iff may_store OR the
    MA indicates a store". *)
Definition isStore (Desc : InstrDesc) (MDA : option MD.MDMemoryAccess) : bool :=
  MayStore Desc ||
  match MDA with Some ma => MD.IsStore ma | None => false end.

(** [Instruction::isMemOp], from the descriptor's flags as the assertion of
    [dispatch] states them ("Not a memory operation!"). *)
Definition isMemOp (IR : Instruction) : bool :=
  MayLoad (getDesc IR) || MayStore (getDesc IR).

(** Modelled from the spec: [is_lq_full] / [is_sq_full] are
    "size != 0 && used == size". *)
Definition isLQFull (st : LSUnit) : bool :=
  negb (LQSize st =? 0)%N && (UsedLQEntries st =? LQSize st)%N.

Definition isSQFull (st : LSUnit) : bool :=
  negb (SQSize st =? 0)%N && (UsedSQEntries st =? SQSize st)%N.

(** Modelled from the spec: acquire/release are "+1 / -1 on the respective
    counter; release requires counter > 0" (a fatal assertion otherwise). *)
Definition acquireLQSlot (st : LSUnit) : LSUnit := set_UsedLQ (λ n, n + 1)%N st.
Definition acquireSQSlot (st : LSUnit) : LSUnit := set_UsedSQ (λ n, n + 1)%N st.

Definition releaseLQSlot (st : LSUnit) : option LSUnit :=
  if (0 <? UsedLQEntries st)%N then Some (set_UsedLQ (λ n, n - 1)%N st)
  else None.

Definition releaseSQSlot (st : LSUnit) : option LSUnit :=
  if (0 <? UsedSQEntries st)%N then Some (set_UsedSQ (λ n, n - 1)%N st)
  else None.

(** Modelled from the spec: [assume_no_alias] returns the construction
    flag. *)
Definition assumeNoAlias (st : LSUnit) : bool := NoAlias st.

(** Modelled from the spec: [get_group] has the precondition "GID live" and
    fails fatally otherwise. *)
Definition getGroup (st : LSUnit) (GID : N) : option MG.MemoryGroup :=
  Groups st !! GID.

(** Modelled from the spec: a group ID is valid when it is live in the table;
    0 is the sentinel "none". *)
Definition isValidGroupID (st : LSUnit) (GID : N) : bool :=
  negb (GID =? 0)%N && bool_decide (is_Some (Groups st !! GID)).

(** Modelled from the spec: [create_memory_group] "allocates next GID,
    inserts empty MG"; IDs come from a monotonically increasing counter. *)
Definition createMemoryGroup (st : LSUnit) : LSUnit * N :=
  let NewGID := NextGroupID st in
  (set_NextGroupID (NewGID + 1)%N (set_Groups (insert NewGID MG.empty) st),
   NewGID).

(** [getGroup(src).addSuccessor(&getGroup(tgt), flag)]: the source group must
    be live. *)
Definition addSuccessor (src tgt : N) (IsDataDependent : bool) (st : LSUnit)
    : option LSUnit :=
  G ← getGroup st src;
  Some (set_Groups
          (λ m, alter MG.addPredecessor tgt
                  (<[src := MG.pushSuccessor tgt IsDataDependent G]> m)) st).

(** [getGroup(GID).addInstruction(); getGroup(GID).addMemAccess(MDA)] *)
Definition addToGroup (GID : N) (MDA : option MD.MDMemoryAccess) (st : LSUnit)
    : option LSUnit :=
  G ← getGroup st GID;
  Some (set_Groups
          (insert GID (MG.addMemAccess MDA (MG.addInstruction G))) st).

(** ** The functions of LSUnit.cpp *)

(** [LSUnitBase::getMemoryAccessMD] *)
Definition getMemoryAccessMD (st : LSUnit) (IR : Instruction)
    : option MD.MDMemoryAccess :=
  match MDRegistry st, getMetadataToken IR with
  | Some Registry, Some MDTok => Registry !! MDTok
  | _, _ => None
  end.

(** [LSUnitBase::noAlias] *)
Definition noAlias (st : LSUnit) (GID : N) (MDA : option MD.MDMemoryAccess)
    : option bool :=
  match MDA with
  | Some ma =>
      G ← getGroup st GID;
      Some (negb (MG.isMemAccessAlias G ma))
  | None => Some (assumeNoAlias st)
  end.

(** [LSUnitBase::cycleEvent] *)
Definition cycleEvent (st : LSUnit) : LSUnit :=
  set_Groups (fmap MG.cycleEvent) st.

(** The pointer updates that close the store branch (lines 197-205). *)
Definition store_pointers (IR : Instruction) (NewGID : N) (st5 : LSUnit)
    : LSUnit :=
  let st6 := set_CurrentStore NewGID st5 in
  let st7 := if isAStoreBarrier IR then set_CurrentStoreBarrier NewGID st6
             else st6 in
  if MayLoad (getDesc IR)
  then let st := set_CurrentLoad NewGID st7 in
       if isALoadBarrier IR then set_CurrentLoadBarrier NewGID st else st
  else st7.

(** The pointer updates that close the new-group branch of the load path
    (lines 272-274). *)
Definition load_pointers (IR : Instruction) (NewGID : N) (st4 : LSUnit)
    : LSUnit :=
  let st5 := set_CurrentLoad NewGID st4 in
  if isALoadBarrier IR then set_CurrentLoadBarrier NewGID st5 else st5.

(** The store branch of [LSUnit::dispatch] (lines 157-208), entered after the
    queue slots are taken. *)
Definition dispatch_store (IR : Instruction)
    (MaybeMDA : option MD.MDMemoryAccess) (st0 : LSUnit) : option (LSUnit * N) :=
  let CL := CurrentLoadGroupID st0 in
  let CLB := CurrentLoadBarrierGroupID st0 in
  let CS := CurrentStoreGroupID st0 in
  let CSB := CurrentStoreBarrierGroupID st0 in
  let '(st1, NewGID) := createMemoryGroup st0 in
  st2 ← addToGroup NewGID MaybeMDA st1;
  (* A store may not pass a previous load or load barrier. *)
  let ImmediateLoadDominator := N.max CL CLB in
  st3 ← (if negb (ImmediateLoadDominator =? 0)%N
         then na ← noAlias st2 ImmediateLoadDominator MaybeMDA;
              addSuccessor ImmediateLoadDominator NewGID (negb na) st2
         else Some st2);
  (* A store may not pass a previous store barrier. *)
  st4 ← (if negb (CSB =? 0)%N then addSuccessor CSB NewGID true st3
         else Some st3);
  (* A store may not pass a previous store. *)
  st5 ← (if negb (CS =? 0)%N && negb (CS =? CSB)%N
         then na ← noAlias st4 CS MaybeMDA;
              addSuccessor CS NewGID (negb na) st4
         else Some st4);
  Some (store_pointers IR NewGID st5, NewGID).

(** [ShouldCreateANewGroup] of [LSUnit::dispatch] (lines 227-231); the last
    disjunct looks the dominator up only when the others are false. *)
Definition ShouldCreateANewGroup (IR : Instruction) (st : LSUnit)
    : option bool :=
  let ImmediateLoadDominator :=
    N.max (CurrentLoadGroupID st) (CurrentLoadBarrierGroupID st) in
  if isALoadBarrier IR
     || (ImmediateLoadDominator =? 0)%N
     || (CurrentLoadBarrierGroupID st =? ImmediateLoadDominator)%N
     || (ImmediateLoadDominator <=? CurrentStoreGroupID st)%N
  then Some true
  else G ← getGroup st ImmediateLoadDominator; Some (MG.isExecuting G).

(** The new-group branch of the load path (lines 233-276). *)
Definition dispatch_new_load (IR : Instruction)
    (MaybeMDA : option MD.MDMemoryAccess) (st0 : LSUnit) : option (LSUnit * N) :=
  let CL := CurrentLoadGroupID st0 in
  let CLB := CurrentLoadBarrierGroupID st0 in
  let CS := CurrentStoreGroupID st0 in
  let ImmediateLoadDominator := N.max CL CLB in
  let '(st1, NewGID) := createMemoryGroup st0 in
  st2 ← addToGroup NewGID MaybeMDA st1;
  (* A load may not pass a previous store or store barrier unless flag
     'NoAlias' is set. *)
  st3 ← (if negb (CS =? 0)%N
         then na ← noAlias st2 CS MaybeMDA;
              if negb na then addSuccessor CS NewGID true st2 else Some st2
         else Some st2);
  st4 ← (if isALoadBarrier IR
         then (* A load barrier may not pass a previous load or load barrier. *)
              if negb (ImmediateLoadDominator =? 0)%N
              then addSuccessor ImmediateLoadDominator NewGID true st3
              else Some st3
         else (* A younger load cannot pass a older load barrier. *)
              if negb (CLB =? 0)%N
              then addSuccessor CLB NewGID true st3
              else Some st3);
  Some (load_pointers IR NewGID st4, NewGID).

(** The load path of [LSUnit::dispatch] (lines 210-287). *)
Definition dispatch_load (IR : Instruction)
    (MaybeMDA : option MD.MDMemoryAccess) (st : LSUnit) : option (LSUnit * N) :=
  if negb (MayLoad (getDesc IR)) then None (* "Expected a load!" *) else
  create ← ShouldCreateANewGroup IR st;
  if create : bool then dispatch_new_load IR MaybeMDA st
  else (* A load may pass a previous load. *)
    st1 ← addToGroup (CurrentLoadGroupID st) MaybeMDA st;
    Some (st1, CurrentLoadGroupID st).

(** The queue slots taken on entry to [dispatch] (lines 152-155). *)
Definition acquire_slots (IR : Instruction) (st : LSUnit) : LSUnit :=
  let Desc := getDesc IR in
  let MaybeMDA := getMemoryAccessMD st IR in
  let st1 := if MayLoad Desc then acquireLQSlot st else st in
  if isStore Desc MaybeMDA then acquireSQSlot st1 else st1.

(** [LSUnit::dispatch] *)
Definition dispatch (IR : Instruction) (st : LSUnit) : option (LSUnit * N) :=
  let Desc := getDesc IR in
  let MaybeMDA := getMemoryAccessMD st IR in
  if negb (MayLoad Desc || MayStore Desc) then None (* "Not a memory operation!" *)
  else
    let st2 := acquire_slots IR st in
    if isStore Desc MaybeMDA then dispatch_store IR MaybeMDA st2
    else dispatch_load IR MaybeMDA st2.

(** [LSUnit::isAvailable] *)
Definition isAvailable (IR : Instruction) (st : LSUnit) : Status :=
  let Desc := getDesc IR in
  let MaybeMDA := getMemoryAccessMD st IR in
  if MayLoad Desc && isLQFull st then LSU_LQUEUE_FULL
  else if isStore Desc MaybeMDA && isSQFull st then LSU_SQUEUE_FULL
  else LSU_AVAILABLE.

(** [LSUnitBase::onInstructionExecuted] *)
Definition LSUnitBase_onInstructionExecuted (IR : Instruction) (st : LSUnit)
    : option LSUnit :=
  let GroupID := getLSUTokenID IR in
  _ ← Groups st !! GroupID;   (* "Instruction not dispatched to the LS unit" *)
  let Groups1 := MG.onInstructionExecuted GroupID (Groups st) in
  G1 ← Groups1 !! GroupID;
  Some (set_Groups
          (λ _, if MG.isExecuted G1 then delete GroupID Groups1 else Groups1)
          st).

(** [LSUnitBase::onInstructionRetired] *)
Definition onInstructionRetired (IR : Instruction) (st : LSUnit)
    : option LSUnit :=
  let Desc := getDesc IR in
  let MaybeMDA := getMemoryAccessMD st IR in
  let IsALoad := MayLoad Desc in
  let IsAStore := isStore Desc MaybeMDA in
  if negb (IsALoad || IsAStore) then None (* "Expected a memory operation!" *)
  else
    st1 ← (if IsALoad then releaseLQSlot st else Some st);
    if IsAStore then releaseSQSlot st1 else Some st1.

(** [LSUnit::onInstructionExecuted] *)
Definition onInstructionExecuted (IR : Instruction) (st : LSUnit)
    : option LSUnit :=
  if negb (isMemOp IR) then Some st
  else
    st1 ← LSUnitBase_onInstructionExecuted IR st;
    let GroupID := getLSUTokenID IR in
    if negb (isValidGroupID st1 GroupID)
    then
      let clear (p : N) := if (GroupID =? p)%N then 0%N else p in
      Some (mkLSU (LQSize st1) (SQSize st1) (UsedLQEntries st1)
                  (UsedSQEntries st1) (NoAlias st1) (NextGroupID st1)
                  (Groups st1) (MDRegistry st1)
                  (clear (CurrentLoadGroupID st1))
                  (clear (CurrentStoreGroupID st1))
                  (clear (CurrentLoadBarrierGroupID st1))
                  (clear (CurrentStoreBarrierGroupID st1)))
    else Some st1.

(** Modelled from the spec: the scheduler's [on_instruction_issued] reaches
    the group stamped on the instruction and updates its issue counter. *)
Definition onInstructionIssued (IR : Instruction) (st : LSUnit)
    : option LSUnit :=
  G ← getGroup st (getLSUTokenID IR);
  Some (set_Groups (insert (getLSUTokenID IR) (MG.onInstructionIssued G)) st).

(** ** Sequences of operations *)

Inductive Event :=
  | EvDispatch (IR : Instruction)
  | EvIssued (IR : Instruction)
  | EvExecuted (IR : Instruction)
  | EvRetired (IR : Instruction)
  | EvCycle.

Definition step (e : Event) (st : LSUnit) : option LSUnit :=
  match e with
  | EvDispatch IR => fst <$> dispatch IR st
  | EvIssued IR => onInstructionIssued IR st
  | EvExecuted IR => onInstructionExecuted IR st
  | EvRetired IR => onInstructionRetired IR st
  | EvCycle => Some (cycleEvent st)
  end.

Fixpoint run (evs : list Event) (st : LSUnit) : option LSUnit :=
  match evs with
  | [] => Some st
  | e :: evs' => st1 ← step e st; run evs' st1
  end.

(** A run of dispatches, collecting the group ID returned for each
    instruction. *)
Fixpoint dispatch_all (IRs : list Instruction) (st : LSUnit)
    : option (LSUnit * list N) :=
  match IRs with
  | [] => Some (st, [])
  | IR :: IRs' =>
      '(st1, g) ← dispatch IR st;
      '(st2, gs) ← dispatch_all IRs' st1;
      Some (st2, g :: gs)
  end.

(** The instructions dispatched and retired by a sequence of events. *)
Definition dispatched (evs : list Event) : list Instruction :=
  omap (λ e, match e with EvDispatch IR => Some IR | _ => None end) evs.

Definition retired (evs : list Event) : list Instruction :=
  omap (λ e, match e with EvRetired IR => Some IR | _ => None end) evs.

(** ** Vocabulary of the properties *)

Definition live (st : LSUnit) (g : N) : Prop := is_Some (Groups st !! g).

(** A current pointer is either the sentinel or a live group. *)
Definition ptr_ok (st : LSUnit) (p : N) : Prop := p = 0%N ∨ live st p.

Definition pointers_live (st : LSUnit) : Prop :=
  ptr_ok st (CurrentLoadGroupID st) ∧
  ptr_ok st (CurrentStoreGroupID st) ∧
  ptr_ok st (CurrentLoadBarrierGroupID st) ∧
  ptr_ok st (CurrentStoreBarrierGroupID st).

(** Group [g] has [h] in its successor list, with the given flag. *)
Definition has_succ (st : LSUnit) (g h : N) (flag : bool) : Prop :=
  ∃ G, Groups st !! g = Some G ∧ (h, flag) ∈ MG.Succ G.

(** [g] is a predecessor of [h]. *)
Definition edge (st : LSUnit) (g h : N) : Prop := ∃ flag, has_succ st g h flag.

(** [h] is transitively reachable from [g]. *)
Definition reachable (st : LSUnit) : N → N → Prop := tc (edge st).

(** The predecessors of [h] among the live groups, computed. *)
Definition preds_of (st : LSUnit) (h : N) : list N :=
  omap (λ kg : N * MG.MemoryGroup,
          if existsb (λ e, (fst e =? h)%N) (MG.Succ (snd kg))
          then Some (fst kg) else None)
       (map_to_list (Groups st)).

(** The shape of the states the unit goes through: IDs below the counter,
    pointers live, successors below the counter. *)
Definition wf (st : LSUnit) : Prop :=
  (0 < NextGroupID st)%N ∧
  (∀ k, live st k → (0 < k < NextGroupID st)%N) ∧
  pointers_live st ∧
  (∀ g h, edge st g h → (h < NextGroupID st)%N).

Definition is_store (st : LSUnit) (IR : Instruction) : bool :=
  isStore (getDesc IR) (getMemoryAccessMD st IR).

(** A pure load: it may load and is not a store. *)
Definition pure_load (st : LSUnit) (IR : Instruction) : Prop :=
  is_store st IR = false ∧ MayLoad (getDesc IR) = true.

(** The disjunction under which the load path opens a new group. *)
Definition new_group_condition (IR : Instruction) (st : LSUnit) : Prop :=
  let dom := N.max (CurrentLoadGroupID st) (CurrentLoadBarrierGroupID st) in
  isALoadBarrier IR = true ∨ dom = 0%N ∨
  CurrentLoadBarrierGroupID st = dom ∨
  (dom <= CurrentStoreGroupID st)%N ∨
  (∃ G, Groups st !! dom = Some G ∧ MG.isExecuting G = true).

(** The memory accesses recorded in a group. *)
Definition mem_of (st : LSUnit) (g : N) : option (list MD.MDMemoryAccess) :=
  MG.MemAccesses <$> Groups st !! g.

(** The list of descriptors that [addMemAccess] adds to a group. *)
Definition accesses_of (MDA : option MD.MDMemoryAccess)
    : list MD.MDMemoryAccess :=
  match MDA with Some ma => [ma] | None => [] end.

(** A projection of the group stored under [k], when there is one. *)
Definition view {A} (π : MG.MemoryGroup → A) (st : LSUnit) (k : N) : option A :=
  π <$> Groups st !! k.

(** [st'] differs from [st] in the group table only. *)
Definition frame (st st' : LSUnit) : Prop :=
  st' = set_Groups (λ _, Groups st') st.

(** The state right after [createMemoryGroup] and the first
    [addInstruction] / [addMemAccess] on the new group. *)
Definition opened (MDA : option MD.MDMemoryAccess) (st : LSUnit) : LSUnit :=
  set_NextGroupID (NextGroupID st + 1)%N
    (set_Groups
       (insert (NextGroupID st)
               (MG.addMemAccess MDA (MG.addInstruction MG.empty))) st).

(** A projection that the two halves of [addSuccessor] leave alone. *)
Definition wiring_blind {A} (π : MG.MemoryGroup → A) : Prop :=
  (∀ G, π (MG.addPredecessor G) = π G) ∧
  (∀ G t f, π (MG.pushSuccessor t f G) = π G).

(** [st'] is [st] with the edges [added] wired into the group [tgt], and
    nothing else changed. *)
Definition wiring (st st' : LSUnit) (tgt : N) (added : N → bool → Prop)
    : Prop :=
  frame st st' ∧
  (∀ k, live st' k ↔ live st k) ∧
  (∀ A (π : MG.MemoryGroup → A), wiring_blind π →
     ∀ k, view π st' k = view π st k) ∧
  (∀ a b f, has_succ st' a b f ↔ has_succ st a b f ∨ (b = tgt ∧ added a f)).

(** [st'] is [st] with the new group [g] opened for one instruction with
    the access [MDA], and the edges [added] wired into it. *)
Definition opens_group (st st' : LSUnit) (g : N)
    (MDA : option MD.MDMemoryAccess) (added : N → bool → Prop) : Prop :=
  g = NextGroupID st ∧
  NextGroupID st' = (NextGroupID st + 1)%N ∧
  (∀ k, live st' k ↔ live st k ∨ k = g) ∧
  (∀ a b f, has_succ st' a b f ↔ has_succ st a b f ∨ (b = g ∧ added a f)) ∧
  (∀ A (π : MG.MemoryGroup → A), wiring_blind π →
     ∀ k, k ≠ g → view π st' k = view π st k) ∧
  (∀ A (π : MG.MemoryGroup → A), wiring_blind π →
     view π st' g = Some (π (MG.addMemAccess MDA (MG.addInstruction MG.empty)))).

(** The fields that [dispatch] never writes, and the two counters as
    [acquire_slots] leaves them. *)
Definition dispatch_frame (IR : Instruction) (st st' : LSUnit) : Prop :=
  LQSize st' = LQSize st ∧ SQSize st' = SQSize st ∧
  NoAlias st' = NoAlias st ∧ MDRegistry st' = MDRegistry st ∧
  UsedLQEntries st' =
    (UsedLQEntries st + if MayLoad (getDesc IR) then 1 else 0)%N ∧
  UsedSQEntries st' =
    (UsedSQEntries st + if is_store st IR then 1 else 0)%N.

(** A current pointer after the group [cleared] (if any) has left the
    table. *)
Definition clr (cleared : option N) (p : N) : N :=
  match cleared with
  | Some t => if (t =? p)%N then 0%N else p
  | None => p
  end.

(** A projection that the execution counters leave alone. *)
Definition exec_blind {A} (π : MG.MemoryGroup → A) : Prop :=
  (∀ G, π (MG.countExecuted G) = π G) ∧
  (∀ G, π (MG.onGroupExecuted G) = π G).

(** What an operation other than [dispatch] may do to the table and the
    pointers: at most one group leaves, and the pointers to it are cleared. *)
Definition quiet_step (st st' : LSUnit) (cleared : option N) : Prop :=
  NextGroupID st' = NextGroupID st ∧
  MDRegistry st' = MDRegistry st ∧
  CurrentLoadGroupID st' = clr cleared (CurrentLoadGroupID st) ∧
  CurrentStoreGroupID st' = clr cleared (CurrentStoreGroupID st) ∧
  CurrentLoadBarrierGroupID st' = clr cleared (CurrentLoadBarrierGroupID st) ∧
  CurrentStoreBarrierGroupID st' =
    clr cleared (CurrentStoreBarrierGroupID st) ∧
  (∀ k, live st' k → live st k) ∧
  (∀ k, live st k → live st' k ∨ cleared = Some k) ∧
  (∀ a b f, has_succ st' a b f → has_succ st a b f) ∧
  (∀ k, cleared = Some k → k ≠ 0%N → ¬ live st' k).

Definition is_dispatch (e : Event) : Prop :=
  match e with EvDispatch _ => True | _ => False end.

(** A load barrier as [dispatch] records it: the instruction may load and
    carries the load-barrier flag. *)
Definition load_barrier_op (IR : Instruction) : Prop :=
  MayLoad (getDesc IR) = true ∧ isALoadBarrier IR = true.

(** A store barrier as [dispatch] records it: a store that carries the
    store-barrier flag. *)
Definition store_barrier_op (st : LSUnit) (IR : Instruction) : Prop :=
  is_store st IR = true ∧ isAStoreBarrier IR = true.

(** The current load barrier descends from [gB], and the current load group
    descends from the current load barrier. *)
Definition load_chain (st : LSUnit) (gB : N) : Prop :=
  CurrentLoadBarrierGroupID st ≠ 0%N ∧
  rtc (edge st) gB (CurrentLoadBarrierGroupID st) ∧
  (CurrentLoadGroupID st = CurrentLoadBarrierGroupID st ∨
   reachable st (CurrentLoadBarrierGroupID st) (CurrentLoadGroupID st)).

(** The current store barrier descends from [gB]. *)
Definition store_chain (st : LSUnit) (gB : N) : Prop :=
  CurrentStoreBarrierGroupID st ≠ 0%N ∧
  rtc (edge st) gB (CurrentStoreBarrierGroupID st).

(** The group [gS] of a store with access [maS] is still the current store
    group, and holds that access only. *)
Definition store_current (st : LSUnit) (gS : N) (maS : MD.MDMemoryAccess)
    : Prop :=
  wf st ∧ gS ≠ 0%N ∧ CurrentStoreGroupID st = gS ∧ mem_of st gS = Some [maS].

(** The load-side pointers do not designate [gS]. *)
Definition not_load_side (st : LSUnit) (gS : N) : Prop :=
  CurrentLoadGroupID st ≠ gS ∧ CurrentLoadBarrierGroupID st ≠ gS.

(** The group that the structural edge of a new load group comes from: the
    load dominator for a load barrier, the current load barrier otherwise
    (0 when there is none). *)
Definition structural_pred (IR : Instruction) (st : LSUnit) : N :=
  if isALoadBarrier IR
  then N.max (CurrentLoadGroupID st) (CurrentLoadBarrierGroupID st)
  else CurrentLoadBarrierGroupID st.

Definition no_dispatch (evs : list Event) : Prop :=
  Forall (λ e, ¬ is_dispatch e) evs.

Definition count_if (p : Instruction → bool) (l : list Instruction) : N :=
  N.of_nat (length (filter (λ IR, p IR = true) l)).

(** ** Vocabulary of the further properties *)

(** The bundle that [append] works on: the existing one, or the one it
    materializes from the descriptor's own access. *)
Definition bundle_of (ma : MD.MDMemoryAccess) : MD.BundledMemoryAccesses :=
  match MD.BundledMAs ma with
  | Some b => b
  | None => MD.make_bundle ma
  end.

(** The extended interval lies within the 64-bit address space. *)
Definition fits (ma : MD.MDMemoryAccess) : Prop :=
  (0 <= MD.ExtendedAddr (bundle_of ma))%Z ∧
  (0 <= MD.ExtendedSize (bundle_of ma))%Z ∧
  (MD.ExtendedAddr (bundle_of ma) + MD.ExtendedSize (bundle_of ma) < 2 ^ 64)%Z.

(** A sub-access within the 64-bit address space. *)
Definition sub_fits (x : MD.SubAccess) : Prop :=
  (0 <= MD.sub_Addr x)%Z ∧ (0 <= MD.sub_Size x)%Z ∧
  (MD.sub_Addr x + MD.sub_Size x < 2 ^ 64)%Z.

(** The extended interval covers the sub-access [x]. *)
Definition covers (ma : MD.MDMemoryAccess) (x : MD.SubAccess) : Prop :=
  (MD.getExtendedStartAddr ma <= MD.sub_Addr x)%Z ∧
  (MD.sub_Addr x + MD.sub_Size x <= MD.getExtendedEndAddr ma)%Z.

(** The caller's protocol: [isAvailable] is consulted before each
    [dispatch], which is called only on the verdict [LSU_AVAILABLE]. *)
Definition step_checked (e : Event) (st : LSUnit) : option LSUnit :=
  match e with
  | EvDispatch IR =>
      match isAvailable IR st with
      | LSU_AVAILABLE => step e st
      | _ => None
      end
  | _ => step e st
  end.

Fixpoint run_checked (evs : list Event) (st : LSUnit) : option LSUnit :=
  match evs with
  | [] => Some st
  | e :: evs' => st1 ← step_checked e st; run_checked evs' st1
  end.

(** A bounded queue (size not 0) holds no more entries than its size. *)
Definition queue_bounded (st : LSUnit) : Prop :=
  (LQSize st ≠ 0%N → (UsedLQEntries st <= LQSize st)%N) ∧
  (SQSize st ≠ 0%N → (UsedSQEntries st <= SQSize st)%N).

(** Every edge goes from a smaller group ID to a larger one. *)
Definition edges_up (st : LSUnit) : Prop :=
  ∀ g h, edge st g h → (g < h)%N.

(** No instruction of a live group has been issued. *)
Definition quiescent (st : LSUnit) : Prop :=
  ∀ k n, view MG.NumExecuting st k = Some n → n = 0%N.

(** The load dominator [max(current_load, current_load_barrier)]. *)
Definition load_dominator (st : LSUnit) : N :=
  N.max (CurrentLoadGroupID st) (CurrentLoadBarrierGroupID st).

(** When the current store group is not older than the load dominator, it
    descends from it. *)
Definition store_after_dom (st : LSUnit) : Prop :=
  CurrentStoreGroupID st ≠ 0%N → load_dominator st ≠ 0%N →
  (load_dominator st <= CurrentStoreGroupID st)%N →
  rtc (edge st) (load_dominator st) (CurrentStoreGroupID st).

(** The next store will be wired after the group [gX]: [gX] is an ancestor
    of the current store group or of the load dominator. *)
Definition older_covered (st : LSUnit) (gX : N) : Prop :=
  (CurrentStoreGroupID st ≠ 0%N ∧ rtc (edge st) gX (CurrentStoreGroupID st)) ∨
  (load_dominator st ≠ 0%N ∧ rtc (edge st) gX (load_dominator st)).

(** The states of a dispatch-only history: well formed, nothing issued, the
    current store group after the load dominator. *)
Definition calm (st : LSUnit) : Prop :=
  wf st ∧ quiescent st ∧ store_after_dom st.

(** A current pointer after an execution: unchanged, or cleared because it
    held the token [tok]. *)
Definition kept_or_cleared (tok old new : N) : Prop :=
  new = old ∨ (new = 0%N ∧ old = tok).

(** The edges that the store branch of [dispatch] wires into the new group
    (lines 167-194): from the load dominator and from the current store
    group, flagged by the alias test, and from the current store barrier,
    always flagged. *)
Definition store_edge (st : LSUnit) (MDA : option MD.MDMemoryAccess)
    (a : N) (f : bool) : Prop :=
  (a = load_dominator st ∧ load_dominator st ≠ 0%N ∧
   noAlias st (load_dominator st) MDA = Some (negb f)) ∨
  (a = CurrentStoreBarrierGroupID st ∧
   CurrentStoreBarrierGroupID st ≠ 0%N ∧ f = true) ∨
  (a = CurrentStoreGroupID st ∧ CurrentStoreGroupID st ≠ 0%N ∧
   CurrentStoreGroupID st ≠ CurrentStoreBarrierGroupID st ∧
   noAlias st (CurrentStoreGroupID st) MDA = Some (negb f)).

(** The edges that the load path of [dispatch] wires into a new group
    (lines 243-270): from the current store group when it may alias, and
    from the structural predecessor; both flagged. *)
Definition load_edge (IR : Instruction) (st : LSUnit)
    (MDA : option MD.MDMemoryAccess) (a : N) (f : bool) : Prop :=
  f = true ∧
  ((CurrentStoreGroupID st ≠ 0%N ∧ a = CurrentStoreGroupID st ∧
    noAlias st (CurrentStoreGroupID st) MDA = Some false) ∨
   (structural_pred IR st ≠ 0%N ∧ a = structural_pred IR st)).

(** ** Scenarios of the specification *)

Module Scenario.

Definition SM : MCSchedModel := mkSM false 0 0 (λ _, 0%Z).

(** L@0/8, L@8/8, S@32/4, L@64/8, then SB@0/8 and L@0/8 under tokens 4, 5. *)
Definition registry : gmap N MD.MDMemoryAccess :=
  list_to_map
    [(0%N, MD.mkMA false 0 8 None); (1%N, MD.mkMA false 8 8 None);
     (2%N, MD.mkMA true 32 4 None); (3%N, MD.mkMA false 64 8 None);
     (4%N, MD.mkMA true 0 8 None); (5%N, MD.mkMA false 0 8 None)].

Definition Load (tok gid : N) : Instruction :=
  mkInstr (mkDesc true false) false false (Some tok) gid.

Definition Store (tok gid : N) : Instruction :=
  mkInstr (mkDesc false true) false false (Some tok) gid.

Definition StoreBarrier (tok gid : N) : Instruction :=
  mkInstr (mkDesc false true) false true (Some tok) gid.

Definition LoadBarrier (tok gid : N) : Instruction :=
  mkInstr (mkDesc true false) true false (Some tok) gid.

(** Neither load nor store: not a memory operation. *)
Definition Alu : Instruction :=
  mkInstr (mkDesc false false) false false None 7.

Definition unit0 : LSUnit := LSUnit_new SM 4 4 false (Some registry).

Definition scenario5 : list Instruction :=
  [Load 0 1; Load 1 1; Store 2 2; Load 3 3].

(** The state after dispatching a list of instructions from [unit0]. *)
Definition state_after (IRs : list Instruction) : LSUnit :=
  (default (unit0, []) (dispatch_all IRs unit0)).1.

(** The state after a list of operations from [unit0]. *)
Definition state_after_run (evs : list Event) : LSUnit :=
  default unit0 (run evs unit0).

(** Scenario 6: dispatch the four instructions of scenario 5, then retire
    them in dispatch order. *)
Definition scenario6 : list Event :=
  (EvDispatch <$> scenario5) ++ (EvRetired <$> scenario5).

(** One load, dispatched, issued and executed: its group leaves the table. *)
Definition one_load_done : list Event :=
  [EvDispatch (Load 0 1); EvIssued (Load 0 1); EvExecuted (Load 0 1)].

End Scenario.

(** ** Further scenarios *)

Module Cases.

(** A unit whose load queue has one entry. *)
Definition small : LSUnit :=
  LSUnit_new Scenario.SM 1 4 false (Some Scenario.registry).

(** A unit without a metadata registry, constructed with
    [AssumeNoAlias = false]. *)
Definition plain : LSUnit := LSUnit_new Scenario.SM 4 4 false None.

(** The state after dispatching a list of instructions from [u]. *)
Definition after (u : LSUnit) (IRs : list Instruction) : LSUnit :=
  (default (u, []) (dispatch_all IRs u)).1.

(** The state after a list of operations from [u]. *)
Definition after_run (u : LSUnit) (evs : list Event) : LSUnit :=
  default u (run evs u).

(** An access that ends beyond the 64-bit address space. *)
Definition wrapping : MD.MDMemoryAccess :=
  MD.mkMA false (2 ^ 64 - 4) 8 None.

(** An access at [100, 110). *)
Definition base_access : MD.MDMemoryAccess := MD.mkMA false 100 10 None.

End Cases.

(** * Properties *)

(** ** The memory-access descriptor *)

Section MemoryAccess.

Import MD.

Lemma sub_accesses_append b a n ma :
  sub_accesses (append b a n ma) = sub_accesses ma ++ [mkSub b a n].
Proof. unfold append, sub_accesses. simpl. by destruct (BundledMAs ma). Qed.

Lemma start_append_le b a n ma :
  (getExtendedStartAddr (append b a n ma) <= getExtendedStartAddr ma)%Z ∧
  (getExtendedStartAddr (append b a n ma) <= a)%Z.
Proof.
  unfold append, getExtendedStartAddr. simpl.
  destruct (BundledMAs ma); simpl; case_match; lia.
Qed.

(** With no [append], the extended interval is the access itself. *)
Lemma extended_without_bundle ma :
  BundledMAs ma = None →
  getExtendedStartAddr ma = Addr ma ∧
  getExtendedEndAddr ma = wrap64 (Addr ma + Size ma).
Proof. unfold getExtendedStartAddr, getExtendedEndAddr. by intros ->. Qed.

(** The start of the extended interval is a lower bound of every
    sub-access, whatever the sequence of [append] calls. *)
Lemma start_le_sub_accesses calls : ∀ ma,
  (∀ x, x ∈ sub_accesses ma → (getExtendedStartAddr ma <= sub_Addr x)%Z) →
  ∀ x, x ∈ sub_accesses (append_all calls ma) →
       (getExtendedStartAddr (append_all calls ma) <= sub_Addr x)%Z.
Proof.
  unfold append_all.
  induction calls as [|c calls IH]; intros ma Hma x Hx; simpl in *.
  - by apply Hma.
  - eapply IH; [|exact Hx].
    intros y. rewrite sub_accesses_append. intros Hy.
    destruct (start_append_le (sub_IsStore c) (sub_Addr c) (sub_Size c) ma)
      as [Hle1 Hle2].
    apply elem_of_app in Hy as [Hy|Hy].
    + specialize (Hma y Hy). lia.
    + apply list_elem_of_singleton in Hy. subst y. simpl. lia.
Qed.

(** C8: lowering the start of the extended interval leaves its size
    untouched, so the end moves left: after appending [50, 55) to the
    access [100, 110) the extended interval is [50, 60), which no longer
    reaches the end of the original sub-access. *)
Theorem append_drops_original_end :
  let ma := append false 50 5 (mkMA false 100 10 None) in
  mkSub false 100 10 ∈ sub_accesses ma ∧
  getExtendedStartAddr ma = 50%Z ∧
  getExtendedEndAddr ma = 60%Z ∧
  (getExtendedEndAddr ma < 100 + 10)%Z.
Proof.
  simpl. split; [|by vm_compute].
  vm_compute. apply list_elem_of_here.
Qed.

End MemoryAccess.

(** ** Availability, alias policy, and the non-memory fast path *)

(** C7: [isAvailable] answers LQ-full when the instruction may load and the
    load queue is full; otherwise SQ-full when it is a store and the store
    queue is full; otherwise available.  The answer is a [Status] value for
    every instruction and state. *)
Theorem isAvailable_verdict (IR : Instruction) (st : LSUnit) :
  let lq_full := (LQSize st ≠ 0 ∧ UsedLQEntries st = LQSize st)%N in
  let sq_full := (SQSize st ≠ 0 ∧ UsedSQEntries st = SQSize st)%N in
  let load_stalls := MayLoad (getDesc IR) = true ∧ lq_full in
  let store_stalls := is_store st IR = true ∧ sq_full in
  (isAvailable IR st = LSU_LQUEUE_FULL ↔ load_stalls) ∧
  (isAvailable IR st = LSU_SQUEUE_FULL ↔ ¬ load_stalls ∧ store_stalls) ∧
  (isAvailable IR st = LSU_AVAILABLE ↔ ¬ load_stalls ∧ ¬ store_stalls).
Proof.
  unfold isAvailable, is_store, isLQFull, isSQFull. simpl.
  destruct (MayLoad (getDesc IR));
    destruct (isStore (getDesc IR) (getMemoryAccessMD st IR)); simpl;
    destruct (N.eqb_spec (LQSize st) 0);
    destruct (N.eqb_spec (UsedLQEntries st) (LQSize st));
    destruct (N.eqb_spec (SQSize st) 0);
    destruct (N.eqb_spec (UsedSQEntries st) (SQSize st)); simpl;
    intuition congruence.
Qed.

(** C9: on a live group, [noAlias] with a memory access is the negation of
    the group's alias test and does not depend on the construction flag;
    without a memory access it is the flag. *)
Theorem noAlias_spec (st : LSUnit) (gid : N) (G : MG.MemoryGroup) :
  Groups st !! gid = Some G →
  (∀ ma, noAlias st gid (Some ma) = Some (negb (MG.isMemAccessAlias G ma))) ∧
  noAlias st gid None = Some (NoAlias st) ∧
  (∀ ma flag,
     noAlias (set_NoAlias flag st) gid (Some ma) = noAlias st gid (Some ma)).
Proof.
  intros HG. unfold noAlias, getGroup, assumeNoAlias. simpl.
  rewrite HG. simpl. done.
Qed.

(** C10: for an instruction that is not a memory operation the policy-level
    [onInstructionExecuted] returns the state as it is, whatever the token
    stamped on the instruction; for a memory operation whose token is not in
    the table the assertion of the base class fails. *)
Theorem onInstructionExecuted_non_memop (IR : Instruction) (st : LSUnit) :
  (isMemOp IR = false → onInstructionExecuted IR st = Some st) ∧
  (isMemOp IR = true → Groups st !! getLSUTokenID IR = None →
   onInstructionExecuted IR st = None).
Proof.
  unfold onInstructionExecuted, LSUnitBase_onInstructionExecuted.
  split.
  - by intros ->.
  - intros -> Hnone. simpl. by rewrite Hnone.
Qed.

(** ** Effects of the table helpers *)

Section Helpers.

Implicit Types (st : LSUnit) (G : MG.MemoryGroup) (g k : N).

Lemma frame_refl st : frame st st.
Proof. by destruct st. Qed.

Lemma frame_trans st1 st2 st3 : frame st1 st2 → frame st2 st3 → frame st1 st3.
Proof. unfold frame. intros -> ->. done. Qed.

Lemma has_succ_ext st st' :
  Groups st' = Groups st → ∀ a b f, has_succ st' a b f ↔ has_succ st a b f.
Proof. unfold has_succ. by intros ->. Qed.

Lemma edge_preds_of st a b : edge st a b ↔ a ∈ preds_of st b.
Proof.
  unfold edge, has_succ, preds_of. rewrite list_elem_of_omap. split.
  - intros (f & G & HG & Hin). exists (a, G). split.
    + by apply elem_of_map_to_list.
    + simpl. case_match eqn:Hex; [done|].
      exfalso. apply not_true_iff_false in Hex. apply Hex.
      apply existsb_exists. exists (b, f). split; [by apply list_elem_of_In|].
      simpl. apply N.eqb_refl.
  - intros ([k G] & Hin & Hsome). simpl in Hsome.
    case_match eqn:Hex; [|done]. simplify_eq.
    apply elem_of_map_to_list in Hin.
    apply existsb_exists in Hex as ([h f] & Hin' & Heq). simpl in Heq.
    apply N.eqb_eq in Heq. subst h.
    exists f, G. split; [done|]. by apply list_elem_of_In.
Qed.

Lemma reachable_last st a b : reachable st a b → ∃ x, edge st x b.
Proof. induction 1; eauto. Qed.

Lemma reachable_mono st st' :
  (∀ a b f, has_succ st a b f → has_succ st' a b f) →
  ∀ a b, reachable st a b → reachable st' a b.
Proof.
  intros Hmono a b. induction 1 as [x y [f Hf]|x y z [f Hf] _ IH].
  - apply tc_once. exists f. auto.
  - eapply tc_l; [|exact IH]. exists f. auto.
Qed.

Lemma succ_addMemAccess MDA G :
  MG.Succ (MG.addMemAccess MDA G) = MG.Succ G.
Proof. by destruct MDA. Qed.

Lemma mem_addMemAccess MDA G :
  MG.MemAccesses (MG.addMemAccess MDA G) = MG.MemAccesses G ++ accesses_of MDA.
Proof. destruct MDA; simpl; [done|]. by rewrite app_nil_r. Qed.

Lemma ninstr_addMemAccess MDA G :
  MG.NumInstructions (MG.addMemAccess MDA G) = MG.NumInstructions G.
Proof. by destruct MDA. Qed.

(** *** [createMemoryGroup] *)

Lemma createMemoryGroup_effect st :
  let '(st1, g) := createMemoryGroup st in
  g = NextGroupID st ∧
  Groups st1 = <[g := MG.empty]> (Groups st) ∧
  st1 = set_NextGroupID (g + 1) (set_Groups (λ _, Groups st1) st).
Proof. by destruct st. Qed.

(** *** [addToGroup] *)

Lemma addToGroup_effect g MDA st st' :
  addToGroup g MDA st = Some st' →
  ∃ G, Groups st !! g = Some G ∧
       Groups st' = <[g := MG.addMemAccess MDA (MG.addInstruction G)]> (Groups st) ∧
       frame st st'.
Proof.
  unfold addToGroup, getGroup. intros H.
  destruct (Groups st !! g) as [G|] eqn:HG; simplify_eq/=.
  exists G. by destruct st.
Qed.

Lemma addToGroup_total g MDA st :
  live st g → is_Some (addToGroup g MDA st).
Proof. intros [G HG]. unfold addToGroup, getGroup. rewrite HG. by eexists. Qed.

Lemma addToGroup_live g MDA st st' :
  addToGroup g MDA st = Some st' → ∀ k, live st' k ↔ live st k.
Proof.
  intros (G & HG & Heq & _)%addToGroup_effect k. unfold live.
  rewrite Heq, lookup_insert_is_Some. split.
  - intros [<-|[_ H]]; [by eexists|done].
  - intros H. destruct (decide (g = k)); auto.
Qed.

Lemma addToGroup_has_succ g MDA st st' :
  addToGroup g MDA st = Some st' →
  ∀ a b f, has_succ st' a b f ↔ has_succ st a b f.
Proof.
  intros (G & HG & Heq & _)%addToGroup_effect a b f. unfold has_succ.
  rewrite Heq. destruct (decide (g = a)) as [->|Hne].
  - rewrite lookup_insert_eq, HG. split.
    + intros (G' & [= <-] & Hin). rewrite succ_addMemAccess in Hin. eauto.
    + intros (G' & [= <-] & Hin). eexists. split; [done|].
      by rewrite succ_addMemAccess.
  - by rewrite lookup_insert_ne.
Qed.

Lemma addToGroup_view_ne {A} (π : MG.MemoryGroup → A) g MDA st st' :
  addToGroup g MDA st = Some st' →
  ∀ k, k ≠ g → view π st' k = view π st k.
Proof.
  intros (G & HG & Heq & _)%addToGroup_effect k Hne. unfold view.
  by rewrite Heq, lookup_insert_ne.
Qed.

Lemma addToGroup_view_eq {A} (π : MG.MemoryGroup → A) g MDA st st' G :
  addToGroup g MDA st = Some st' → Groups st !! g = Some G →
  view π st' g = Some (π (MG.addMemAccess MDA (MG.addInstruction G))).
Proof.
  intros (G' & HG & Heq & _)%addToGroup_effect HG2. simplify_eq.
  unfold view. by rewrite Heq, lookup_insert_eq.
Qed.

(** *** [addSuccessor] *)

Lemma addSuccessor_effect src tgt fl st st' :
  addSuccessor src tgt fl st = Some st' →
  ∃ G, Groups st !! src = Some G ∧
       Groups st' = alter MG.addPredecessor tgt
                      (<[src := MG.pushSuccessor tgt fl G]> (Groups st)) ∧
       frame st st'.
Proof.
  unfold addSuccessor, getGroup. intros H.
  destruct (Groups st !! src) as [G|] eqn:HG; simplify_eq/=.
  exists G. by destruct st.
Qed.

Lemma addSuccessor_total src tgt fl st :
  live st src → is_Some (addSuccessor src tgt fl st).
Proof. intros [G HG]. unfold addSuccessor, getGroup. rewrite HG. by eexists. Qed.

Lemma addSuccessor_live src tgt fl st st' :
  addSuccessor src tgt fl st = Some st' → ∀ k, live st' k ↔ live st k.
Proof.
  intros (G & HG & Heq & _)%addSuccessor_effect k. unfold live.
  rewrite Heq, lookup_alter_is_Some, lookup_insert_is_Some. split.
  - intros [<-|[_ H]]; [by eexists|done].
  - intros H. destruct (decide (src = k)); auto.
Qed.

Lemma addSuccessor_view {A} (π : MG.MemoryGroup → A) src tgt fl st st' :
  (∀ G, π (MG.addPredecessor G) = π G) →
  (∀ G t f, π (MG.pushSuccessor t f G) = π G) →
  addSuccessor src tgt fl st = Some st' →
  ∀ k, view π st' k = view π st k.
Proof.
  intros H1 H2 (G & HG & Heq & _)%addSuccessor_effect k. unfold view.
  rewrite Heq, lookup_alter. case_decide as Htk.
  - subst k. rewrite lookup_insert. case_decide as Hst.
    + subst tgt. rewrite HG. simpl. by rewrite H1, H2.
    + destruct (Groups st !! tgt); simpl; [|done]. by rewrite H1.
  - rewrite lookup_insert. case_decide as Hst; [|done].
    subst k. rewrite HG. simpl. by rewrite H2.
Qed.

Lemma addSuccessor_has_succ src tgt fl st st' :
  addSuccessor src tgt fl st = Some st' →
  ∀ a b f, has_succ st' a b f ↔
           has_succ st a b f ∨ (a = src ∧ b = tgt ∧ f = fl).
Proof.
  intros Hadd a b f.
  assert (Hv : view MG.Succ st' a =
               if decide (a = src)
               then (λ l, l ++ [(tgt, fl)]) <$> view MG.Succ st a
               else view MG.Succ st a).
  { apply addSuccessor_effect in Hadd as (G & HG & Heq & _). unfold view.
    rewrite Heq, lookup_alter. case_decide as Hta.
    - subst a. rewrite lookup_insert. case_decide as Hst.
      + subst tgt. rewrite decide_True by done. by rewrite HG.
      + rewrite decide_False by done. by destruct (Groups st !! tgt).
    - rewrite lookup_insert. case_decide as Hsa.
      + subst a. rewrite decide_True by done. by rewrite HG.
      + by rewrite decide_False. }
  unfold has_succ, view in *. case_decide as Has.
  - subst a. destruct (Groups st !! src) as [G|] eqn:HG;
      destruct (Groups st' !! src) as [G'|] eqn:HG'; simplify_eq/=.
    + split.
      * intros (G0 & [= <-] & Hin). rewrite Hv in Hin.
        apply elem_of_app in Hin as [Hin|Hin]; [left; eauto|].
        apply list_elem_of_singleton in Hin. simplify_eq. by right.
      * intros [(G0 & [= <-] & Hin)|(_ & -> & ->)];
          (eexists; split; [done|]); rewrite Hv; apply elem_of_app;
          [by left|right; apply list_elem_of_here].
    + apply addSuccessor_effect in Hadd as (G & HG2 & _). congruence.
  - destruct (Groups st !! a) as [G|] eqn:HG;
      destruct (Groups st' !! a) as [G'|] eqn:HG'; simplify_eq/=.
    + split.
      * intros (G0 & [= <-] & Hin). left. exists G. by rewrite <- Hv.
      * intros [(G0 & [= <-] & Hin)|(? & _)]; [|done].
        exists G'. by rewrite Hv.
    + split; [intros (? & ? & _); done|].
      intros [(? & ? & _)|(? & _)]; done.
Qed.

End Helpers.

(** ** Wiring a freshly opened group *)

Section Wiring.

Implicit Types (st : LSUnit) (G : MG.MemoryGroup) (g k : N).

Lemma wiring_refl st tgt : wiring st st tgt (λ _ _, False).
Proof.
  split; [apply frame_refl|]. split; [done|]. split; [done|].
  intros a b f. tauto.
Qed.

Lemma wiring_add src tgt fl st st' :
  addSuccessor src tgt fl st = Some st' →
  wiring st st' tgt (λ a f, a = src ∧ f = fl).
Proof.
  intros Hadd. split; [|split; [|split]].
  - by apply addSuccessor_effect in Hadd as (G & _ & _ & ?).
  - by eapply addSuccessor_live.
  - intros A π [H1 H2]. by eapply addSuccessor_view.
  - intros a b f. rewrite (addSuccessor_has_succ _ _ _ _ _ Hadd). tauto.
Qed.

Lemma wiring_trans st1 st2 st3 tgt P Q :
  wiring st1 st2 tgt P → wiring st2 st3 tgt Q →
  wiring st1 st3 tgt (λ a f, P a f ∨ Q a f).
Proof.
  intros (F1 & L1 & V1 & S1) (F2 & L2 & V2 & S2). split; [|split; [|split]].
  - by eapply frame_trans.
  - intros k. by rewrite L2, L1.
  - intros A π Hπ k. by rewrite V2, V1.
  - intros a b f. rewrite S2, S1. tauto.
Qed.

Lemma wiring_iff st st' tgt P Q :
  (∀ a f, P a f ↔ Q a f) → wiring st st' tgt P → wiring st st' tgt Q.
Proof.
  intros HPQ (F & L & V & S). split; [done|]. split; [done|]. split; [done|].
  intros a b f. rewrite S, HPQ. done.
Qed.

Lemma noAlias_view st g MDA :
  noAlias st g MDA =
  match MDA with
  | Some ma => (λ l, negb (existsb (λ m, MD.aliases m ma) l)) <$> mem_of st g
  | None => Some (NoAlias st)
  end.
Proof.
  unfold noAlias, mem_of, getGroup, assumeNoAlias. destruct MDA; [|done].
  by destruct (Groups st !! g).
Qed.

Lemma noAlias_total st g MDA : live st g → is_Some (noAlias st g MDA).
Proof.
  intros [G HG]. unfold noAlias, getGroup. destruct MDA; [|by eexists].
  rewrite HG. by eexists.
Qed.

Lemma noAlias_frame st st' g MDA :
  frame st st' → mem_of st' g = mem_of st g →
  noAlias st' g MDA = noAlias st g MDA.
Proof.
  intros Hf Hm. rewrite !noAlias_view, Hm. destruct MDA; [done|].
  rewrite Hf. done.
Qed.

Lemma blind_MemAccesses : wiring_blind MG.MemAccesses.
Proof. by split. Qed.

Lemma blind_NumInstructions : wiring_blind MG.NumInstructions.
Proof. by split. Qed.

Lemma blind_isExecuting : wiring_blind MG.isExecuting.
Proof. by split. Qed.

(** *** The opened state *)

Lemma opened_live MDA st k :
  live (opened MDA st) k ↔ live st k ∨ k = NextGroupID st.
Proof.
  unfold live, opened. simpl. rewrite lookup_insert_is_Some.
  destruct (decide (NextGroupID st = k)) as [Heq|Hne].
  - split; intros _; [by right|by left].
  - split; [intros [?|[_ ?]]; [done|by left]|].
    intros [?|?]; [by right|by subst].
Qed.

Lemma opened_has_succ MDA st a b f :
  Groups st !! NextGroupID st = None →
  has_succ (opened MDA st) a b f ↔ has_succ st a b f.
Proof.
  intros Hfresh. unfold has_succ, opened. simpl.
  destruct (decide (NextGroupID st = a)) as [<-|Hne].
  - rewrite lookup_insert_eq, Hfresh. split.
    + intros (G & [= <-] & Hin). rewrite succ_addMemAccess in Hin.
      simpl in Hin. by apply elem_of_nil in Hin.
    + intros (G & ? & _). done.
  - by rewrite lookup_insert_ne.
Qed.

Lemma opened_view_ne {A} (π : MG.MemoryGroup → A) MDA st k :
  k ≠ NextGroupID st → view π (opened MDA st) k = view π st k.
Proof. intros Hne. unfold view, opened. simpl. by rewrite lookup_insert_ne. Qed.

Lemma opened_view_eq {A} (π : MG.MemoryGroup → A) MDA st :
  view π (opened MDA st) (NextGroupID st) =
  Some (π (MG.addMemAccess MDA (MG.addInstruction MG.empty))).
Proof. unfold view, opened. simpl. by rewrite lookup_insert_eq. Qed.

Lemma create_then_add MDA st :
  addToGroup (NextGroupID st) MDA
    (set_NextGroupID (NextGroupID st + 1)
       (set_Groups (insert (NextGroupID st) MG.empty) st)) =
  Some (opened MDA st).
Proof.
  unfold addToGroup, getGroup, opened. simpl.
  rewrite lookup_insert_eq. simpl. f_equal.
  unfold set_NextGroupID, set_Groups. simpl. by rewrite insert_insert_eq.
Qed.

(** *** Conditional wiring steps, in the three shapes of [dispatch] *)

Lemma wire_alias (c : bool) src tgt (ona : option bool) st :
  (c = true → live st src ∧ is_Some ona) →
  ∃ st', (if c then na ← ona; addSuccessor src tgt (negb na) st
          else Some st) = Some st' ∧
         wiring st st' tgt (λ a f, c = true ∧ a = src ∧ ona = Some (negb f)).
Proof.
  intros Hc. destruct c.
  - destruct Hc as [Hlive [na ->]]; [done|]. simpl.
    destruct (addSuccessor_total src tgt (negb na) st Hlive) as [st' Hadd].
    exists st'. split; [done|].
    eapply wiring_iff; [|by apply wiring_add]. simpl.
    intros a f. split.
    + intros [-> ->]. by rewrite negb_involutive.
    + intros (_ & -> & [= ->]). by rewrite negb_involutive.
  - exists st. split; [done|].
    eapply wiring_iff; [|apply wiring_refl]. simpl. intros a f.
    split; [done|]. by intros [? _].
Qed.

Lemma wire_struct (c : bool) src tgt st :
  (c = true → live st src) →
  ∃ st', (if c then addSuccessor src tgt true st else Some st) = Some st' ∧
         wiring st st' tgt (λ a f, c = true ∧ a = src ∧ f = true).
Proof.
  intros Hc. destruct c.
  - destruct (addSuccessor_total src tgt true st) as [st' Hadd]; [by auto|].
    exists st'. split; [done|].
    eapply wiring_iff; [|by apply wiring_add]. simpl. tauto.
  - exists st. split; [done|].
    eapply wiring_iff; [|apply wiring_refl]. simpl. intros a f.
    split; [done|]. by intros [? _].
Qed.

Lemma wire_load_after_store (c : bool) src tgt (ona : option bool) st :
  (c = true → live st src ∧ is_Some ona) →
  ∃ st', (if c then na ← ona;
                    if negb na then addSuccessor src tgt true st else Some st
          else Some st) = Some st' ∧
         wiring st st' tgt
           (λ a f, c = true ∧ a = src ∧ ona = Some false ∧ f = true).
Proof.
  intros Hc. destruct c.
  - destruct Hc as [Hlive [na ->]]; [done|]. simpl. destruct na; simpl.
    + exists st. split; [done|].
      eapply wiring_iff; [|apply wiring_refl]. simpl. intros a f.
      split; [done|]. by intros (_ & _ & ? & _).
    + destruct (addSuccessor_total src tgt true st Hlive) as [st' Hadd].
      exists st'. split; [done|].
      eapply wiring_iff; [|by apply wiring_add]. simpl. tauto.
  - exists st. split; [done|].
    eapply wiring_iff; [|apply wiring_refl]. simpl. intros a f.
    split; [done|]. by intros [? _].
Qed.

End Wiring.

(** ** The branches of [dispatch] *)

Section Branches.

Implicit Types (st : LSUnit) (IR : Instruction) (g k : N).

Lemma wf_fresh st : wf st → Groups st !! NextGroupID st = None.
Proof.
  intros (_ & Hk & _). destruct (Groups st !! NextGroupID st) eqn:E; [|done].
  destruct (Hk (NextGroupID st)) as [_ ?]; [by eexists|lia].
Qed.

Lemma wf_dom_live st :
  wf st →
  N.max (CurrentLoadGroupID st) (CurrentLoadBarrierGroupID st) ≠ 0%N →
  live st (N.max (CurrentLoadGroupID st) (CurrentLoadBarrierGroupID st)).
Proof.
  intros (_ & _ & (HL & _ & HB & _) & _) Hne.
  destruct (N.max_spec (CurrentLoadGroupID st) (CurrentLoadBarrierGroupID st))
    as [[_ Heq]|[_ Heq]]; rewrite Heq in *.
  - by destruct HB.
  - by destruct HL.
Qed.

Lemma live_opened MDA st k : live st k → live (opened MDA st) k.
Proof. intros. apply opened_live. by left. Qed.

Lemma dispatch_store_spec IR MDA st :
  wf st →
  let g := NextGroupID st in
  let dom := N.max (CurrentLoadGroupID st) (CurrentLoadBarrierGroupID st) in
  ∃ st5 added,
    dispatch_store IR MDA st = Some (store_pointers IR g st5, g) ∧
    wiring (opened MDA st) st5 g added ∧
    (∀ a f, added a f →
       a ≠ 0%N ∧ (a = dom ∨ a = CurrentStoreBarrierGroupID st ∨
                   a = CurrentStoreGroupID st)) ∧
    (dom ≠ 0%N → ∃ f, added dom f) ∧
    (CurrentStoreBarrierGroupID st ≠ 0%N →
     added (CurrentStoreBarrierGroupID st) true).
Proof.
  intros Hwf g dom.
  pose proof Hwf as (_ & _ & (HL & HS & HB & HSB) & _).
  unfold dispatch_store, createMemoryGroup. simpl.
  rewrite create_then_add. simpl. fold dom. fold g.
  set (st2 := opened MDA st).
  destruct (wire_alias (negb (dom =? 0)%N) dom g (noAlias st2 dom MDA) st2)
    as (st3 & -> & W3).
  { intros Hc%negb_true_iff%N.eqb_neq.
    assert (live st2 dom) by (by apply live_opened, wf_dom_live).
    split; [done|]. by apply noAlias_total. }
  simpl.
  destruct (wire_struct (negb (CurrentStoreBarrierGroupID st =? 0)%N)
              (CurrentStoreBarrierGroupID st) g st3) as (st4 & -> & W4).
  { intros Hc%negb_true_iff%N.eqb_neq. apply W3, live_opened.
    by destruct HSB. }
  simpl.
  destruct (wire_alias
              (negb (CurrentStoreGroupID st =? 0)%N &&
               negb (CurrentStoreGroupID st =? CurrentStoreBarrierGroupID st)%N)
              (CurrentStoreGroupID st) g
              (noAlias st4 (CurrentStoreGroupID st) MDA) st4)
    as (st5 & -> & W5).
  { intros [Hc%negb_true_iff%N.eqb_neq _]%andb_true_iff.
    assert (live st4 (CurrentStoreGroupID st)).
    { apply W4, W3, live_opened. by destruct HS. }
    split; [done|]. by apply noAlias_total. }
  simpl. eexists st5, _. split; [done|]. split.
  { exact (wiring_trans _ _ _ _ _ _ (wiring_trans _ _ _ _ _ _ W3 W4) W5). }
  simpl. split; [|split].
  - intros a f [[(Hc & -> & _)|(Hc & -> & _)]|(Hc & -> & _)].
    + apply negb_true_iff, N.eqb_neq in Hc. auto.
    + apply negb_true_iff, N.eqb_neq in Hc. auto.
    + apply andb_true_iff in Hc as [Hc%negb_true_iff%N.eqb_neq _]. auto.
  - intros Hne. destruct (noAlias_total st2 dom MDA) as [na Hna].
    { by apply live_opened, wf_dom_live. }
    exists (negb na). left. left. rewrite negb_involutive.
    split; [|done]. by apply negb_true_iff, N.eqb_neq.
  - intros Hne. left. right. split; [|done].
    by apply negb_true_iff, N.eqb_neq.
Qed.

Lemma dispatch_new_load_spec IR MDA st :
  wf st →
  let g := NextGroupID st in
  let dom := N.max (CurrentLoadGroupID st) (CurrentLoadBarrierGroupID st) in
  let lb := if isALoadBarrier IR then dom else CurrentLoadBarrierGroupID st in
  ∃ st4,
    dispatch_new_load IR MDA st = Some (load_pointers IR g st4, g) ∧
    wiring (opened MDA st) st4 g
      (λ a f, f = true ∧
              ((CurrentStoreGroupID st ≠ 0%N ∧ a = CurrentStoreGroupID st ∧
                noAlias st (CurrentStoreGroupID st) MDA = Some false) ∨
               (lb ≠ 0%N ∧ a = lb))).
Proof.
  intros Hwf g dom lb.
  pose proof Hwf as (_ & Hk & (HL & HS & HB & HSB) & _).
  unfold dispatch_new_load, createMemoryGroup. simpl.
  rewrite create_then_add. simpl. fold dom. fold g.
  set (st2 := opened MDA st).
  destruct (wire_load_after_store (negb (CurrentStoreGroupID st =? 0)%N)
              (CurrentStoreGroupID st) g
              (noAlias st2 (CurrentStoreGroupID st) MDA) st2)
    as (st3 & -> & W3).
  { intros Hc%negb_true_iff%N.eqb_neq.
    assert (live st2 (CurrentStoreGroupID st)).
    { apply live_opened. by destruct HS. }
    split; [done|]. by apply noAlias_total. }
  simpl.
  assert (Hlb : lb ≠ 0%N → live st3 lb).
  { intros Hne. apply W3, live_opened. unfold lb in *.
    destruct (isALoadBarrier IR); [by apply wf_dom_live|by destruct HB]. }
  assert (∃ st4,
    (if isALoadBarrier IR
     then if negb (dom =? 0)%N then addSuccessor dom g true st3 else Some st3
     else if negb (CurrentLoadBarrierGroupID st =? 0)%N
          then addSuccessor (CurrentLoadBarrierGroupID st) g true st3
          else Some st3) = Some st4 ∧
    wiring st3 st4 g (λ a f, lb ≠ 0%N ∧ a = lb ∧ f = true))
    as (st4 & -> & W4).
  { destruct (wire_struct (negb (lb =? 0)%N) lb g st3) as (st4 & E & W4).
    { by intros Hc%negb_true_iff%N.eqb_neq; auto. }
    exists st4. split.
    - unfold lb in E. by destruct (isALoadBarrier IR).
    - eapply wiring_iff; [|exact W4]. simpl. intros a f.
      rewrite negb_true_iff, N.eqb_neq. done. }
  simpl. exists st4. split; [done|].
  eapply wiring_iff; [|exact (wiring_trans _ _ _ _ _ _ W3 W4)]. simpl.
  intros a f.
  assert (Hna : CurrentStoreGroupID st ≠ 0%N →
                noAlias st2 (CurrentStoreGroupID st) MDA =
                noAlias st (CurrentStoreGroupID st) MDA).
  { intros Hne. rewrite !noAlias_view. unfold mem_of.
    fold (view MG.MemAccesses st2 (CurrentStoreGroupID st)).
    unfold st2. rewrite opened_view_ne; [done|].
    destruct HS as [?|HS]; [done|]. apply Hk in HS. fold g. lia. }
  rewrite negb_true_iff, N.eqb_neq. split.
  - intros [(Hne & -> & Hn & ->)|(Hne & -> & ->)]; (split; [done|]).
    + left. by rewrite <- Hna.
    + by right.
  - intros [-> [(Hne & -> & Hn)|(Hne & ->)]].
    + left. by rewrite Hna.
    + by right.
Qed.

End Branches.

(** ** [dispatch] as a whole *)

Section Dispatch.

Implicit Types (st : LSUnit) (IR : Instruction) (g k : N).

Lemma frame_fields st st' :
  frame st st' →
  LQSize st' = LQSize st ∧ SQSize st' = SQSize st ∧
  UsedLQEntries st' = UsedLQEntries st ∧ UsedSQEntries st' = UsedSQEntries st ∧
  NoAlias st' = NoAlias st ∧ NextGroupID st' = NextGroupID st ∧
  MDRegistry st' = MDRegistry st ∧
  CurrentLoadGroupID st' = CurrentLoadGroupID st ∧
  CurrentStoreGroupID st' = CurrentStoreGroupID st ∧
  CurrentLoadBarrierGroupID st' = CurrentLoadBarrierGroupID st ∧
  CurrentStoreBarrierGroupID st' = CurrentStoreBarrierGroupID st.
Proof. intros ->. done. Qed.

Lemma acquire_slots_frame IR st :
  Groups (acquire_slots IR st) = Groups st ∧
  NextGroupID (acquire_slots IR st) = NextGroupID st ∧
  MDRegistry (acquire_slots IR st) = MDRegistry st ∧
  NoAlias (acquire_slots IR st) = NoAlias st ∧
  LQSize (acquire_slots IR st) = LQSize st ∧
  SQSize (acquire_slots IR st) = SQSize st ∧
  CurrentLoadGroupID (acquire_slots IR st) = CurrentLoadGroupID st ∧
  CurrentStoreGroupID (acquire_slots IR st) = CurrentStoreGroupID st ∧
  CurrentLoadBarrierGroupID (acquire_slots IR st) = CurrentLoadBarrierGroupID st ∧
  CurrentStoreBarrierGroupID (acquire_slots IR st) = CurrentStoreBarrierGroupID st.
Proof.
  unfold acquire_slots.
  by destruct (MayLoad _), (isStore _ _).
Qed.

Lemma acquire_slots_counters IR st :
  UsedLQEntries (acquire_slots IR st) =
    (UsedLQEntries st + if MayLoad (getDesc IR) then 1 else 0)%N ∧
  UsedSQEntries (acquire_slots IR st) =
    (UsedSQEntries st + if is_store st IR then 1 else 0)%N.
Proof.
  unfold acquire_slots, is_store.
  destruct (MayLoad _), (isStore _ _); simpl; lia.
Qed.

Lemma wf_acquire_slots IR st : wf st → wf (acquire_slots IR st).
Proof.
  unfold wf, pointers_live, ptr_ok, live, edge, has_succ.
  destruct (acquire_slots_frame IR st)
    as (-> & -> & _ & _ & _ & _ & -> & -> & -> & ->). done.
Qed.

Lemma new_group_condition_acquire IR IR' st :
  new_group_condition IR (acquire_slots IR' st) ↔ new_group_condition IR st.
Proof.
  unfold new_group_condition.
  destruct (acquire_slots_frame IR' st)
    as (-> & _ & _ & _ & _ & _ & -> & -> & -> & _). done.
Qed.

Local Ltac yes_new_group :=
  exists true; split; [done|]; split; [intros _; auto 10|done].

Lemma ShouldCreateANewGroup_spec IR st :
  wf st →
  ∃ b, ShouldCreateANewGroup IR st = Some b ∧
       (b = true ↔ new_group_condition IR st).
Proof.
  intros Hwf. unfold ShouldCreateANewGroup, new_group_condition.
  set (dom := N.max (CurrentLoadGroupID st) (CurrentLoadBarrierGroupID st)).
  destruct (isALoadBarrier IR); simpl; [yes_new_group|].
  destruct (N.eqb_spec dom 0) as [E0|E0]; simpl; [yes_new_group|].
  destruct (N.eqb_spec (CurrentLoadBarrierGroupID st) dom) as [E1|E1]; simpl;
    [yes_new_group|].
  destruct (N.leb_spec dom (CurrentStoreGroupID st)) as [E2|E2]; simpl;
    [yes_new_group|].
  destruct (wf_dom_live st Hwf E0) as [G HG]. fold dom in HG.
  unfold getGroup. rewrite HG. simpl. exists (MG.isExecuting G).
  split; [done|]. split.
  - intros HE. do 4 right. eauto.
  - intros [?|[?|[?|[?|(G' & HG' & HE)]]]]; try done; try lia. congruence.
Qed.

Lemma join_pointer st :
  CurrentLoadBarrierGroupID st ≠
    N.max (CurrentLoadGroupID st) (CurrentLoadBarrierGroupID st) →
  N.max (CurrentLoadGroupID st) (CurrentLoadBarrierGroupID st) =
    CurrentLoadGroupID st.
Proof. lia. Qed.

(** The three ways [dispatch] ends, each with its resulting state. *)
Lemma dispatch_cases IR st :
  wf st → isMemOp IR = true →
  let MDA := getMemoryAccessMD st IR in
  let st0 := acquire_slots IR st in
  let g := NextGroupID st in
  let dom := N.max (CurrentLoadGroupID st) (CurrentLoadBarrierGroupID st) in
  let lb := if isALoadBarrier IR then dom else CurrentLoadBarrierGroupID st in
  (is_store st IR = true ∧
   ∃ st5 added,
     dispatch IR st = Some (store_pointers IR g st5, g) ∧
     wiring (opened MDA st0) st5 g added ∧
     (∀ a f, added a f →
        a ≠ 0%N ∧ (a = dom ∨ a = CurrentStoreBarrierGroupID st ∨
                    a = CurrentStoreGroupID st)) ∧
     (dom ≠ 0%N → ∃ f, added dom f) ∧
     (CurrentStoreBarrierGroupID st ≠ 0%N →
      added (CurrentStoreBarrierGroupID st) true)) ∨
  (pure_load st IR ∧ new_group_condition IR st ∧
   ∃ st4,
     dispatch IR st = Some (load_pointers IR g st4, g) ∧
     wiring (opened MDA st0) st4 g
       (λ a f, f = true ∧
               ((CurrentStoreGroupID st ≠ 0%N ∧ a = CurrentStoreGroupID st ∧
                 noAlias st (CurrentStoreGroupID st) MDA = Some false) ∨
                (lb ≠ 0%N ∧ a = lb)))) ∨
  (pure_load st IR ∧ ¬ new_group_condition IR st ∧
   ∃ G, Groups st !! CurrentLoadGroupID st = Some G ∧
        dispatch IR st =
          Some (set_Groups
                  (insert (CurrentLoadGroupID st)
                          (MG.addMemAccess MDA (MG.addInstruction G))) st0,
                CurrentLoadGroupID st)).
Proof.
  intros Hwf Hmem MDA st0 g dom lb.
  pose proof (wf_acquire_slots IR st Hwf) as Hwf0. fold st0 in Hwf0.
  destruct (acquire_slots_frame IR st)
    as (HG & HN & HR & HNA & _ & _ & HCL & HCS & HCLB & HCSB).
  fold st0 in HG, HN, HR, HNA, HCL, HCS, HCLB, HCSB.
  unfold dispatch. unfold isMemOp in Hmem. rewrite Hmem. simpl.
  fold MDA. fold st0.
  destruct (isStore (getDesc IR) MDA) eqn:Hst.
  - left. split; [done|].
    destruct (dispatch_store_spec IR MDA st0 Hwf0)
      as (st5 & added & E & W & H1 & H2 & H3).
    rewrite HN, HCL, HCLB, HCS, HCSB in *.
    exists st5, added. done.
  - right.
    assert (Hload : MayLoad (getDesc IR) = true).
    { unfold isStore in Hst. apply orb_false_iff in Hst as [Hs _].
      rewrite Hs, orb_false_r in Hmem. done. }
    assert (Hpure : pure_load st IR) by done.
    unfold dispatch_load. rewrite Hload. simpl.
    destruct (ShouldCreateANewGroup_spec IR st0 Hwf0) as (b & -> & Hb).
    simpl. unfold st0 in Hb. rewrite new_group_condition_acquire in Hb.
    destruct b.
    + left. split; [done|]. split; [by apply Hb|].
      destruct (dispatch_new_load_spec IR MDA st0 Hwf0) as (st4 & E & W).
      rewrite HN, HCL, HCLB, HCS in *.
      assert (HnaEq : noAlias st0 (CurrentStoreGroupID st) MDA =
                      noAlias st (CurrentStoreGroupID st) MDA).
      { unfold noAlias, getGroup, assumeNoAlias. by rewrite HG, HNA. }
      rewrite HnaEq in W. exists st4. done.
    + right. split; [done|].
      assert (Hn : ¬ new_group_condition IR st).
      { intros Hc. apply Hb in Hc. done. }
      split; [done|].
      assert (Hlive : live st (CurrentLoadGroupID st)).
      { unfold new_group_condition in Hn.
        rewrite <- (join_pointer st) by tauto.
        apply wf_dom_live; [done|]. tauto. }
      destruct Hlive as [G HGl]. exists G. split; [done|].
      unfold addToGroup, getGroup. rewrite HCL, HG, HGl. done.
Qed.

Lemma store_pointers_fields IR g st :
  let st' := store_pointers IR g st in
  (Groups st' = Groups st ∧ NextGroupID st' = NextGroupID st ∧
   LQSize st' = LQSize st ∧ SQSize st' = SQSize st ∧
   NoAlias st' = NoAlias st ∧ MDRegistry st' = MDRegistry st ∧
   UsedLQEntries st' = UsedLQEntries st ∧
   UsedSQEntries st' = UsedSQEntries st) ∧
  CurrentStoreGroupID st' = g ∧
  CurrentStoreBarrierGroupID st' =
    (if isAStoreBarrier IR then g else CurrentStoreBarrierGroupID st) ∧
  CurrentLoadGroupID st' =
    (if MayLoad (getDesc IR) then g else CurrentLoadGroupID st) ∧
  CurrentLoadBarrierGroupID st' =
    (if MayLoad (getDesc IR) && isALoadBarrier IR then g
     else CurrentLoadBarrierGroupID st).
Proof.
  unfold store_pointers.
  destruct (isAStoreBarrier IR), (MayLoad (getDesc IR)),
    (isALoadBarrier IR); done.
Qed.

Lemma load_pointers_fields IR g st :
  let st' := load_pointers IR g st in
  (Groups st' = Groups st ∧ NextGroupID st' = NextGroupID st ∧
   LQSize st' = LQSize st ∧ SQSize st' = SQSize st ∧
   NoAlias st' = NoAlias st ∧ MDRegistry st' = MDRegistry st ∧
   UsedLQEntries st' = UsedLQEntries st ∧
   UsedSQEntries st' = UsedSQEntries st) ∧
  CurrentStoreGroupID st' = CurrentStoreGroupID st ∧
  CurrentStoreBarrierGroupID st' = CurrentStoreBarrierGroupID st ∧
  CurrentLoadGroupID st' = g ∧
  CurrentLoadBarrierGroupID st' =
    (if isALoadBarrier IR then g else CurrentLoadBarrierGroupID st).
Proof. unfold load_pointers. destruct (isALoadBarrier IR); done. Qed.

Lemma opens_group_of_wiring IR MDA st stw st' added :
  wf st →
  wiring (opened MDA (acquire_slots IR st)) stw (NextGroupID st) added →
  Groups st' = Groups stw → NextGroupID st' = NextGroupID stw →
  opens_group st st' (NextGroupID st) MDA added.
Proof.
  intros Hwf (F & L & V & S) HG HN.
  destruct (acquire_slots_frame IR st) as (HG0 & HN0 & _).
  apply frame_fields in F as (_ & _ & _ & _ & _ & HNw & _).
  assert (Hfresh : Groups (acquire_slots IR st) !!
                   NextGroupID (acquire_slots IR st) = None).
  { rewrite HG0, HN0. by apply wf_fresh. }
  split; [done|]. split.
  { rewrite HN, HNw. simpl. by rewrite HN0. }
  split; [|split; [|split]].
  - intros k. unfold live at 1. rewrite HG. fold (live stw k).
    rewrite L, opened_live, HN0. unfold live. by rewrite HG0.
  - intros a b f. rewrite (has_succ_ext stw st' HG), S.
    rewrite (opened_has_succ _ _ _ _ _ Hfresh).
    by rewrite (has_succ_ext st (acquire_slots IR st) HG0).
  - intros A π Hπ k Hne. unfold view at 1. rewrite HG. fold (view π stw k).
    rewrite (V _ π Hπ), opened_view_ne by (by rewrite HN0).
    unfold view. by rewrite HG0.
  - intros A π Hπ. unfold view at 1. rewrite HG.
    fold (view π stw (NextGroupID st)). rewrite (V _ π Hπ).
    rewrite <- HN0. apply opened_view_eq.
Qed.

Lemma dispatch_frame_of IR MDA st stw st' :
  frame (opened MDA (acquire_slots IR st)) stw →
  LQSize st' = LQSize stw ∧ SQSize st' = SQSize stw ∧
  NoAlias st' = NoAlias stw ∧ MDRegistry st' = MDRegistry stw ∧
  UsedLQEntries st' = UsedLQEntries stw ∧
  UsedSQEntries st' = UsedSQEntries stw →
  dispatch_frame IR st st'.
Proof.
  intros (E1 & E2 & E3 & E4 & E5 & _ & E7 & _)%frame_fields
         (P1 & P2 & P3 & P4 & P5 & P6).
  destruct (acquire_slots_frame IR st) as (_ & _ & HR & HNA & HLQ & HSQ & _).
  destruct (acquire_slots_counters IR st) as [HUL HUS].
  unfold dispatch_frame. rewrite P1, P2, P3, P4, P5, P6.
  rewrite E1, E2, E3, E4, E5, E7. simpl.
  rewrite HR, HNA, HLQ, HSQ, HUL, HUS. done.
Qed.

(** What [dispatch] returns on a well-formed state, by cases. *)
Lemma dispatch_outcome IR st :
  wf st → isMemOp IR = true →
  let MDA := getMemoryAccessMD st IR in
  let dom := N.max (CurrentLoadGroupID st) (CurrentLoadBarrierGroupID st) in
  let lb := if isALoadBarrier IR then dom else CurrentLoadBarrierGroupID st in
  ∃ st' g,
    dispatch IR st = Some (st', g) ∧ dispatch_frame IR st st' ∧
    ((is_store st IR = true ∧
      (∃ added,
         opens_group st st' g MDA added ∧
         (∀ a f, added a f →
            a ≠ 0%N ∧ (a = dom ∨ a = CurrentStoreBarrierGroupID st ∨
                        a = CurrentStoreGroupID st)) ∧
         (dom ≠ 0%N → ∃ f, added dom f) ∧
         (CurrentStoreBarrierGroupID st ≠ 0%N →
          added (CurrentStoreBarrierGroupID st) true)) ∧
      CurrentStoreGroupID st' = g ∧
      CurrentStoreBarrierGroupID st' =
        (if isAStoreBarrier IR then g else CurrentStoreBarrierGroupID st) ∧
      CurrentLoadGroupID st' =
        (if MayLoad (getDesc IR) then g else CurrentLoadGroupID st) ∧
      CurrentLoadBarrierGroupID st' =
        (if MayLoad (getDesc IR) && isALoadBarrier IR then g
         else CurrentLoadBarrierGroupID st)) ∨
     (pure_load st IR ∧ new_group_condition IR st ∧
      opens_group st st' g MDA
        (λ a f, f = true ∧
                ((CurrentStoreGroupID st ≠ 0%N ∧ a = CurrentStoreGroupID st ∧
                  noAlias st (CurrentStoreGroupID st) MDA = Some false) ∨
                 (lb ≠ 0%N ∧ a = lb))) ∧
      CurrentStoreGroupID st' = CurrentStoreGroupID st ∧
      CurrentStoreBarrierGroupID st' = CurrentStoreBarrierGroupID st ∧
      CurrentLoadGroupID st' = g ∧
      CurrentLoadBarrierGroupID st' =
        (if isALoadBarrier IR then g else CurrentLoadBarrierGroupID st)) ∨
     (pure_load st IR ∧ ¬ new_group_condition IR st ∧
      g = CurrentLoadGroupID st ∧ NextGroupID st' = NextGroupID st ∧
      (∃ G, Groups st !! g = Some G ∧
            Groups st' =
              <[g := MG.addMemAccess MDA (MG.addInstruction G)]> (Groups st)) ∧
      CurrentStoreGroupID st' = CurrentStoreGroupID st ∧
      CurrentStoreBarrierGroupID st' = CurrentStoreBarrierGroupID st ∧
      CurrentLoadGroupID st' = CurrentLoadGroupID st ∧
      CurrentLoadBarrierGroupID st' = CurrentLoadBarrierGroupID st)).
Proof.
  intros Hwf Hmem MDA dom lb.
  destruct (acquire_slots_frame IR st)
    as (HG0 & HN0 & HR0 & HNA0 & HLQ0 & HSQ0 & HCL0 & HCS0 & HCLB0 & HCSB0).
  destruct (dispatch_cases IR st Hwf Hmem)
    as [(Hst & st5 & added & E & W & H1 & H2 & H3)
       |[(Hp & Hc & st4 & E & W)
        |(Hp & Hc & G & HG & E)]].
  - destruct (store_pointers_fields IR (NextGroupID st) st5)
      as ((PG & PN & PF) & PCS & PCSB & PCL & PCLB).
    pose proof W as (F & _).
    pose proof (frame_fields _ _ F)
      as (_ & _ & _ & _ & _ & _ & _ & FCL & FCS & FCLB & FCSB).
    simpl in FCL, FCS, FCLB, FCSB.
    eexists _, _. split; [exact E|]. split.
    { eapply dispatch_frame_of; [exact F|exact PF]. }
    left. split; [done|]. split.
    { exists added. split; [|done].
      eapply opens_group_of_wiring; [done|exact W|done|done]. }
    rewrite PCS, PCSB, PCL, PCLB, ?FCL, ?FCS, ?FCLB, ?FCSB.
    rewrite ?HCL0, ?HCS0, ?HCLB0, ?HCSB0. done.
  - destruct (load_pointers_fields IR (NextGroupID st) st4)
      as ((PG & PN & PF) & PCS & PCSB & PCL & PCLB).
    pose proof W as (F & _).
    pose proof (frame_fields _ _ F)
      as (_ & _ & _ & _ & _ & _ & _ & FCL & FCS & FCLB & FCSB).
    simpl in FCL, FCS, FCLB, FCSB.
    eexists _, _. split; [exact E|]. split.
    { eapply dispatch_frame_of; [exact F|exact PF]. }
    right. left. split; [done|]. split; [done|]. split.
    { eapply opens_group_of_wiring; [done|exact W|done|done]. }
    rewrite PCS, PCSB, PCL, PCLB, ?FCL, ?FCS, ?FCLB, ?FCSB.
    rewrite ?HCL0, ?HCS0, ?HCLB0, ?HCSB0. done.
  - eexists _, _. split; [exact E|]. split.
    { unfold dispatch_frame. simpl.
      destruct (acquire_slots_counters IR st) as [-> ->].
      rewrite HLQ0, HSQ0, HNA0, HR0. done. }
    right. right. simpl. rewrite HN0, HG0, HCL0, HCS0, HCLB0, HCSB0.
    split; [done|]. split; [done|]. split; [done|]. split; [done|].
    split; [|done]. exists G. done.
Qed.

Lemma dispatch_Some_memop IR st r :
  dispatch IR st = Some r → isMemOp IR = true.
Proof.
  unfold dispatch, isMemOp.
  destruct (MayLoad (getDesc IR) || MayStore (getDesc IR)); done.
Qed.

(** Extending the group [g] in place. *)
Lemma extend_effect MDA st st' g G :
  Groups st !! g = Some G →
  Groups st' = <[g := MG.addMemAccess MDA (MG.addInstruction G)]> (Groups st) →
  (∀ k, live st' k ↔ live st k) ∧
  (∀ a b f, has_succ st' a b f ↔ has_succ st a b f) ∧
  (∀ A (π : MG.MemoryGroup → A) k, k ≠ g → view π st' k = view π st k).
Proof.
  intros HG Heq.
  destruct (addToGroup_total g MDA st) as [st2 H2]; [by eexists|].
  pose proof (addToGroup_effect _ _ _ _ H2) as (G' & HG' & Heq2 & _).
  simplify_eq. rewrite <- Heq2 in Heq.
  split; [|split].
  - intros k. rewrite <- (addToGroup_live _ _ _ _ H2). unfold live.
    by rewrite Heq.
  - intros a b f. rewrite <- (addToGroup_has_succ _ _ _ _ H2).
    by apply has_succ_ext.
  - intros A π k Hne. rewrite <- (addToGroup_view_ne π _ _ _ _ H2 k Hne).
    unfold view. by rewrite Heq.
Qed.

Lemma opens_group_wf st st' g MDA added :
  wf st → opens_group st st' g MDA added →
  (∀ p, p = CurrentLoadGroupID st' ∨ p = CurrentStoreGroupID st' ∨
        p = CurrentLoadBarrierGroupID st' ∨ p = CurrentStoreBarrierGroupID st' →
        p = g ∨ p = CurrentLoadGroupID st ∨ p = CurrentStoreGroupID st ∨
        p = CurrentLoadBarrierGroupID st ∨ p = CurrentStoreBarrierGroupID st) →
  wf st'.
Proof.
  intros (H0 & Hk & (HL & HS & HB & HSB) & He) (-> & HN & L & S & _) Hp.
  assert (Hok : ∀ p, p = CurrentLoadGroupID st' ∨ p = CurrentStoreGroupID st' ∨
                     p = CurrentLoadBarrierGroupID st' ∨
                     p = CurrentStoreBarrierGroupID st' → ptr_ok st' p).
  { intros p Hin. unfold ptr_ok. rewrite L.
    destruct (Hp p Hin) as [->|[->|[->|[->| ->]]]]; unfold ptr_ok in *;
      tauto. }
  split; [lia|]. split; [|split].
  - intros k [Hl| ->]%L; [apply Hk in Hl|]; lia.
  - repeat split; apply Hok; auto.
  - intros a b [f [Hold|[-> _]]%S]; [|lia].
    assert (b < NextGroupID st)%N by (apply (He a); by exists f). lia.
Qed.

(** [dispatch] keeps the state well formed and only adds to the table. *)
Lemma dispatch_grows IR st st' g :
  wf st → dispatch IR st = Some (st', g) →
  wf st' ∧ live st' g ∧ (g < NextGroupID st')%N ∧
  (NextGroupID st <= NextGroupID st')%N ∧
  (∀ k, live st k → live st' k) ∧
  (∀ a b f, has_succ st a b f → has_succ st' a b f) ∧
  dispatch_frame IR st st'.
Proof.
  intros Hwf E.
  pose proof (dispatch_Some_memop _ _ _ E) as Hmem.
  destruct (dispatch_outcome IR st Hwf Hmem) as (st2 & g2 & E2 & HF & Hcases).
  rewrite E in E2. simplify_eq.
  assert (Hgen : ∀ added,
    opens_group st st2 g2 (getMemoryAccessMD st IR) added →
    wf st2 →
    wf st2 ∧ live st2 g2 ∧ (g2 < NextGroupID st2)%N ∧
    (NextGroupID st <= NextGroupID st2)%N ∧
    (∀ k, live st k → live st2 k) ∧
    (∀ a b f, has_succ st a b f → has_succ st2 a b f) ∧
    dispatch_frame IR st st2).
  { intros added (-> & HN & L & S & _) Hwf2.
    split; [done|]. split; [apply L; by right|]. split; [lia|].
    split; [lia|]. split; [intros k ?; apply L; by left|].
    split; [intros a b f ?; apply S; by left|done]. }
  destruct Hcases
    as [(Hst & (added & Ho & _) & PCS & PCSB & PCL & PCLB)
       |[(Hp & Hc & Ho & PCS & PCSB & PCL & PCLB)
        |(Hp & Hc & -> & HN & (G & HG & Heq) & PCS & PCSB & PCL & PCLB)]].
  - apply (Hgen added Ho). eapply opens_group_wf; [done|exact Ho|].
    rewrite PCS, PCSB, PCL, PCLB. intros p.
    destruct (isAStoreBarrier IR), (MayLoad (getDesc IR)),
      (isALoadBarrier IR); simpl; tauto.
  - apply (Hgen _ Ho). eapply opens_group_wf; [done|exact Ho|].
    rewrite PCS, PCSB, PCL, PCLB. intros p.
    destruct (isALoadBarrier IR); simpl; tauto.
  - destruct (extend_effect _ _ _ _ _ HG Heq) as (L & S & _).
    pose proof Hwf as (H0 & Hk & (HL & HS & HB & HSB) & He).
    assert (Hlive : live st (CurrentLoadGroupID st)) by (by eexists).
    split; [|split; [by apply L|split; [rewrite HN; by apply Hk|]]].
    + split; [lia|]. split; [|split].
      * intros k Hl%L. rewrite HN. by apply Hk.
      * unfold pointers_live, ptr_ok. rewrite PCS, PCSB, PCL, PCLB, !L. done.
      * intros a b [f Hf%S]. rewrite HN. apply (He a). by exists f.
    + split; [lia|]. split; [intros k ?; by apply L|].
      split; [intros a b f ?; by apply S|done].
Qed.

Lemma dispatch_total IR st :
  wf st → isMemOp IR = true → is_Some (dispatch IR st).
Proof.
  intros Hwf Hmem.
  destruct (dispatch_outcome IR st Hwf Hmem) as (st' & g & E & _).
  by eexists.
Qed.

End Dispatch.

(** ** The other operations *)

Section OtherEvents.

Implicit Types (st : LSUnit) (IR : Instruction) (g k : N).

Lemma propagate_lookup {A} (π : MG.MemoryGroup → A)
    (l : list (N * bool)) :
  (∀ G, π (MG.onGroupExecuted G) = π G) →
  ∀ (m : gmap N MG.MemoryGroup) k,
    π <$> (fold_left (λ m e, alter MG.onGroupExecuted e.1 m) l m) !! k =
    π <$> m !! k.
Proof.
  intros Hπ. induction l as [|e l IH]; intros m k; simpl; [done|].
  rewrite IH, lookup_alter. case_decide as Hk; [rewrite Hk|done].
  destruct (m !! k); simpl; [|done]. by rewrite Hπ.
Qed.

Lemma MG_onInstructionExecuted_lookup {A} (π : MG.MemoryGroup → A) gid
    (m : gmap N MG.MemoryGroup) k :
  exec_blind π →
  π <$> MG.onInstructionExecuted gid m !! k = π <$> m !! k.
Proof.
  intros [H1 H2]. unfold MG.onInstructionExecuted.
  destruct (m !! gid) as [G|] eqn:HG; [|done].
  assert (Hins : π <$> <[gid := MG.countExecuted G]> m !! k = π <$> m !! k).
  { rewrite lookup_insert. case_decide; [subst|done].
    rewrite HG. simpl. by rewrite H1. }
  destruct (MG.isExecuted (MG.countExecuted G)); [|done].
  by rewrite propagate_lookup.
Qed.

Lemma blind_Succ_exec : exec_blind MG.Succ.
Proof. by split. Qed.

Lemma lookup_is_Some_fmap {A B} (f : A → B) (o1 o2 : option A) :
  f <$> o1 = f <$> o2 → is_Some o1 ↔ is_Some o2.
Proof. destruct o1, o2; simpl; intros; simplify_eq; split; intros [? ?]; eauto; done. Qed.

(** Same successor lists under every key: same liveness, same edges. *)
Lemma same_succ_views st st' :
  (∀ k, MG.Succ <$> Groups st' !! k = MG.Succ <$> Groups st !! k) →
  (∀ k, live st' k ↔ live st k) ∧
  (∀ a b f, has_succ st' a b f ↔ has_succ st a b f).
Proof.
  intros H. split.
  - intros k. unfold live. by eapply lookup_is_Some_fmap.
  - intros a b f. unfold has_succ. specialize (H a).
    destruct (Groups st' !! a) as [G'|], (Groups st !! a) as [G|];
      simplify_eq/=.
    + split; intros (G0 & [= <-] & Hin); eexists; (split; [done|]);
        congruence.
    + done.
Qed.

(** What the base class does to the table: the group of the token may
    leave; every other group keeps its successors. *)
Lemma base_executed_effect IR st st1 :
  LSUnitBase_onInstructionExecuted IR st = Some st1 →
  let gid := getLSUTokenID IR in
  frame st st1 ∧ live st gid ∧
  (∀ k, k ≠ gid →
        MG.Succ <$> Groups st1 !! k = MG.Succ <$> Groups st !! k) ∧
  (live st1 gid →
   MG.Succ <$> Groups st1 !! gid = MG.Succ <$> Groups st !! gid).
Proof.
  unfold LSUnitBase_onInstructionExecuted. intros H.
  set (gid := getLSUTokenID IR) in *.
  destruct (Groups st !! gid) as [G|] eqn:HG; [|done]. simpl in H.
  destruct (MG.onInstructionExecuted gid (Groups st) !! gid) as [G1|] eqn:HG1;
    [|done].
  simpl in H. simplify_eq. simpl.
  split; [by destruct st|]. split; [by eexists|].
  pose proof (λ k, MG_onInstructionExecuted_lookup MG.Succ gid (Groups st) k
                     blind_Succ_exec) as Hv.
  destruct (MG.isExecuted G1).
  - split.
    + intros k Hne. by rewrite lookup_delete_ne, Hv.
    + unfold live. simpl. rewrite lookup_delete_eq. by intros [? ?].
  - split; [intros k _; apply Hv|intros _; by rewrite Hv, HG].
Qed.

Lemma executed_effect IR st st' :
  onInstructionExecuted IR st = Some st' →
  ∃ cleared, quiet_step st st' cleared.
Proof.
  unfold onInstructionExecuted. intros H.
  destruct (isMemOp IR); simpl in H.
  2:{ simplify_eq. exists None. unfold quiet_step. simpl.
      repeat split; auto. done. }
  destruct (LSUnitBase_onInstructionExecuted IR st) as [st1|] eqn:Hb; [|done].
  simpl in H.
  destruct (base_executed_effect IR st st1 Hb) as (F & Hl & Hne & Heq).
  set (gid := getLSUTokenID IR) in *.
  pose proof (frame_fields _ _ F)
    as (_ & _ & _ & _ & _ & FN & FR & FCL & FCS & FCLB & FCSB).
  assert (Hsub : ∀ k, live st1 k → live st k).
  { intros k Hk. destruct (decide (k = gid)) as [->|Hk']; [done|].
    unfold live in *. eapply lookup_is_Some_fmap; [|exact Hk]. symmetry.
    by apply Hne. }
  assert (Hsucc : ∀ a b f, has_succ st1 a b f → has_succ st a b f).
  { intros a b f (G & HG & Hin).
    assert (MG.Succ <$> Groups st1 !! a = MG.Succ <$> Groups st !! a) as Hv.
    { destruct (decide (a = gid)) as [->|Hk']; [apply Heq; by eexists|].
      by apply Hne. }
    rewrite HG in Hv. simpl in Hv.
    destruct (Groups st !! a) as [G0|] eqn:HG0; [|done].
    simplify_eq/=. exists G0. split; [done|]. congruence. }
  destruct (isValidGroupID st1 gid) eqn:Hvalid; simpl in H; simplify_eq.
  - apply andb_true_iff in Hvalid as [_ Hv%bool_decide_eq_true].
    exists None. unfold quiet_step. simpl.
    rewrite FN, FR, FCL, FCS, FCLB, FCSB.
    do 6 (split; [done|]). split; [done|]. split; [|split; [done|done]].
    intros k Hk. left. destruct (decide (k = gid)) as [->|Hk']; [done|].
    unfold live in *. eapply lookup_is_Some_fmap; [|exact Hk].
    by apply Hne.
  - exists (Some gid). unfold quiet_step. simpl.
    rewrite FN, FR, FCL, FCS, FCLB, FCSB.
    do 6 (split; [done|]). split; [done|]. split; [|split; [done|]].
    + intros k Hk. destruct (decide (k = gid)) as [->|Hk']; [by right|].
      left. unfold live in *. eapply lookup_is_Some_fmap; [|exact Hk].
      by apply Hne.
    + intros k [= <-] Hk0 Hlive. apply andb_false_iff in Hvalid as [Hv|Hv].
      * apply negb_false_iff, N.eqb_eq in Hv. done.
      * by apply bool_decide_eq_false in Hv.
Qed.

Lemma quiet_same_table st st' :
  NextGroupID st' = NextGroupID st → MDRegistry st' = MDRegistry st →
  CurrentLoadGroupID st' = CurrentLoadGroupID st →
  CurrentStoreGroupID st' = CurrentStoreGroupID st →
  CurrentLoadBarrierGroupID st' = CurrentLoadBarrierGroupID st →
  CurrentStoreBarrierGroupID st' = CurrentStoreBarrierGroupID st →
  (∀ k, MG.Succ <$> Groups st' !! k = MG.Succ <$> Groups st !! k) →
  quiet_step st st' None.
Proof.
  intros HN HR H1 H2 H3 H4 Hv.
  destruct (same_succ_views st st' Hv) as [L S].
  unfold quiet_step. simpl. do 6 (split; [done|]).
  split; [intros k; by apply L|]. split; [intros k ?; left; by apply L|].
  split; [intros a b f; by apply S|done].
Qed.

Lemma issued_effect IR st st' :
  onInstructionIssued IR st = Some st' → quiet_step st st' None.
Proof.
  unfold onInstructionIssued, getGroup. intros H.
  destruct (Groups st !! getLSUTokenID IR) as [G|] eqn:HG; simplify_eq/=.
  apply quiet_same_table; try done. intros k. simpl.
  rewrite lookup_insert. case_decide as Hk; [rewrite <- Hk|done].
  by rewrite HG.
Qed.

Lemma retired_effect IR st st' :
  onInstructionRetired IR st = Some st' →
  quiet_step st st' None ∧
  UsedLQEntries st =
    (UsedLQEntries st' + if MayLoad (getDesc IR) then 1 else 0)%N ∧
  UsedSQEntries st =
    (UsedSQEntries st' + if is_store st IR then 1 else 0)%N.
Proof.
  unfold onInstructionRetired, is_store, releaseLQSlot, releaseSQSlot.
  intros H.
  destruct (MayLoad (getDesc IR)),
    (isStore (getDesc IR) (getMemoryAccessMD st IR)); simpl in H; try done;
    repeat match type of H with
           | context [(0 <? ?x)%N] =>
               destruct (N.ltb_spec 0 x); simpl in H; [|done]
           end;
    simplify_eq; simpl in *;
    (split; [by apply quiet_same_table|simpl; lia]).
Qed.

Lemma cycle_effect st : quiet_step st (cycleEvent st) None.
Proof.
  apply quiet_same_table; try done. intros k. unfold cycleEvent. simpl.
  rewrite lookup_fmap. by destruct (Groups st !! k).
Qed.

Lemma step_quiet e st st' :
  ¬ is_dispatch e → step e st = Some st' → ∃ cleared, quiet_step st st' cleared.
Proof.
  destruct e as [IR|IR|IR|IR|]; simpl; intros Hd H.
  - by destruct Hd.
  - exists None. by apply (issued_effect IR).
  - by apply executed_effect in H.
  - exists None. by apply retired_effect in H as [? _].
  - simplify_eq. exists None. apply cycle_effect.
Qed.

Lemma clr_cases cleared p :
  clr cleared p = p ∨ (clr cleared p = 0%N ∧ cleared = Some p).
Proof.
  destruct cleared as [t|]; simpl; [|by left].
  destruct (N.eqb_spec t p); [right; by subst|by left].
Qed.

Lemma quiet_pointers_live st st' cleared :
  quiet_step st st' cleared → pointers_live st → pointers_live st'.
Proof.
  intros (_ & _ & E1 & E2 & E3 & E4 & _ & L & _) (H1 & H2 & H3 & H4).
  assert (Hok : ∀ p, ptr_ok st p → ptr_ok st' (clr cleared p)).
  { intros p [->|Hl].
    - left. destruct cleared as [t|]; simpl; [|done]. by destruct (t =? 0)%N.
    - destruct (L p Hl) as [?|Hc].
      + destruct (clr_cases cleared p) as [->|[-> _]]; [by right|by left].
      + left. rewrite Hc. simpl. by rewrite N.eqb_refl. }
  unfold pointers_live. rewrite E1, E2, E3, E4. auto.
Qed.

Lemma quiet_wf st st' cleared : quiet_step st st' cleared → wf st → wf st'.
Proof.
  intros Hq (H0 & Hk & Hp & He).
  pose proof (quiet_pointers_live _ _ _ Hq Hp) as Hp'.
  destruct Hq as (HN & _ & _ & _ & _ & _ & Lsub & _ & S & _).
  unfold wf. rewrite HN. split; [done|]. split; [|split; [done|]].
  - intros k Hl%Lsub. by apply Hk.
  - intros a b [f Hf%S]. apply (He a). by exists f.
Qed.

Lemma step_wf e st st' : wf st → step e st = Some st' → wf st'.
Proof.
  intros Hwf H.
  assert (Hd : is_dispatch e ∨ ¬ is_dispatch e) by (destruct e; simpl; tauto).
  destruct Hd as [Hd|Hd].
  - destruct e; try done. simpl in H.
    destruct (dispatch IR st) as [[st2 g]|] eqn:E; simplify_eq/=.
    by apply (dispatch_grows _ _ _ _ Hwf E).
  - destruct (step_quiet _ _ _ Hd H) as [cleared Hq]. by eapply quiet_wf.
Qed.

Lemma run_wf evs : ∀ st st', wf st → run evs st = Some st' → wf st'.
Proof.
  induction evs as [|e evs IH]; intros st st' Hwf H; simpl in H.
  - by simplify_eq.
  - destruct (step e st) as [st1|] eqn:E; [|done]. simpl in H.
    eapply IH; [|exact H]. by eapply step_wf.
Qed.

Lemma wf_new SM LQ SQ na MDR : wf (LSUnit_new SM LQ SQ na MDR).
Proof.
  unfold wf, LSUnit_new, pointers_live, ptr_ok, live, edge, has_succ. simpl.
  split; [lia|]. split; [|split].
  - intros k [? Hk]. by rewrite lookup_empty in Hk.
  - unfold initial_pointers. auto.
  - intros g h (f & G & HG & _). by rewrite lookup_empty in HG.
Qed.

End OtherEvents.

(** ** The dispatch decision *)

Section DispatchClaims.

Implicit Types (st : LSUnit) (IR : Instruction) (g k : N).

Lemma pure_load_memop st IR : pure_load st IR → isMemOp IR = true.
Proof. intros [_ H]. unfold isMemOp. by rewrite H. Qed.

Lemma pure_load_not_store st IR : pure_load st IR → is_store st IR = true → False.
Proof. intros [H _]. congruence. Qed.

Lemma opened_group_content st st' g MDA added :
  opens_group st st' g MDA added →
  view MG.NumInstructions st' g = Some 1%N ∧
  mem_of st' g = Some (accesses_of MDA).
Proof.
  intros (_ & _ & _ & _ & _ & V). split.
  - rewrite (V _ _ blind_NumInstructions). by rewrite ninstr_addMemAccess.
  - unfold mem_of. fold (view MG.MemAccesses st' g).
    rewrite (V _ _ blind_MemAccesses). by rewrite mem_addMemAccess.
Qed.

Lemma opens_group_fresh st st' g MDA added :
  wf st → opens_group st st' g MDA added →
  ¬ live st g ∧ live st' g ∧ g ≠ 0%N.
Proof.
  intros Hwf (-> & _ & L & _). pose proof (wf_fresh st Hwf) as Hf.
  split; [unfold live; rewrite Hf; by intros [? ?]|].
  split; [apply L; by right|]. destruct Hwf as [? _]. lia.
Qed.

(** C3: on a pure load, [dispatch] opens a new group exactly when the
    instruction is a load barrier, or there is no load dominator, or the
    dominator is the current load barrier, or the dominator is not younger
    than the current store group, or the dominator is executing; otherwise
    the instruction and its memory access join the current load group, whose
    ID is returned. *)
Theorem dispatch_pure_load (IR : Instruction) (st : LSUnit) :
  wf st → pure_load st IR →
  ∃ st' g,
    dispatch IR st = Some (st', g) ∧
    (new_group_condition IR st ↔
       g = NextGroupID st ∧ ¬ live st g ∧ live st' g ∧
       NextGroupID st' = (NextGroupID st + 1)%N) ∧
    (new_group_condition IR st →
       view MG.NumInstructions st' g = Some 1%N ∧
       mem_of st' g = Some (accesses_of (getMemoryAccessMD st IR))) ∧
    (¬ new_group_condition IR st →
       g = CurrentLoadGroupID st ∧ NextGroupID st' = NextGroupID st ∧
       ∃ G, Groups st !! g = Some G ∧
            Groups st' =
              <[g := MG.addMemAccess (getMemoryAccessMD st IR)
                       (MG.addInstruction G)]> (Groups st)).
Proof.
  intros Hwf Hp.
  destruct (dispatch_outcome IR st Hwf (pure_load_memop _ _ Hp))
    as (st' & g & E & _ & Hcases).
  exists st', g. split; [done|].
  destruct Hcases
    as [(Hst & _)
       |[(_ & Hc & Ho & _)
        |(_ & Hc & -> & HN & HG & _)]].
  - by destruct (pure_load_not_store _ _ Hp Hst).
  - destruct (opens_group_fresh _ _ _ _ _ Hwf Ho) as (Hf & Hl & _).
    pose proof (opened_group_content _ _ _ _ _ Ho) as Hcontent.
    destruct Ho as (-> & HN & _).
    split; [|split]; [split; done|done|done].
  - split; [|split]; [|done|done].
    split; [done|]. intros (_ & _ & _ & HN'). lia.
Qed.

Lemma run_quiet evs : ∀ st st',
  no_dispatch evs → run evs st = Some st' →
  NextGroupID st' = NextGroupID st ∧
  MDRegistry st' = MDRegistry st ∧
  (∀ g, g ≠ 0%N → CurrentLoadGroupID st' = g →
        CurrentLoadGroupID st = g ∧
        (CurrentStoreGroupID st = g → CurrentStoreGroupID st' = g)).
Proof.
  induction evs as [|e evs IH]; intros st st' Hnd H; simpl in H.
  - by simplify_eq.
  - apply Forall_cons in Hnd as [Hd Hnd].
    destruct (step e st) as [st1|] eqn:E; [|done]. simpl in H.
    destruct (step_quiet _ _ _ Hd E)
      as (cleared & HN & HR & HCL & HCS & _).
    destruct (IH _ _ Hnd H) as (HN' & HR' & Hptr).
    split; [congruence|]. split; [congruence|].
    intros g Hg Hcl. destruct (Hptr g Hg Hcl) as [Hcl1 Hcs1].
    rewrite HCL in Hcl1.
    destruct (clr_cases cleared (CurrentLoadGroupID st)) as [Hc|[Hc _]];
      [|congruence].
    rewrite Hc in Hcl1. split; [done|]. intros Hcs. apply Hcs1.
    rewrite HCS, Hcs, <- Hcl1. done.
Qed.

Lemma is_store_registry st st' IR :
  MDRegistry st' = MDRegistry st → is_store st' IR = is_store st IR.
Proof. unfold is_store, getMemoryAccessMD. by intros ->. Qed.

(** C4: a store always opens a brand-new group that holds exactly that one
    instruction; and when two consecutive dispatches (with no dispatch in
    between) return the same group ID, both instructions are pure loads. *)
Theorem store_never_joins :
  (∀ IR st,
     wf st → is_store st IR = true → isMemOp IR = true →
     ∃ st' g,
       dispatch IR st = Some (st', g) ∧
       g = NextGroupID st ∧ ¬ live st g ∧ live st' g ∧
       view MG.NumInstructions st' g = Some 1%N ∧
       mem_of st' g = Some (accesses_of (getMemoryAccessMD st IR))) ∧
  (∀ IR1 IR2 st st1 g1 evs st1' st2 g2,
     wf st → dispatch IR1 st = Some (st1, g1) →
     no_dispatch evs → run evs st1 = Some st1' →
     dispatch IR2 st1' = Some (st2, g2) →
     g1 = g2 →
     pure_load st IR1 ∧ pure_load st1' IR2).
Proof.
  split.
  - intros IR st Hwf Hst Hmem.
    destruct (dispatch_outcome IR st Hwf Hmem)
      as (st2 & g2 & E2 & _ & Hcases).
    exists st2, g2. split; [done|].
    destruct Hcases as [(_ & (added & Ho & _) & _)|[(Hp & _)|(Hp & _)]];
      try by destruct (pure_load_not_store _ _ Hp Hst).
    destruct (opens_group_fresh _ _ _ _ _ Hwf Ho) as (Hf & Hl & _).
    destruct (opened_group_content _ _ _ _ _ Ho) as [Hn Hm].
    destruct Ho as (-> & _). done.
  - intros IR1 IR2 st st1 g1 evs st1' st2 g2 Hwf E1 Hnd Hrun E2 <-.
    destruct (dispatch_grows _ _ _ _ Hwf E1) as (Hwf1 & Hl1 & Hlt1 & _).
    pose proof (run_wf _ _ _ Hwf1 Hrun) as Hwf1'.
    destruct (run_quiet _ _ _ Hnd Hrun) as (HN & HR & Hptr).
    assert (Hg1 : g1 ≠ 0%N).
    { destruct Hwf1 as (_ & Hk & _). apply Hk in Hl1. lia. }
    destruct (dispatch_outcome IR2 st1' Hwf1' (dispatch_Some_memop _ _ _ E2))
      as (st2' & g2' & E2' & _ & Hcases2).
    rewrite E2 in E2'. simplify_eq.
    destruct Hcases2
      as [(_ & (added & (-> & _) & _) & _)
         |[(_ & _ & (-> & _) & _)
          |(Hp2 & Hc2 & -> & _)]]; [lia|lia|].
    split; [|done].
    destruct (Hptr _ Hg1 eq_refl) as [Hcl1 Hcs].
    destruct (dispatch_outcome IR1 st Hwf (dispatch_Some_memop _ _ _ E1))
      as (st1x & g1x & E1' & _ & Hcases1).
    rewrite E1 in E1'. simplify_eq.
    destruct Hcases1
      as [(Hst & _ & PCS & _)|[(Hp & _)|(Hp & _)]]; [|done|done].
    exfalso. apply Hc2. unfold new_group_condition.
    rewrite (Hcs PCS).
    destruct (N.max_spec (CurrentLoadGroupID st1')
                (CurrentLoadBarrierGroupID st1')) as [[_ ->]|[_ ->]].
    + do 2 right. by left.
    + do 3 right. left. lia.
Qed.

End DispatchClaims.

(** ** Queue accounting and the current pointers *)

Section Accounting.

Implicit Types (st : LSUnit) (IR : Instruction) (g k : N).

Lemma count_if_cons p IR l :
  count_if p (IR :: l) = ((if p IR then 1 else 0) + count_if p l)%N.
Proof.
  unfold count_if. rewrite filter_cons.
  destruct (p IR); simpl; lia.
Qed.

Lemma count_if_app p l1 l2 :
  count_if p (l1 ++ l2) = (count_if p l1 + count_if p l2)%N.
Proof. unfold count_if. rewrite filter_app, length_app. lia. Qed.

Lemma dispatched_cons e evs :
  dispatched (e :: evs) = dispatched [e] ++ dispatched evs.
Proof. by destruct e. Qed.

Lemma retired_cons e evs : retired (e :: evs) = retired [e] ++ retired evs.
Proof. by destruct e. Qed.

Lemma count_if_perm p l1 l2 : l1 ≡ₚ l2 → count_if p l1 = count_if p l2.
Proof. unfold count_if. by intros ->. Qed.

Lemma count_if_ext p q l :
  (∀ IR, p IR = q IR) → count_if p l = count_if q l.
Proof.
  intros H. induction l as [|IR l IH]; [done|].
  by rewrite !count_if_cons, IH, H.
Qed.

Lemma issued_counters IR st st' :
  onInstructionIssued IR st = Some st' →
  UsedLQEntries st' = UsedLQEntries st ∧ UsedSQEntries st' = UsedSQEntries st.
Proof.
  unfold onInstructionIssued. intros H.
  destruct (getGroup st (getLSUTokenID IR)); by simplify_eq/=.
Qed.

Lemma executed_counters IR st st' :
  onInstructionExecuted IR st = Some st' →
  UsedLQEntries st' = UsedLQEntries st ∧ UsedSQEntries st' = UsedSQEntries st.
Proof.
  unfold onInstructionExecuted. intros H.
  destruct (isMemOp IR); simpl in H; [|by simplify_eq].
  destruct (LSUnitBase_onInstructionExecuted IR st) as [st1|] eqn:Hb; [|done].
  simpl in H.
  destruct (base_executed_effect IR st st1 Hb) as (F & _).
  apply frame_fields in F as (_ & _ & F1 & F2 & _).
  destruct (isValidGroupID st1 (getLSUTokenID IR)); by simplify_eq/=.
Qed.

(** The counters along a run: what was taken at dispatch, less what was
    released at retirement. *)
Lemma run_counters evs : ∀ st st',
  wf st → run evs st = Some st' →
  MDRegistry st' = MDRegistry st ∧
  (UsedLQEntries st' + count_if (λ IR, MayLoad (getDesc IR)) (retired evs) =
   UsedLQEntries st + count_if (λ IR, MayLoad (getDesc IR)) (dispatched evs))%N ∧
  (UsedSQEntries st' + count_if (is_store st) (retired evs) =
   UsedSQEntries st + count_if (is_store st) (dispatched evs))%N.
Proof.
  induction evs as [|e evs IH]; intros st st' Hwf H; simpl in H.
  - simplify_eq. unfold count_if. simpl. split; [done|]. lia.
  - destruct (step e st) as [st1|] eqn:E; [|done]. simpl in H.
    pose proof (step_wf _ _ _ Hwf E) as Hwf1.
    destruct (IH _ _ Hwf1 H) as (HR & HL & HS).
    assert (Hreg : MDRegistry st1 = MDRegistry st ∧
      (UsedLQEntries st1 +
         count_if (λ IR, MayLoad (getDesc IR)) (retired [e]) =
       UsedLQEntries st +
         count_if (λ IR, MayLoad (getDesc IR)) (dispatched [e]))%N ∧
      (UsedSQEntries st1 + count_if (is_store st) (retired [e]) =
       UsedSQEntries st + count_if (is_store st) (dispatched [e]))%N).
    { destruct e as [IR|IR|IR|IR|]; simpl in E.
      - destruct (dispatch IR st) as [[st2 g]|] eqn:Ed; simplify_eq/=.
        destruct (dispatch_grows _ _ _ _ Hwf Ed)
          as (_ & _ & _ & _ & _ & _ & (_ & _ & _ & HR1 & HL1 & HS1)).
        unfold dispatched, retired. simpl. rewrite !count_if_cons.
        unfold count_if. simpl. split; [done|]. lia.
      - destruct (issued_effect _ _ _ E) as (_ & HR1 & _).
        destruct (issued_counters _ _ _ E) as [-> ->]. done.
      - destruct (executed_effect _ _ _ E) as (c & _ & HR1 & _).
        destruct (executed_counters _ _ _ E) as [-> ->]. done.
      - destruct (retired_effect _ _ _ E) as ((_ & HR1 & _) & HL1 & HS1).
        unfold dispatched, retired. simpl. rewrite !count_if_cons.
        unfold count_if. simpl. split; [done|]. lia.
      - simplify_eq. done. }
    destruct Hreg as (HR1 & HL1 & HS1).
    assert (Hst : ∀ l, count_if (is_store st1) l = count_if (is_store st) l).
    { intros l. apply count_if_ext. intros IR. by apply is_store_registry. }
    rewrite !Hst in HS.
    assert (Hsplit : ∀ p, count_if p (retired (e :: evs)) =
                          (count_if p (retired [e]) + count_if p (retired evs))%N
                        ∧ count_if p (dispatched (e :: evs)) =
                          (count_if p (dispatched [e]) +
                           count_if p (dispatched evs))%N).
    { intros p. rewrite retired_cons, dispatched_cons, !count_if_app. done. }
    destruct (Hsplit (λ IR, MayLoad (getDesc IR))) as [-> ->].
    destruct (Hsplit (is_store st)) as [-> ->].
    split; [congruence|]. lia.
Qed.

(** [onInstructionRetired] succeeds exactly on a memory operation whose
    slots are there to be released. *)
Lemma retired_total IR st :
  is_Some (onInstructionRetired IR st) ↔
  (MayLoad (getDesc IR) = true ∨ is_store st IR = true) ∧
  (MayLoad (getDesc IR) = true → (0 < UsedLQEntries st)%N) ∧
  (is_store st IR = true → (0 < UsedSQEntries st)%N).
Proof.
  unfold onInstructionRetired, is_store, releaseLQSlot, releaseSQSlot.
  destruct (MayLoad (getDesc IR)),
    (isStore (getDesc IR) (getMemoryAccessMD st IR)); simpl;
    repeat match goal with
           | |- context [(0 <? ?x)%N] => destruct (N.ltb_spec 0 x); simpl
           end;
    (split;
     [ intros [? ?]; simplify_eq; repeat split; auto; try done; intros; lia
     | intros (Hm & HL & HS);
       try (by eexists);
       try (specialize (HL eq_refl); lia);
       try (specialize (HS eq_refl); lia);
       by destruct Hm ]).
Qed.

Lemma count_if_submseteq p l1 l2 :
  l1 ⊆+ l2 → (count_if p l1 <= count_if p l2)%N.
Proof.
  intros [k Hk]%submseteq_Permutation.
  rewrite (count_if_perm _ _ _ Hk), count_if_app. lia.
Qed.

Lemma run_app evs1 evs2 : ∀ st,
  run (evs1 ++ evs2) st = run evs1 st ≫= run evs2.
Proof.
  induction evs1 as [|e evs1 IH]; intros st; simpl; [done|].
  destruct (step e st) as [st1|]; simpl; [apply IH|done].
Qed.

Lemma dispatched_app evs1 evs2 :
  dispatched (evs1 ++ evs2) = dispatched evs1 ++ dispatched evs2.
Proof. unfold dispatched. apply omap_app. Qed.

Lemma retired_app evs1 evs2 :
  retired (evs1 ++ evs2) = retired evs1 ++ retired evs2.
Proof. unfold retired. apply omap_app. Qed.

Lemma dispatched_retirements l : dispatched (EvRetired <$> l) = [].
Proof.
  induction l as [|IR l IH]; [done|].
  by rewrite fmap_cons, dispatched_cons, IH.
Qed.

Lemma retired_retirements l : retired (EvRetired <$> l) = l.
Proof.
  induction l as [|IR l IH]; [done|].
  by rewrite fmap_cons, retired_cons, IH.
Qed.

(** Every instruction a run has dispatched is a memory operation. *)
Lemma run_dispatched_memop evs : ∀ st st' IR,
  run evs st = Some st' → IR ∈ dispatched evs → isMemOp IR = true.
Proof.
  induction evs as [|e evs IH]; intros st st' IR H Hin; simpl in H.
  - by apply elem_of_nil in Hin.
  - destruct (step e st) as [st1|] eqn:E; [|done]. simpl in H.
    rewrite dispatched_cons in Hin. apply elem_of_app in Hin as [Hin|Hin];
      [|by eapply IH].
    destruct e as [IR'|IR'|IR'|IR'|]; try by apply elem_of_nil in Hin.
    apply list_elem_of_singleton in Hin as ->. simpl in E.
    destruct (dispatch IR' st) as [r|] eqn:Ed; [|done].
    by eapply dispatch_Some_memop.
Qed.

(** An instruction in flight (dispatched, and not among the retired ones)
    can be retired: the assertions of [onInstructionRetired] and of the
    release functions hold for it. *)
Lemma in_flight_retires evs st st' IR :
  wf st → UsedLQEntries st = 0%N → UsedSQEntries st = 0%N →
  run evs st = Some st' →
  IR :: retired evs ⊆+ dispatched evs →
  is_Some (onInstructionRetired IR st').
Proof.
  intros Hwf HL0 HS0 Hrun Hsub.
  destruct (run_counters _ _ _ Hwf Hrun) as (HR & HL & HS).
  assert (Hin : IR ∈ dispatched evs).
  { eapply elem_of_submseteq; [|exact Hsub]. apply list_elem_of_here. }
  pose proof (run_dispatched_memop _ _ _ _ Hrun Hin) as Hmem.
  pose proof (count_if_submseteq (λ IR, MayLoad (getDesc IR)) _ _ Hsub) as CL.
  pose proof (count_if_submseteq (is_store st) _ _ Hsub) as CS.
  rewrite count_if_cons in CL, CS.
  apply retired_total. rewrite (is_store_registry _ _ _ HR).
  split; [|split].
  - unfold isMemOp in Hmem. unfold is_store, isStore.
    destruct (MayLoad (getDesc IR)); [by left|right]. simpl in Hmem.
    by rewrite Hmem.
  - intros E. rewrite E in CL. lia.
  - intros E. rewrite E in CS. lia.
Qed.

(** Retiring, in any order, a list of instructions in flight succeeds; and
    if that retires everything dispatched, both counters end at zero. *)
Lemma retire_in_flight l : ∀ evs st st1,
  wf st → UsedLQEntries st = 0%N → UsedSQEntries st = 0%N →
  run evs st = Some st1 →
  retired evs ++ l ⊆+ dispatched evs →
  ∃ st2, run (EvRetired <$> l) st1 = Some st2 ∧
         run (evs ++ (EvRetired <$> l)) st = Some st2.
Proof.
  induction l as [|IR l IH]; intros evs st st1 Hwf HL0 HS0 Hrun Hsub.
  - exists st1. simpl. by rewrite app_nil_r.
  - assert (Hone : IR :: retired evs ⊆+ dispatched evs).
    { etrans; [|exact Hsub]. rewrite <- Permutation_middle.
      apply submseteq_skip, submseteq_inserts_r. done. }
    destruct (in_flight_retires _ _ _ _ Hwf HL0 HS0 Hrun Hone) as [st1' E].
    assert (Hrun' : run (evs ++ [EvRetired IR]) st = Some st1').
    { rewrite run_app, Hrun. simpl. by rewrite E. }
    destruct (IH (evs ++ [EvRetired IR]) st st1' Hwf HL0 HS0 Hrun')
      as (st2 & E2 & E3).
    { rewrite retired_app, dispatched_app. simpl.
      rewrite app_nil_r, <- (assoc_L (++)). done. }
    exists st2. split.
    + simpl. by rewrite E.
    + by rewrite <- (assoc_L (++)) in E3.
Qed.

(** C5: on a well-formed state the [dispatch] of a memory operation
    succeeds, and takes a load-queue slot iff the instruction may load and
    a store-queue slot iff it is a store; [onInstructionRetired] succeeds
    exactly on a memory operation whose slots are taken, and gives back the
    same slots under the same predicates; in every run from construction
    the instructions still in flight can be retired in any order, and once
    the retired instructions are exactly the dispatched ones, both counters
    are back at zero. *)
Theorem queue_counters_balance :
  (∀ IR st,
     wf st → isMemOp IR = true → is_Some (dispatch IR st)) ∧
  (∀ IR st st' g,
     wf st → dispatch IR st = Some (st', g) →
     UsedLQEntries st' =
       (UsedLQEntries st + if MayLoad (getDesc IR) then 1 else 0)%N ∧
     UsedSQEntries st' =
       (UsedSQEntries st + if is_store st IR then 1 else 0)%N) ∧
  (∀ IR st,
     is_Some (onInstructionRetired IR st) ↔
     (MayLoad (getDesc IR) = true ∨ is_store st IR = true) ∧
     (MayLoad (getDesc IR) = true → (0 < UsedLQEntries st)%N) ∧
     (is_store st IR = true → (0 < UsedSQEntries st)%N)) ∧
  (∀ IR st st',
     onInstructionRetired IR st = Some st' →
     UsedLQEntries st =
       (UsedLQEntries st' + if MayLoad (getDesc IR) then 1 else 0)%N ∧
     UsedSQEntries st =
       (UsedSQEntries st' + if is_store st IR then 1 else 0)%N) ∧
  (∀ SM LQ SQ na MDR evs st l,
     run evs (LSUnit_new SM LQ SQ na MDR) = Some st →
     retired evs ++ l ⊆+ dispatched evs →
     ∃ st', run (EvRetired <$> l) st = Some st' ∧
            (retired evs ++ l ≡ₚ dispatched evs →
             UsedLQEntries st' = 0%N ∧ UsedSQEntries st' = 0%N)) ∧
  (∀ SM LQ SQ na MDR evs st',
     run evs (LSUnit_new SM LQ SQ na MDR) = Some st' →
     retired evs ≡ₚ dispatched evs →
     UsedLQEntries st' = 0%N ∧ UsedSQEntries st' = 0%N).
Proof.
  assert (Hzero : ∀ SM LQ SQ na MDR evs st',
     run evs (LSUnit_new SM LQ SQ na MDR) = Some st' →
     retired evs ≡ₚ dispatched evs →
     UsedLQEntries st' = 0%N ∧ UsedSQEntries st' = 0%N).
  { intros SM LQ SQ na MDR evs st' Hrun Hperm.
    destruct (run_counters _ _ _ (wf_new SM LQ SQ na MDR) Hrun)
      as (_ & HL & HS).
    rewrite (count_if_perm _ _ _ Hperm) in HL.
    rewrite (count_if_perm _ _ _ Hperm) in HS. simpl in HL, HS. lia. }
  split; [|split; [|split; [|split; [|split]]]].
  - intros IR st. apply dispatch_total.
  - intros IR st st' g Hwf E.
    by destruct (dispatch_grows _ _ _ _ Hwf E)
      as (_ & _ & _ & _ & _ & _ & (_ & _ & _ & _ & ? & ?)).
  - apply retired_total.
  - intros IR st st' E. by destruct (retired_effect _ _ _ E) as (_ & ? & ?).
  - intros SM LQ SQ na MDR evs st l Hrun Hsub.
    destruct (retire_in_flight l evs _ st (wf_new SM LQ SQ na MDR)
                eq_refl eq_refl Hrun Hsub) as (st' & E1 & E2).
    exists st'. split; [done|]. intros Hperm.
    apply (Hzero _ _ _ _ _ _ _ E2).
    by rewrite retired_app, dispatched_app, retired_retirements,
      dispatched_retirements, app_nil_r.
  - exact Hzero.
Qed.

(** C6: from construction on, after every operation, each of the four
    current pointers is 0 or the ID of a live group; and when
    [onInstructionExecuted] of a memory operation leaves the group of its
    token out of the table, every pointer that held that ID is 0
    afterwards. *)
Theorem current_pointers_live :
  (∀ SM LQ SQ na MDR evs st,
     run evs (LSUnit_new SM LQ SQ na MDR) = Some st → pointers_live st) ∧
  (∀ IR st st',
     isMemOp IR = true → onInstructionExecuted IR st = Some st' →
     ¬ live st' (getLSUTokenID IR) →
     let cleared := Some (getLSUTokenID IR) in
     CurrentLoadGroupID st' = clr cleared (CurrentLoadGroupID st) ∧
     CurrentStoreGroupID st' = clr cleared (CurrentStoreGroupID st) ∧
     CurrentLoadBarrierGroupID st' = clr cleared (CurrentLoadBarrierGroupID st) ∧
     CurrentStoreBarrierGroupID st' =
       clr cleared (CurrentStoreBarrierGroupID st)).
Proof.
  split.
  - intros SM LQ SQ na MDR evs st Hrun.
    by destruct (run_wf _ _ _ (wf_new SM LQ SQ na MDR) Hrun) as (_ & _ & ? & _).
  - intros IR st st' Hmem H Hgone. unfold onInstructionExecuted in H.
    rewrite Hmem in H. simpl in H.
    destruct (LSUnitBase_onInstructionExecuted IR st) as [st1|] eqn:Hb; [|done].
    simpl in H.
    destruct (base_executed_effect IR st st1 Hb) as (F & _).
    apply frame_fields in F
      as (_ & _ & _ & _ & _ & _ & _ & FCL & FCS & FCLB & FCSB).
    destruct (isValidGroupID st1 (getLSUTokenID IR)) eqn:Hv; simpl in H;
      simplify_eq.
    + apply andb_true_iff in Hv as [_ Hv%bool_decide_eq_true]. done.
    + simpl. rewrite FCL, FCS, FCLB, FCSB. done.
Qed.

End Accounting.

(** ** Ordering laws *)

Section Ordering.

Implicit Types (st : LSUnit) (IR : Instruction) (g k : N).

Lemma rtc_edge_mono st st' :
  (∀ a b f, has_succ st a b f → has_succ st' a b f) →
  ∀ a b, rtc (edge st) a b → rtc (edge st') a b.
Proof.
  intros Hmono a b. induction 1 as [|x y z [f Hf] _ IH]; [done|].
  eapply rtc_l; [|exact IH]. exists f. auto.
Qed.

Lemma dispatch_all_grows IRs : ∀ st st' gs,
  wf st → dispatch_all IRs st = Some (st', gs) →
  wf st' ∧ MDRegistry st' = MDRegistry st ∧
  (∀ a b f, has_succ st a b f → has_succ st' a b f).
Proof.
  induction IRs as [|IR IRs IH]; intros st st' gs Hwf H; simpl in H.
  - by simplify_eq.
  - destruct (dispatch IR st) as [[st1 g1]|] eqn:E; [|done]. simpl in H.
    destruct (dispatch_all IRs st1) as [[st2 gs']|] eqn:E'; [|done].
    simpl in H. simplify_eq.
    destruct (dispatch_grows _ _ _ _ Hwf E)
      as (Hwf1 & _ & _ & _ & _ & Hm & (_ & _ & _ & HR & _)).
    destruct (IH _ _ _ Hwf1 E') as (Hwf2 & HR2 & Hm2).
    split; [done|]. split; [congruence|]. auto.
Qed.

Lemma load_chain_dom st gB :
  load_chain st gB →
  let dom := N.max (CurrentLoadGroupID st) (CurrentLoadBarrierGroupID st) in
  dom ≠ 0%N ∧ rtc (edge st) gB dom ∧
  rtc (edge st) (CurrentLoadBarrierGroupID st) dom.
Proof.
  intros (H0 & Hb & Hl) dom.
  assert (Hcl : rtc (edge st) (CurrentLoadBarrierGroupID st)
                    (CurrentLoadGroupID st)).
  { destruct Hl as [->|Hl]; [done|]. by apply tc_rtc. }
  split; [unfold dom; lia|].
  destruct (N.max_spec (CurrentLoadGroupID st) (CurrentLoadBarrierGroupID st))
    as [[_ Heq]|[_ Heq]]; unfold dom; rewrite Heq.
  - done.
  - split; [by etrans|done].
Qed.

Lemma load_chain_step IR st st' g gB :
  wf st → load_chain st gB → dispatch IR st = Some (st', g) →
  load_chain st' gB ∧ reachable st' gB g.
Proof.
  intros Hwf Hch E.
  destruct (dispatch_grows _ _ _ _ Hwf E) as (_ & _ & _ & _ & _ & Hm & _).
  pose proof (rtc_edge_mono _ _ Hm) as Hrm.
  pose proof (reachable_mono _ _ Hm) as Htm.
  destruct (load_chain_dom _ _ Hch) as (Hd0 & Hbd & Hcd).
  destruct Hch as (H0 & Hb & Hl).
  destruct (dispatch_outcome IR st Hwf (dispatch_Some_memop _ _ _ E))
    as (st2 & g2 & E2 & _ & Hcases).
  rewrite E in E2. simplify_eq.
  set (dom := N.max (CurrentLoadGroupID st) (CurrentLoadBarrierGroupID st))
    in *.
  destruct Hcases
    as [(Hst & (added & Ho & _ & Hadd & _) & _ & _ & PCL & PCLB)
       |[(Hp & Hc & Ho & _ & _ & PCL & PCLB)
        |(Hp & Hc & -> & _ & _ & _ & _ & PCL & PCLB)]].
  - destruct (opens_group_fresh _ _ _ _ _ Hwf Ho) as (_ & _ & Hg0).
    destruct Ho as (_ & _ & _ & S & _).
    destruct (Hadd Hd0) as [f Hf].
    assert (He : edge st2 dom g2).
    { exists f. apply S. right. done. }
    assert (Hr : reachable st2 gB g2).
    { eapply tc_rtc_l; [apply Hrm, Hbd|by apply tc_once]. }
    split; [|done]. unfold load_chain. rewrite PCL, PCLB.
    destruct (MayLoad (getDesc IR)), (isALoadBarrier IR); simpl.
    + split; [done|]. split; [by apply tc_rtc|by left].
    + split; [done|]. split; [by apply Hrm|]. right.
      eapply tc_rtc_l; [apply Hrm, Hcd|by apply tc_once].
    + split; [done|]. split; [by apply Hrm|].
      destruct Hl as [?|Hl]; [by left|right; by apply Htm].
    + split; [done|]. split; [by apply Hrm|].
      destruct Hl as [?|Hl]; [by left|right; by apply Htm].
  - destruct (opens_group_fresh _ _ _ _ _ Hwf Ho) as (_ & _ & Hg0).
    destruct Ho as (_ & _ & _ & S & _).
    unfold load_chain. rewrite PCL, PCLB.
    destruct (isALoadBarrier IR).
    + assert (He : edge st2 dom g2).
      { exists true. apply S. right. split; [done|]. split; [done|].
        right. done. }
      assert (Hr : reachable st2 gB g2).
      { eapply tc_rtc_l; [apply Hrm, Hbd|by apply tc_once]. }
      split; [|done]. split; [done|]. split; [by apply tc_rtc|by left].
    + assert (He : edge st2 (CurrentLoadBarrierGroupID st) g2).
      { exists true. apply S. right. split; [done|]. split; [done|].
        right. done. }
      assert (Hr : reachable st2 gB g2).
      { eapply tc_rtc_l; [apply Hrm, Hb|by apply tc_once]. }
      split; [|done]. split; [done|]. split; [by apply Hrm|].
      right. by apply tc_once.
  - unfold load_chain. rewrite PCL, PCLB.
    assert (Hne : CurrentLoadGroupID st ≠ CurrentLoadBarrierGroupID st).
    { intros Heq. apply Hc. unfold new_group_condition. fold dom.
      do 2 right. left. unfold dom. rewrite Heq. lia. }
    destruct Hl as [?|Hl]; [done|].
    split.
    + split; [done|]. split; [by apply Hrm|]. right. by apply Htm.
    + apply Htm. unfold reachable in *.
      eapply tc_rtc_l; [exact Hb|exact Hl].
Qed.

Lemma store_chain_step IR st st' g gB :
  wf st → store_chain st gB → dispatch IR st = Some (st', g) →
  store_chain st' gB ∧ (is_store st IR = true → reachable st' gB g).
Proof.
  intros Hwf [H0 Hb] E.
  destruct (dispatch_grows _ _ _ _ Hwf E) as (_ & _ & _ & _ & _ & Hm & _).
  pose proof (rtc_edge_mono _ _ Hm) as Hrm.
  destruct (dispatch_outcome IR st Hwf (dispatch_Some_memop _ _ _ E))
    as (st2 & g2 & E2 & _ & Hcases).
  rewrite E in E2. simplify_eq.
  destruct Hcases
    as [(Hst & (added & Ho & _ & _ & Hadd) & _ & PCSB & _)
       |[(Hp & _ & _ & _ & PCSB & _)
        |(Hp & _ & _ & _ & _ & _ & PCSB & _)]].
  - destruct (opens_group_fresh _ _ _ _ _ Hwf Ho) as (_ & _ & Hg0).
    destruct Ho as (_ & _ & _ & S & _).
    assert (He : edge st2 (CurrentStoreBarrierGroupID st) g2).
    { exists true. apply S. right. split; [done|]. by apply Hadd. }
    assert (Hr : reachable st2 gB g2).
    { eapply tc_rtc_l; [apply Hrm, Hb|by apply tc_once]. }
    split; [|done]. unfold store_chain. rewrite PCSB.
    destruct (isAStoreBarrier IR); [split; [done|by apply tc_rtc]|].
    split; [done|by apply Hrm].
  - unfold store_chain. rewrite PCSB. split; [split; [done|by apply Hrm]|].
    intros Hst. by destruct (pure_load_not_store _ _ Hp Hst).
  - unfold store_chain. rewrite PCSB. split; [split; [done|by apply Hrm]|].
    intros Hst. by destruct (pure_load_not_store _ _ Hp Hst).
Qed.

Lemma load_chain_all IRs gB : ∀ st st' gs,
  wf st → load_chain st gB → dispatch_all IRs st = Some (st', gs) →
  ∀ g, g ∈ gs → reachable st' gB g.
Proof.
  induction IRs as [|IR IRs IH]; intros st st' gs Hwf Hch H g Hin;
    simpl in H.
  - simplify_eq. by apply elem_of_nil in Hin.
  - destruct (dispatch IR st) as [[st1 g1]|] eqn:E; [|done]. simpl in H.
    destruct (dispatch_all IRs st1) as [[st2 gs']|] eqn:E'; [|done].
    simpl in H. simplify_eq.
    destruct (dispatch_grows _ _ _ _ Hwf E) as (Hwf1 & _).
    destruct (load_chain_step _ _ _ _ _ Hwf Hch E) as [Hch1 Hr1].
    apply elem_of_cons in Hin as [->|Hin].
    + destruct (dispatch_all_grows _ _ _ _ Hwf1 E') as (_ & _ & Hm).
      by apply (reachable_mono _ _ Hm).
    + by eapply IH.
Qed.

Lemma store_chain_all IRs gB : ∀ st st' gs,
  wf st → store_chain st gB → dispatch_all IRs st = Some (st', gs) →
  ∀ i IR g, IRs !! i = Some IR → gs !! i = Some g →
            is_store st IR = true → reachable st' gB g.
Proof.
  induction IRs as [|IR0 IRs IH]; intros st st' gs Hwf Hch H i IR g Hi Hg Hst;
    simpl in H; [done|].
  destruct (dispatch IR0 st) as [[st1 g1]|] eqn:E; [|done]. simpl in H.
  destruct (dispatch_all IRs st1) as [[st2 gs']|] eqn:E'; [|done].
  simpl in H. simplify_eq.
  destruct (dispatch_grows _ _ _ _ Hwf E)
    as (Hwf1 & _ & _ & _ & _ & _ & (_ & _ & _ & HR & _)).
  destruct (store_chain_step _ _ _ _ _ Hwf Hch E) as [Hch1 Hr1].
  destruct i as [|i]; simpl in Hi, Hg; simplify_eq.
  - destruct (dispatch_all_grows _ _ _ _ Hwf1 E') as (_ & _ & Hm).
    apply (reachable_mono _ _ Hm). by apply Hr1.
  - eapply IH; try done. by rewrite (is_store_registry _ _ _ HR).
Qed.

(** C2 (as the code has it): in a run of dispatches, every group dispatched
    after a load barrier is transitively reachable from the barrier's group;
    after a store barrier, the group of every later store is. *)
Theorem barrier_rigidity (B : Instruction) (st st1 st2 : LSUnit) (gB : N)
    (rest : list Instruction) (gs : list N) :
  wf st → dispatch B st = Some (st1, gB) →
  dispatch_all rest st1 = Some (st2, gs) →
  (load_barrier_op B → ∀ g, g ∈ gs → reachable st2 gB g) ∧
  (store_barrier_op st B →
   ∀ i IR g, rest !! i = Some IR → gs !! i = Some g →
             is_store st IR = true → reachable st2 gB g).
Proof.
  intros Hwf E Hall.
  destruct (dispatch_grows _ _ _ _ Hwf E)
    as (Hwf1 & Hl & _ & _ & _ & _ & (_ & _ & _ & HR & _)).
  assert (Hg0 : gB ≠ 0%N).
  { destruct Hwf1 as (_ & Hk & _). apply Hk in Hl. lia. }
  destruct (dispatch_outcome B st Hwf (dispatch_Some_memop _ _ _ E))
    as (st1' & g' & E' & _ & Hcases).
  rewrite E in E'. simplify_eq.
  split.
  - intros [HML HLB]. eapply load_chain_all; [done| |done].
    unfold load_chain.
    destruct Hcases
      as [(_ & _ & _ & _ & -> & ->)
         |[(_ & _ & _ & _ & _ & -> & ->)
          |(_ & Hc & _)]].
    + rewrite HML, HLB. simpl. split; [done|]. split; [done|by left].
    + rewrite HLB. split; [done|]. split; [done|by left].
    + exfalso. apply Hc. left. done.
  - intros [HS HSB] i IR g Hi Hg Hst.
    eapply store_chain_all; try done.
    + unfold store_chain.
      destruct Hcases
        as [(_ & _ & _ & -> & _)|[(Hp & _)|(Hp & _)]];
        try by destruct (pure_load_not_store _ _ Hp HS).
      rewrite HSB. done.
    + by rewrite (is_store_registry _ _ _ HR).
Qed.

End Ordering.

(** ** Alias elision between a store and a later load *)

Section AliasElision.

Implicit Types (st : LSUnit) (IR : Instruction) (g k : N).

Lemma wf_pointer_bound st p :
  wf st → ptr_ok st p → (p < NextGroupID st)%N.
Proof. intros (H0 & Hk & _) [->|Hl]; [done|]. apply Hk in Hl. lia. Qed.

Lemma getMemoryAccessMD_registry st st' IR :
  MDRegistry st' = MDRegistry st →
  getMemoryAccessMD st' IR = getMemoryAccessMD st IR.
Proof. unfold getMemoryAccessMD. by intros ->. Qed.

Lemma pure_load_registry st st' IR :
  MDRegistry st' = MDRegistry st → pure_load st' IR ↔ pure_load st IR.
Proof. intros HR. unfold pure_load. by rewrite (is_store_registry _ _ _ HR). Qed.

(** Right after its dispatch, a store's group is the current store group. *)
Lemma store_current_init SI maS st st1 gS :
  wf st → is_store st SI = true → getMemoryAccessMD st SI = Some maS →
  dispatch SI st = Some (st1, gS) →
  store_current st1 gS maS ∧
  (MayLoad (getDesc SI) = false → not_load_side st1 gS).
Proof.
  intros Hwf Hst Hma E.
  destruct (dispatch_grows _ _ _ _ Hwf E) as (Hwf1 & _).
  destruct (dispatch_outcome SI st Hwf (dispatch_Some_memop _ _ _ E))
    as (st1' & g' & E' & _ & Hcases).
  rewrite E in E'. simplify_eq.
  destruct Hcases
    as [(_ & (added & Ho & _) & PCS & _ & PCL & PCLB)|[(Hp & _)|(Hp & _)]];
    try by destruct (pure_load_not_store _ _ Hp Hst).
  destruct (opens_group_fresh _ _ _ _ _ Hwf Ho) as (_ & _ & Hg0).
  destruct (opened_group_content _ _ _ _ _ Ho) as [_ Hm].
  rewrite Hma in Hm. simpl in Hm.
  split; [done|]. intros HML. unfold not_load_side.
  rewrite PCL, PCLB, HML. simpl.
  destruct Ho as (-> & _).
  pose proof Hwf as (_ & _ & (HL & _ & HB & _) & _).
  pose proof (wf_pointer_bound st _ Hwf HL).
  pose proof (wf_pointer_bound st _ Hwf HB).
  split; lia.
Qed.

(** A pure load dispatched meanwhile leaves the store's group as it is. *)
Lemma store_current_step IR st st' g gS maS :
  store_current st gS maS → pure_load st IR →
  dispatch IR st = Some (st', g) →
  store_current st' gS maS ∧
  (not_load_side st gS → not_load_side st' gS).
Proof.
  intros (Hwf & Hg0 & HCS & Hm) Hp E.
  destruct (dispatch_grows _ _ _ _ Hwf E) as (Hwf1 & _).
  assert (HlS : live st gS).
  { destruct Hwf as (_ & _ & (_ & [?|?] & _) & _); congruence. }
  assert (HltS : (gS < NextGroupID st)%N).
  { destruct Hwf as (_ & Hk & _). apply Hk in HlS. lia. }
  destruct (dispatch_outcome IR st Hwf (dispatch_Some_memop _ _ _ E))
    as (st1' & g' & E' & _ & Hcases).
  rewrite E in E'. simplify_eq.
  destruct Hcases
    as [(Hst & _)
       |[(_ & _ & Ho & PCS & _ & PCL & PCLB)
        |(_ & Hc & -> & _ & (G & HG & Heq) & PCS & _ & PCL & PCLB)]].
  - by destruct (pure_load_not_store _ _ Hp Hst).
  - destruct Ho as (-> & _ & _ & _ & V & _).
    split.
    + split; [done|]. split; [done|]. split; [by rewrite PCS|].
      unfold mem_of in *.
      fold (view MG.MemAccesses st1' (CurrentStoreGroupID st)).
      rewrite (V _ _ blind_MemAccesses) by lia. done.
    + intros [H1 H2]. unfold not_load_side. rewrite PCL, PCLB.
      destruct (isALoadBarrier IR); split; lia || done.
  - assert (Hne : CurrentStoreGroupID st ≠ CurrentLoadGroupID st).
    { intros Heq'. apply Hc. unfold new_group_condition.
      destruct (N.max_spec (CurrentLoadGroupID st)
                  (CurrentLoadBarrierGroupID st)) as [[_ ->]|[_ ->]].
      - do 2 right. by left.
      - do 3 right. left. lia. }
    destruct (extend_effect _ _ _ _ _ HG Heq) as (_ & _ & V).
    split.
    + split; [done|]. split; [done|]. split; [by rewrite PCS|].
      unfold mem_of in *.
      fold (view MG.MemAccesses st1' (CurrentStoreGroupID st)).
      rewrite V by done. done.
    + unfold not_load_side. by rewrite PCL, PCLB.
Qed.

Lemma store_current_all IRs gS maS : ∀ st st' gs,
  store_current st gS maS → Forall (pure_load st) IRs →
  dispatch_all IRs st = Some (st', gs) →
  store_current st' gS maS ∧ MDRegistry st' = MDRegistry st ∧
  (not_load_side st gS → not_load_side st' gS).
Proof.
  induction IRs as [|IR IRs IH]; intros st st' gs Hsc Hall H; simpl in H.
  - by simplify_eq.
  - apply Forall_cons in Hall as [Hp Hall].
    destruct (dispatch IR st) as [[st1 g1]|] eqn:E; [|done]. simpl in H.
    destruct (dispatch_all IRs st1) as [[st2 gs']|] eqn:E'; [|done].
    simpl in H. simplify_eq.
    destruct (store_current_step _ _ _ _ _ _ Hsc Hp E) as [Hsc1 Hnl1].
    destruct Hsc as (Hwf & _).
    destruct (dispatch_grows _ _ _ _ Hwf E)
      as (_ & _ & _ & _ & _ & _ & (_ & _ & _ & HR & _)).
    destruct (IH st1 st' gs' Hsc1) as (Hsc2 & HR2 & Hnl2); [|done|].
    { eapply Forall_impl; [exact Hall|]. intros IR' ?.
      by apply (pure_load_registry _ _ _ HR). }
    split; [done|]. split; [congruence|]. auto.
Qed.

(** The general law behind C1, for one store and one later pure load. *)
Lemma alias_edge_general (SI LI : Instruction)
    (maS maL : MD.MDMemoryAccess) (mid : list Instruction)
    (st st1 st2 st3 : LSUnit) (gS gL : N) (gs : list N) :
  wf st →
  is_store st SI = true → getMemoryAccessMD st SI = Some maS →
  dispatch SI st = Some (st1, gS) →
  Forall (pure_load st) mid → dispatch_all mid st1 = Some (st2, gs) →
  pure_load st LI → getMemoryAccessMD st LI = Some maL →
  dispatch LI st2 = Some (st3, gL) →
  gL = NextGroupID st2 →
  CurrentStoreGroupID st2 = gS ∧
  (∀ f, has_succ st3 gS gL f → f = true) ∧
  (MD.aliases maS maL = true → has_succ st3 gS gL true) ∧
  (MD.aliases maS maL = false →
   (edge st3 gS gL ↔ gS = structural_pred LI st2) ∧
   (MayLoad (getDesc SI) = false → ¬ edge st3 gS gL)).
Proof.
  intros Hwf HstS HmaS ES Hmid Emid HpL HmaL EL HgL.
  destruct (store_current_init _ _ _ _ _ Hwf HstS HmaS ES) as [Hsc1 Hnl1].
  destruct (dispatch_grows _ _ _ _ Hwf ES)
    as (_ & _ & _ & _ & _ & _ & (_ & _ & _ & HR1 & _)).
  destruct (store_current_all mid gS maS st1 st2 gs Hsc1)
    as ((Hwf2 & Hg0 & HCS & Hm) & HR2 & Hnl2); [|done|].
  { eapply Forall_impl; [exact Hmid|]. intros IR' ?.
    by apply (pure_load_registry _ _ _ HR1). }
  assert (HR : MDRegistry st2 = MDRegistry st) by congruence.
  assert (HpL2 : pure_load st2 LI) by (by apply (pure_load_registry _ _ _ HR)).
  assert (HmaL2 : getMemoryAccessMD st2 LI = Some maL).
  { by rewrite (getMemoryAccessMD_registry _ _ _ HR). }
  destruct (dispatch_outcome LI st2 Hwf2 (dispatch_Some_memop _ _ _ EL))
    as (st3' & g' & EL' & _ & Hcases).
  rewrite EL in EL'. simplify_eq.
  destruct Hcases
    as [(Hst & _)
       |[(_ & _ & Ho & _)
        |(_ & _ & HgCL & _)]].
  { by destruct (pure_load_not_store _ _ HpL2 Hst). }
  2:{ exfalso. pose proof Hwf2 as (_ & _ & (HL & _) & _).
      pose proof (wf_pointer_bound st2 _ Hwf2 HL). lia. }
  destruct Ho as (_ & _ & _ & S3 & _).
  assert (Hold : ∀ a f, ¬ has_succ st2 a (NextGroupID st2) f).
  { intros a f Hs. destruct Hwf2 as (_ & _ & _ & He).
    assert (NextGroupID st2 < NextGroupID st2)%N;
      [apply (He a); by exists f|lia]. }
  assert (Hna : noAlias st2 (CurrentStoreGroupID st2)
                  (getMemoryAccessMD st2 LI) =
                Some (negb (MD.aliases maS maL))).
  { rewrite noAlias_view, HmaL2, Hm. simpl. by rewrite orb_false_r. }
  assert (Hsucc : ∀ f, has_succ st3' (CurrentStoreGroupID st2)
                         (NextGroupID st2) f ↔
       f = true ∧ (MD.aliases maS maL = true ∨
                   CurrentStoreGroupID st2 = structural_pred LI st2)).
  { intros f. rewrite S3, Hna. fold (structural_pred LI st2). split.
    - intros [Hs|(_ & -> & [(_ & _ & [= Hal%negb_false_iff])|(_ & Heq)])].
      + by destruct (Hold _ _ Hs).
      + auto.
      + auto.
    - intros [-> [Hal|Heq]]; right; (split; [done|]); (split; [done|]).
      + left. rewrite Hal. done.
      + right. split; [congruence|done]. }
  split; [done|]. split; [|split].
  - intros f Hf. by apply Hsucc in Hf as [-> _].
  - intros Hal. apply Hsucc. auto.
  - intros Hal. split.
    + split.
      * intros [f Hf]. apply Hsucc in Hf as [_ [?|?]]; [congruence|done].
      * intros Heq. exists true. apply Hsucc. auto.
    + intros HML [f Hf]. apply Hsucc in Hf as [_ [?|Heq]]; [congruence|].
      destruct (Hnl2 (Hnl1 HML)) as [H1 H2].
      unfold structural_pred in Heq.
      destruct (isALoadBarrier LI); [|congruence].
      destruct (N.max_spec (CurrentLoadGroupID st2)
                  (CurrentLoadBarrierGroupID st2)) as [[_ Hmx]|[_ Hmx]];
        congruence.
Qed.

(** C1 (as the code has it): a pure load that opens a new group while a
    store's group is the current store group, both with memory-access
    metadata.  If the accesses overlap, the store's group gets the load's
    group as a successor with [is_data_dep = true].  If they are disjoint,
    no alias edge is added: the store's group precedes the load's group only
    when it is also the load-side structural predecessor, and never when the
    store does not load.  No edge between the two carries
    [is_data_dep = false].  In the sequence L@0/8, L@8/8, S@32/4, L@64/8 the
    groups are 1, 1, 2, 3 and the final load's group has no predecessor. *)
Theorem alias_edge_store_to_load :
  (∀ (SI LI : Instruction) (maS maL : MD.MDMemoryAccess)
     (mid : list Instruction) (st st1 st2 st3 : LSUnit) (gS gL : N)
     (gs : list N),
     wf st →
     is_store st SI = true → getMemoryAccessMD st SI = Some maS →
     dispatch SI st = Some (st1, gS) →
     Forall (pure_load st) mid → dispatch_all mid st1 = Some (st2, gs) →
     pure_load st LI → getMemoryAccessMD st LI = Some maL →
     dispatch LI st2 = Some (st3, gL) →
     gL = NextGroupID st2 →
     CurrentStoreGroupID st2 = gS ∧
     (∀ f, has_succ st3 gS gL f → f = true) ∧
     (MD.aliases maS maL = true → has_succ st3 gS gL true) ∧
     (MD.aliases maS maL = false →
      (edge st3 gS gL ↔ gS = structural_pred LI st2) ∧
      (MayLoad (getDesc SI) = false → ¬ edge st3 gS gL))) ∧
  (snd <$> dispatch_all Scenario.scenario5 Scenario.unit0 =
     Some [1; 1; 2; 3]%N ∧
   ∀ g, ¬ edge (Scenario.state_after Scenario.scenario5) g 3).
Proof.
  split; [exact alias_edge_general|]. split; [by vm_compute|].
  intros g He%edge_preds_of.
  assert (Hp : preds_of (Scenario.state_after Scenario.scenario5) 3 = [])
    by (by vm_compute).
  rewrite Hp in He. by apply elem_of_nil in He.
Qed.

End AliasElision.

(** ** The scenarios of the specification, evaluated *)

Section Scenarios.

Import Scenario.

Lemma not_edge_by_preds st a b : preds_of st b = [] → ¬ edge st a b.
Proof.
  intros Hp He%edge_preds_of. rewrite Hp in He. by apply elem_of_nil in He.
Qed.

Lemma edge_by_preds st a b : a ∈ preds_of st b → edge st a b.
Proof. by intros He%edge_preds_of. Qed.

(** Scenario 1: two loads share a group. *)
Example scenario1_same_group :
  snd <$> dispatch_all [Load 0 1; Load 1 1] unit0 = Some [1%N; 1%N] ∧
  UsedLQEntries (state_after [Load 0 1; Load 1 1]) = 2%N.
Proof. by vm_compute. Qed.

(** Scenario 2: the store opens group 2 after the loads' group 1, by an
    ordering-only edge. *)
Example scenario2_ordering_edge :
  snd <$> dispatch_all [Load 0 1; Store 2 2] unit0 = Some [1%N; 2%N] ∧
  view MG.Succ (state_after [Load 0 1; Store 2 2]) 1 = Some [(2%N, false)] ∧
  UsedLQEntries (state_after [Load 0 1; Store 2 2]) = 1%N ∧
  UsedSQEntries (state_after [Load 0 1; Store 2 2]) = 1%N.
Proof. by vm_compute. Qed.

(** Scenario 3: an overlapping load follows the store by a data-dependency
    edge. *)
Example scenario3_data_edge :
  snd <$> dispatch_all [Store 4 1; Load 5 2] unit0 = Some [1%N; 2%N] ∧
  view MG.Succ (state_after [Store 4 1; Load 5 2]) 1 = Some [(2%N, true)].
Proof. by vm_compute. Qed.

(** Scenario 5: groups 1, 1, 2, 3; the store's group follows the loads'
    group by an ordering-only edge. *)
Example scenario5_groups :
  dispatch_all scenario5 unit0 = Some (state_after scenario5, [1; 1; 2; 3]%N) ∧
  view MG.Succ (state_after scenario5) 1 = Some [(2%N, false)] ∧
  view MG.Succ (state_after scenario5) 2 = Some [] ∧
  preds_of (state_after scenario5) 3 = [].
Proof. by vm_compute. Qed.

(** C1, scenario 5 as the claim states it: the final load's group 3 does
    not have the store's group 2 as a predecessor; the store's group has no
    successor at all, so no edge to group 3 carries any flag. *)
Lemma scenario5_load_not_after_store :
  dispatch_all scenario5 unit0 = Some (state_after scenario5, [1; 1; 2; 3]%N) ∧
  ¬ edge (state_after scenario5) 2 3 ∧
  (∀ f, ¬ has_succ (state_after scenario5) 2 3 f).
Proof.
  split; [by vm_compute|].
  assert (Hne : ¬ edge (state_after scenario5) 2 3).
  { apply not_edge_by_preds. by vm_compute. }
  split; [done|]. intros f Hf. apply Hne. by exists f.
Qed.

(** C2 as the claim states it: after the store barrier SB@0/8 (group 1) the
    load L@64/8 opens group 2, which is not reachable from group 1. *)
Lemma store_barrier_then_disjoint_load :
  store_barrier_op unit0 (StoreBarrier 4 1) ∧
  dispatch_all [StoreBarrier 4 1; Load 3 2] unit0 =
    Some (state_after [StoreBarrier 4 1; Load 3 2], [1; 2]%N) ∧
  ¬ reachable (state_after [StoreBarrier 4 1; Load 3 2]) 1 2.
Proof.
  split; [by vm_compute|]. split; [by vm_compute|].
  intros [x Hx]%reachable_last. revert Hx.
  apply not_edge_by_preds. by vm_compute.
Qed.

End Scenarios.

(** ** The theorems at concrete inputs *)

Section Instances.

Import Scenario.

Lemma wf_unit0 : wf unit0.
Proof. apply wf_new. Qed.

(** S@32/4, L@0/8, then the load barrier LB@64/8: the barrier opens group 3
    and the store's group 1 is not its predecessor; S@0/8 then L@0/8: the
    store's group precedes the load's group by a data-dependency edge. *)
Lemma alias_edge_store_to_load_witness :
  ¬ edge (state_after [Store 2 1; Load 0 2; LoadBarrier 3 3]) 1 3 ∧
  has_succ (state_after [Store 4 1; Load 5 2]) 1 2 true.
Proof.
  split.
  - refine (proj2 (proj2 (proj2 (proj2
      (proj1 alias_edge_store_to_load (Store 2 1) (LoadBarrier 3 3)
         (MD.mkMA true 32 4 None) (MD.mkMA false 64 8 None) [Load 0 2]
         unit0 (state_after [Store 2 1]) (state_after [Store 2 1; Load 0 2])
         (state_after [Store 2 1; Load 0 2; LoadBarrier 3 3]) 1%N 3%N [2%N]
         wf_unit0 _ _ _ _ _ _ _ _ _))) _) _); try by vm_compute.
    repeat constructor.
  - refine (proj1 (proj2 (proj2
      (proj1 alias_edge_store_to_load (Store 4 1) (Load 5 2)
         (MD.mkMA true 0 8 None) (MD.mkMA false 0 8 None) []
         unit0 (state_after [Store 4 1]) (state_after [Store 4 1])
         (state_after [Store 4 1; Load 5 2]) 1%N 2%N []
         wf_unit0 _ _ _ _ _ _ _ _ _))) _); by vm_compute.
Defined.

(** LB, L, S: groups 2 and 3 descend from the load barrier's group 1;
    SB, L@64/8, S: the later store's group 3 descends from the store
    barrier's group 1. *)
Lemma barrier_rigidity_witness :
  reachable (state_after [LoadBarrier 0 1; Load 1 2; Store 2 3]) 1 2 ∧
  reachable (state_after [LoadBarrier 0 1; Load 1 2; Store 2 3]) 1 3 ∧
  reachable (state_after [StoreBarrier 4 1; Load 3 2; Store 2 3]) 1 3.
Proof.
  pose proof (barrier_rigidity (LoadBarrier 0 1) unit0
                (state_after [LoadBarrier 0 1])
                (state_after [LoadBarrier 0 1; Load 1 2; Store 2 3]) 1
                [Load 1 2; Store 2 3] [2; 3]%N wf_unit0) as H1.
  pose proof (barrier_rigidity (StoreBarrier 4 1) unit0
                (state_after [StoreBarrier 4 1])
                (state_after [StoreBarrier 4 1; Load 3 2; Store 2 3]) 1
                [Load 3 2; Store 2 3] [2; 3]%N wf_unit0) as H2.
  destruct H1 as [H1 _]; [by vm_compute|by vm_compute|].
  destruct H2 as [_ H2]; [by vm_compute|by vm_compute|].
  split; [|split].
  - apply H1; [by split|]. apply list_elem_of_here.
  - apply H1; [by split|]. apply list_elem_of_further, list_elem_of_here.
  - apply (H2 (conj eq_refl eq_refl) 1%nat (Store 2 3)); by vm_compute.
Defined.

(** The first load of a fresh unit opens group 1. *)
Lemma dispatch_pure_load_witness :
  pure_load unit0 (Load 0 1) ∧
  ∃ st', dispatch (Load 0 1) unit0 = Some (st', 1%N) ∧
         view MG.NumInstructions st' 1 = Some 1%N.
Proof.
  assert (Hp : pure_load unit0 (Load 0 1)) by (by split).
  split; [done|].
  destruct (dispatch_pure_load (Load 0 1) unit0 wf_unit0 Hp)
    as (st' & g & E & Hiff & Hnew & _).
  assert (Hc : new_group_condition (Load 0 1) unit0).
  { right. left. by vm_compute. }
  apply Hiff in Hc as Hg. destruct Hg as [-> _].
  exists st'. split; [exact E|]. by apply Hnew.
Defined.

(** The store of scenario 5 opens a group for itself; two loads with a
    cycle tick in between share group 1 and are pure loads. *)
Lemma store_never_joins_witness :
  view MG.NumInstructions (state_after [Load 0 1; Load 1 1; Store 2 2]) 2 =
    Some 1%N ∧
  pure_load unit0 (Load 0 1) ∧
  pure_load (state_after_run [EvDispatch (Load 0 1); EvCycle]) (Load 1 1).
Proof.
  destruct store_never_joins as [H1 H2]. split.
  - destruct (H1 (Store 2 2) (state_after [Load 0 1; Load 1 1]))
      as (st' & g & E & _ & _ & _ & Hn & _).
    + refine (proj1 (dispatch_all_grows [Load 0 1; Load 1 1] unit0 _ [1; 1]%N
                       wf_unit0 _)). by vm_compute.
    + by vm_compute.
    + by vm_compute.
    + assert (E' : dispatch (Store 2 2) (state_after [Load 0 1; Load 1 1]) =
                   Some (state_after [Load 0 1; Load 1 1; Store 2 2], 2%N))
        by (by vm_compute).
      rewrite E' in E. injection E as <- <-. exact Hn.
  - refine (H2 (Load 0 1) (Load 1 1) unit0 (state_after [Load 0 1]) 1%N
              [EvCycle] (state_after_run [EvDispatch (Load 0 1); EvCycle])
              (state_after [Load 0 1; Load 1 1]) 1%N wf_unit0 _ _ _ _ eq_refl).
    + by vm_compute.
    + repeat constructor. by intros [].
    + by vm_compute.
    + by vm_compute.
Defined.

(** Scenario 6: the first dispatch takes one load slot and its retirement,
    which succeeds, gives it back; retiring with no slot taken fails; after
    the four dispatches three load slots and one store slot are taken, the
    four retirements succeed, and both counters are at zero at the end. *)
Lemma queue_counters_balance_witness :
  UsedLQEntries (state_after [Load 0 1]) = 1%N ∧
  (∃ st', onInstructionRetired (Load 0 1) (state_after [Load 0 1]) = Some st' ∧
          UsedLQEntries st' = 0%N) ∧
  onInstructionRetired (Load 0 1) unit0 = None ∧
  (∃ st st',
     run (EvDispatch <$> scenario5) unit0 = Some st ∧
     UsedLQEntries st = 3%N ∧ UsedSQEntries st = 1%N ∧
     run (EvRetired <$> scenario5) st = Some st' ∧
     UsedLQEntries st' = 0%N ∧ UsedSQEntries st' = 0%N) ∧
  UsedLQEntries (state_after_run scenario6) = 0%N ∧
  UsedSQEntries (state_after_run scenario6) = 0%N.
Proof.
  destruct queue_counters_balance as (H1 & H2 & H3 & H4 & H5 & H6).
  split; [|split; [|split; [|split]]].
  - refine (proj1 (H2 (Load 0 1) unit0 (state_after [Load 0 1]) 1%N
                      wf_unit0 _)). by vm_compute.
  - destruct (proj2 (H3 (Load 0 1) (state_after [Load 0 1]))) as [st' E].
    { split; [by left|]. split; [intros _; by vm_compute|].
      intros E. by vm_compute in E. }
    exists st'. split; [done|].
    pose proof (proj1 (H4 _ _ _ E)) as HL.
    change (1 = UsedLQEntries st' + 1)%N in HL. lia.
  - destruct (onInstructionRetired (Load 0 1) unit0) as [st'|] eqn:E; [|done].
    destruct (proj1 (H3 (Load 0 1) unit0)) as (_ & HL & _); [by eexists|].
    specialize (HL eq_refl). by vm_compute in HL.
  - destruct (H1 (Load 0 1) unit0 wf_unit0 eq_refl) as [r _].
    destruct (H5 SM 4%N 4%N false (Some registry) (EvDispatch <$> scenario5)
                (state_after_run (EvDispatch <$> scenario5)) scenario5)
      as (st' & E & Hz).
    + by vm_compute.
    + by vm_compute.
    + exists (state_after_run (EvDispatch <$> scenario5)), st'.
      split; [by vm_compute|]. split; [by vm_compute|].
      split; [by vm_compute|]. split; [done|].
      apply Hz. by vm_compute.
  - refine (H6 SM 4%N 4%N false (Some registry) scenario6
               (state_after_run scenario6) _ _).
    + by vm_compute.
    + by vm_compute.
Defined.

(** One load dispatched, issued and executed: group 1 leaves the table and
    the current load pointer, which held 1, is cleared. *)
Lemma current_pointers_live_witness :
  pointers_live (state_after_run one_load_done) ∧
  CurrentLoadGroupID
    (state_after_run [EvDispatch (Load 0 1); EvIssued (Load 0 1)]) = 1%N ∧
  CurrentLoadGroupID (state_after_run one_load_done) = 0%N.
Proof.
  destruct current_pointers_live as [H1 H2]. split; [|split].
  - refine (H1 SM 4%N 4%N false (Some registry) one_load_done _ _).
    by vm_compute.
  - by vm_compute.
  - refine (proj1 (H2 (Load 0 1)
                      (state_after_run
                         [EvDispatch (Load 0 1); EvIssued (Load 0 1)])
                      (state_after_run one_load_done) _ _ _)).
    + by vm_compute.
    + by vm_compute.
    + intros [G HG]. vm_compute in HG. discriminate.
Defined.

(** With a load queue of one entry taken by a first load, a second load gets
    the LQ-full verdict. *)
Lemma isAvailable_verdict_witness :
  isAvailable (Load 1 1)
    (default unit0 (fst <$> dispatch (Load 0 1)
                              (LSUnit_new SM 1 4 false (Some registry)))) =
  LSU_LQUEUE_FULL.
Proof.
  apply (proj1 (isAvailable_verdict _ _)). by vm_compute.
Defined.

(** The store's group of scenario 3 aliases L@0/8 and does not alias
    L@64/8, whatever the construction flag. *)
Lemma noAlias_spec_witness :
  noAlias (state_after [Store 4 1]) 1 (Some (MD.mkMA false 0 8 None)) =
    Some false ∧
  noAlias (set_NoAlias true (state_after [Store 4 1])) 1
    (Some (MD.mkMA false 0 8 None)) = Some false ∧
  noAlias (state_after [Store 4 1]) 1 None = Some false.
Proof.
  destruct (noAlias_spec (state_after [Store 4 1]) 1
              (default MG.empty (Groups (state_after [Store 4 1]) !! 1%N)))
    as (H1 & H2 & H3); [by vm_compute|].
  split; [|split].
  - rewrite H1. by vm_compute.
  - rewrite H3, H1. by vm_compute.
  - rewrite H2. by vm_compute.
Defined.

(** An ALU instruction stamped with an unknown token leaves the unit as it
    is; a load stamped with an unknown token trips the assertion. *)
Lemma onInstructionExecuted_non_memop_witness :
  onInstructionExecuted Alu unit0 = Some unit0 ∧
  onInstructionExecuted (Load 0 1) unit0 = None.
Proof.
  split.
  - apply (proj1 (onInstructionExecuted_non_memop Alu unit0)). reflexivity.
  - apply (proj2 (onInstructionExecuted_non_memop (Load 0 1) unit0));
      reflexivity.
Defined.

End Instances.

(** * Further properties of the code *)

(** ** The extended interval of a memory-access descriptor *)

Section ExtendedInterval.

Import MD.

Lemma start_bundle ma : getExtendedStartAddr ma = ExtendedAddr (bundle_of ma).
Proof. unfold getExtendedStartAddr, bundle_of. by destruct (BundledMAs ma). Qed.

Lemma end_bundle ma :
  getExtendedEndAddr ma =
  wrap64 (ExtendedAddr (bundle_of ma) + ExtendedSize (bundle_of ma)).
Proof. unfold getExtendedEndAddr, bundle_of. by destruct (BundledMAs ma). Qed.

Lemma wrap64_small z : (0 <= z < 2 ^ 64)%Z → wrap64 z = z.
Proof. intros. unfold wrap64. by apply Z.mod_small. Qed.

Lemma end_fits ma :
  fits ma →
  getExtendedEndAddr ma =
  (ExtendedAddr (bundle_of ma) + ExtendedSize (bundle_of ma))%Z.
Proof. intros (? & ? & ?). rewrite end_bundle. apply wrap64_small. lia. Qed.

Lemma append_exact (b : bool) (a n : Z) (ma : MDMemoryAccess) :
  fits ma → sub_fits (mkSub b a n) →
  let ma' := append b a n ma in
  getExtendedStartAddr ma' = Z.min a (getExtendedStartAddr ma) ∧
  ExtendedSize (bundle_of ma') =
    Z.max (ExtendedSize (bundle_of ma))
          (a + n - getExtendedStartAddr ma') ∧
  fits ma'.
Proof.
  intros (H0 & H1 & H2) (Ha & Hn & Han). simpl in Ha, Hn, Han.
  cbv zeta. rewrite !start_bundle. unfold fits.
  assert (Hb : bundle_of (append b a n ma) =
    let BMA := bundle_of ma in
    let ExtAddr1 := if (a <? ExtendedAddr BMA)%Z then a else ExtendedAddr BMA in
    let NewEnd := wrap64 (a + n) in
    {| Accesses := Accesses BMA ++ [mkSub b a n];
       ExtendedAddr := ExtAddr1;
       ExtendedSize :=
         if (wrap64 (ExtAddr1 + ExtendedSize BMA) <? NewEnd)%Z
         then wrap64 (NewEnd - ExtAddr1) else ExtendedSize BMA |}) by done.
  rewrite Hb. simpl.
  set (A := ExtendedAddr (bundle_of ma)) in *.
  set (Sz := ExtendedSize (bundle_of ma)) in *.
  rewrite (wrap64_small (a + n)) by lia.
  destruct (Z.ltb_spec a A) as [Hlt|Hge].
  - rewrite (wrap64_small (a + Sz)) by lia.
    destruct (Z.ltb_spec (a + Sz) (a + n)).
    + rewrite (wrap64_small (a + n - a)) by lia. lia.
    + lia.
  - rewrite (wrap64_small (A + Sz)) by lia.
    destruct (Z.ltb_spec (A + Sz) (a + n)).
    + rewrite (wrap64_small (a + n - A)) by lia. lia.
    + lia.
Qed.

Lemma append_covers_new (b : bool) (a n : Z) (ma : MDMemoryAccess) :
  fits ma → sub_fits (mkSub b a n) →
  covers (append b a n ma) (mkSub b a n).
Proof.
  intros Hf Hs.
  destruct (append_exact b a n ma Hf Hs) as (Hst & Hsz & Hf').
  unfold covers. rewrite (end_fits _ Hf'), <- start_bundle.
  cbn [sub_Addr sub_Size]. lia.
Qed.

Lemma append_right_keeps ma b a n x :
  fits ma → sub_fits (mkSub b a n) →
  (getExtendedStartAddr ma <= a)%Z →
  covers ma x → covers (append b a n ma) x.
Proof.
  intros Hf Hs Hle [Hx1 Hx2].
  destruct (append_exact b a n ma Hf Hs) as (Hst & Hsz & Hf').
  unfold covers. rewrite (end_fits _ Hf'), <- start_bundle.
  rewrite (end_fits _ Hf), <- start_bundle in Hx2. lia.
Qed.

Lemma append_all_rightward calls : ∀ ma,
  fits ma →
  Forall (λ c, sub_fits c ∧ (getExtendedStartAddr ma <= sub_Addr c)%Z) calls →
  (∀ x, x ∈ sub_accesses ma → covers ma x) →
  fits (append_all calls ma) ∧
  getExtendedStartAddr (append_all calls ma) = getExtendedStartAddr ma ∧
  ∀ x, x ∈ sub_accesses (append_all calls ma) → covers (append_all calls ma) x.
Proof.
  unfold append_all.
  induction calls as [|c calls IH]; intros ma Hf Hall Hcov; simpl; [done|].
  apply Forall_cons in Hall as [[Hc Hle] Hall].
  destruct c as [cb ca cn]. simpl in *.
  destruct (append_exact cb ca cn ma Hf Hc) as (Hst & _ & Hf').
  assert (Hst' : getExtendedStartAddr (append cb ca cn ma) =
                 getExtendedStartAddr ma) by (simpl in Hst; lia).
  destruct (IH (append cb ca cn ma) Hf') as (IH1 & IH2 & IH3).
  - eapply Forall_impl; [exact Hall|]. intros c' [? ?]. by rewrite Hst'.
  - intros x. rewrite sub_accesses_append. intros [Hx|Hx]%elem_of_app.
    + by apply append_right_keeps; auto.
    + apply list_elem_of_singleton in Hx. subst x.
      by apply append_covers_new.
  - split; [done|]. split; [congruence|done].
Qed.

(** X1: within the address space, [append] sets the start of the extended
    interval to the minimum of the old start and the new address, and the
    size to the maximum of the old size and the distance from the new start
    to the new access's end: the size never shrinks, and the interval stays
    within the address space. *)
Theorem append_extended_exact (b : bool) (a n : Z) (ma : MDMemoryAccess) :
  fits ma → sub_fits (mkSub b a n) →
  let ma' := append b a n ma in
  getExtendedStartAddr ma' = Z.min a (getExtendedStartAddr ma) ∧
  ExtendedSize (bundle_of ma') =
    Z.max (ExtendedSize (bundle_of ma))
          (a + n - getExtendedStartAddr ma') ∧
  fits ma'.
Proof. apply append_exact. Qed.

(** X2: the access just appended always lies within the extended interval:
    the start is at or below its address and the end at or above its end. *)
Theorem append_covers_new_access (b : bool) (a n : Z) (ma : MDMemoryAccess) :
  fits ma → sub_fits (mkSub b a n) →
  covers (append b a n ma) (mkSub b a n).
Proof. apply append_covers_new. Qed.

(** X3: when no appended access starts to the left of the original address
    (and all accesses lie within the address space), the extended interval
    keeps its start and covers every sub-access, the original one
    included. *)
Theorem append_all_rightward_covers (calls : list SubAccess)
    (ma : MDMemoryAccess) :
  BundledMAs ma = None →
  sub_fits (mkSub (IsStore ma) (Addr ma) (Size ma)) →
  Forall (λ c, sub_fits c ∧ (Addr ma <= sub_Addr c)%Z) calls →
  getExtendedStartAddr (append_all calls ma) = Addr ma ∧
  ∀ x, x ∈ sub_accesses (append_all calls ma) →
       covers (append_all calls ma) x.
Proof.
  intros Hnb (H0 & H1 & H2) Hall. simpl in H0, H1, H2.
  assert (Hst : getExtendedStartAddr ma = Addr ma).
  { unfold getExtendedStartAddr. by rewrite Hnb. }
  assert (Hf : fits ma).
  { unfold fits, bundle_of. rewrite Hnb. simpl. done. }
  destruct (append_all_rightward calls ma Hf) as (_ & Hs & Hc).
  - by rewrite Hst.
  - intros x. unfold sub_accesses, covers. rewrite Hnb, (end_fits _ Hf), Hst.
    unfold bundle_of. rewrite Hnb. simpl.
    intros ->%list_elem_of_singleton. simpl. lia.
  - split; [congruence|done].
Qed.

(** X4: for a descriptor without a bundle whose fields are within their C++
    ranges, the extended end is below the extended start exactly when
    [Addr + Size] overflows 64 bits. *)
Theorem extended_end_wraps (ma : MDMemoryAccess) :
  BundledMAs ma = None →
  (0 <= Addr ma < 2 ^ 64)%Z → (0 <= Size ma < 2 ^ 32)%Z →
  (getExtendedEndAddr ma < getExtendedStartAddr ma)%Z ↔
  (2 ^ 64 <= Addr ma + Size ma)%Z.
Proof.
  intros Hnb Ha Hs. unfold getExtendedEndAddr, getExtendedStartAddr.
  rewrite Hnb. unfold wrap64.
  destruct (Z_lt_le_dec (Addr ma + Size ma) (2 ^ 64)) as [Hlt|Hge].
  - rewrite Z.mod_small by lia. lia.
  - replace (Addr ma + Size ma)%Z
      with ((Addr ma + Size ma - 2 ^ 64) + 1 * 2 ^ 64)%Z by lia.
    rewrite Z.mod_add by lia. rewrite Z.mod_small by lia. lia.
Qed.

End ExtendedInterval.

(** ** Queue accounting under the availability check *)

Section Availability.

Implicit Types (st : LSUnit) (IR : Instruction) (g k : N).

(** X5: a freshly constructed unit stalls no instruction, whatever the queue
    sizes it was constructed with. *)
Theorem fresh_unit_available (SM : MCSchedModel) (LQ SQ : N) (na : bool)
    (MDR : option (gmap N MD.MDMemoryAccess)) (IR : Instruction) :
  isAvailable IR (LSUnit_new SM LQ SQ na MDR) = LSU_AVAILABLE.
Proof.
  unfold isAvailable, isLQFull, isSQFull.
  set (st := LSUnit_new SM LQ SQ na MDR).
  assert (HL : UsedLQEntries st = 0%N) by done.
  assert (HS : UsedSQEntries st = 0%N) by done.
  rewrite HL, HS.
  assert (Hfull : ∀ n : N, negb (n =? 0)%N && (0 =? n)%N = false).
  { intros n. by destruct n. }
  by rewrite !Hfull, !andb_false_r.
Qed.

Lemma available_room IR st :
  isAvailable IR st = LSU_AVAILABLE →
  (MayLoad (getDesc IR) = true → LQSize st ≠ 0%N →
   UsedLQEntries st ≠ LQSize st) ∧
  (is_store st IR = true → SQSize st ≠ 0%N →
   UsedSQEntries st ≠ SQSize st).
Proof.
  unfold isAvailable, is_store, isLQFull, isSQFull.
  destruct (MayLoad (getDesc IR));
    destruct (isStore (getDesc IR) (getMemoryAccessMD st IR)); simpl;
    destruct (N.eqb_spec (LQSize st) 0);
    destruct (N.eqb_spec (UsedLQEntries st) (LQSize st));
    destruct (N.eqb_spec (SQSize st) 0);
    destruct (N.eqb_spec (UsedSQEntries st) (SQSize st)); simpl;
    intros H; try discriminate H; split; intros; congruence.
Qed.

Lemma executed_sizes IR st st' :
  onInstructionExecuted IR st = Some st' →
  LQSize st' = LQSize st ∧ SQSize st' = SQSize st ∧
  NoAlias st' = NoAlias st.
Proof.
  unfold onInstructionExecuted. intros H.
  destruct (isMemOp IR); simpl in H; [|by simplify_eq].
  destruct (LSUnitBase_onInstructionExecuted IR st) as [st1|] eqn:Hb; [|done].
  simpl in H.
  destruct (base_executed_effect IR st st1 Hb) as (F & _).
  apply frame_fields in F as (F1 & F2 & _ & _ & F3 & _).
  destruct (isValidGroupID st1 (getLSUTokenID IR)); by simplify_eq/=.
Qed.

Lemma retired_sizes IR st st' :
  onInstructionRetired IR st = Some st' →
  LQSize st' = LQSize st ∧ SQSize st' = SQSize st.
Proof.
  unfold onInstructionRetired, releaseLQSlot, releaseSQSlot. intros H.
  destruct (MayLoad (getDesc IR)),
    (isStore (getDesc IR) (getMemoryAccessMD st IR)); simpl in H; try done;
    repeat match type of H with
           | context [(0 <? ?x)%N] =>
               destruct (N.ltb_spec 0 x); simpl in H; [|done]
           end;
    by simplify_eq.
Qed.

Lemma step_checked_bounded e st st' :
  wf st → queue_bounded st → step_checked e st = Some st' →
  queue_bounded st'.
Proof.
  intros Hwf [HL HS] H. unfold queue_bounded.
  destruct e as [IR|IR|IR|IR|]; simpl in H.
  - destruct (isAvailable IR st) eqn:Hav; try done.
    destruct (available_room _ _ Hav) as [RL RS].
    destruct (dispatch IR st) as [[st2 g]|] eqn:E; simplify_eq/=.
    destruct (dispatch_grows _ _ _ _ Hwf E)
      as (_ & _ & _ & _ & _ & _ & (-> & -> & _ & _ & -> & ->)).
    split; intros Hs.
    + destruct (MayLoad (getDesc IR)); [|specialize (HL Hs); lia].
      specialize (HL Hs). specialize (RL eq_refl Hs). lia.
    + destruct (is_store st IR); [|specialize (HS Hs); lia].
      specialize (HS Hs). specialize (RS eq_refl Hs). lia.
  - unfold onInstructionIssued in H.
    destruct (getGroup st (getLSUTokenID IR)); by simplify_eq/=.
  - destruct (executed_sizes _ _ _ H) as (-> & -> & _).
    destruct (executed_counters _ _ _ H) as [-> ->]. done.
  - destruct (retired_sizes _ _ _ H) as [-> ->].
    destruct (retired_effect _ _ _ H) as (_ & EL & ES).
    split; intros Hs; [specialize (HL Hs)|specialize (HS Hs)]; lia.
  - by simplify_eq.
Qed.

Lemma step_checked_step e st st' :
  step_checked e st = Some st' → step e st = Some st'.
Proof.
  destruct e; simpl; try done. by destruct (isAvailable IR st).
Qed.

(** X6: when [isAvailable] is consulted before every [dispatch] and
    [dispatch] is called only on the verdict available, a queue of non-zero
    size never holds more entries than its size, through any sequence of
    operations from construction. *)
Theorem queues_never_overflow (SM : MCSchedModel) (LQ SQ : N) (na : bool)
    (MDR : option (gmap N MD.MDMemoryAccess)) (evs : list Event)
    (st : LSUnit) :
  run_checked evs (LSUnit_new SM LQ SQ na MDR) = Some st →
  queue_bounded st.
Proof.
  assert (Hgen : ∀ evs st0 st1, wf st0 → queue_bounded st0 →
            run_checked evs st0 = Some st1 → queue_bounded st1).
  { clear. induction evs as [|e evs IH]; intros st0 st1 Hwf Hq H; simpl in H.
    - by simplify_eq.
    - destruct (step_checked e st0) as [st2|] eqn:E; [|done]. simpl in H.
      eapply IH; [| |exact H].
      + eapply step_wf; [done|]. by apply step_checked_step.
      + by eapply step_checked_bounded. }
  apply Hgen; [apply wf_new|].
  split; intros _; simpl; lia.
Qed.

(** X7: when a load is stalled on a full load queue, retiring any load makes
    room: the same load is no longer stalled on the load queue. *)
Theorem retire_unblocks_load (IR IR' : Instruction) (st st' : LSUnit) :
  isAvailable IR st = LSU_LQUEUE_FULL →
  MayLoad (getDesc IR') = true →
  onInstructionRetired IR' st = Some st' →
  isAvailable IR st' ≠ LSU_LQUEUE_FULL.
Proof.
  intros Hfull Hld Hret.
  destruct (retired_sizes _ _ _ Hret) as [HLs HSs].
  destruct (retired_effect _ _ _ Hret) as (_ & EL & _). rewrite Hld in EL.
  revert Hfull. unfold isAvailable, isLQFull, isSQFull. rewrite HLs.
  destruct (MayLoad (getDesc IR)); simpl.
  - destruct (N.eqb_spec (LQSize st) 0) as [E0|E0]; simpl.
    + intros _. by repeat case_match.
    + destruct (N.eqb_spec (UsedLQEntries st) (LQSize st)) as [E1|E1]; simpl.
      * intros _.
        destruct (N.eqb_spec (UsedLQEntries st') (LQSize st)) as [E2|E2];
          [lia|]. simpl. by repeat case_match.
      * intros H. by repeat case_match.
  - intros H. by repeat case_match.
Qed.

(** X8: on a well-formed state, [dispatch] fails exactly on instructions
    whose descriptor neither may load nor may store; metadata marking such
    an instruction as a store does not make it dispatchable. *)
Theorem dispatch_succeeds_iff_memop (IR : Instruction) (st : LSUnit) :
  wf st →
  (is_Some (dispatch IR st) ↔
   MayLoad (getDesc IR) = true ∨ MayStore (getDesc IR) = true).
Proof.
  intros Hwf. split.
  - intros [r Hr]. apply dispatch_Some_memop in Hr. unfold isMemOp in Hr.
    by apply orb_true_iff in Hr.
  - intros H. apply dispatch_total; [done|]. unfold isMemOp.
    by apply orb_true_iff.
Qed.

End Availability.

(** ** The life of a group and the shape of the dependency graph *)

Section GroupLife.

Implicit Types (st : LSUnit) (IR : Instruction) (g k : N).

Lemma base_executed_other IR st st1 k :
  LSUnitBase_onInstructionExecuted IR st = Some st1 →
  k ≠ getLSUTokenID IR → live st k → live st1 k.
Proof.
  intros Hb Hne Hl.
  destruct (base_executed_effect IR st st1 Hb) as (_ & _ & Hv & _).
  unfold live in *. eapply lookup_is_Some_fmap; [|exact Hl]. by apply Hv.
Qed.

(** X9: a live group leaves the table only through [onInstructionExecuted]
    of a memory operation stamped with that group's ID; [dispatch],
    [onInstructionRetired], [cycleEvent] and the issue notification never
    remove a group. *)
Theorem group_leaves_only_when_executed (e : Event) (st st' : LSUnit)
    (k : N) :
  wf st → step e st = Some st' → live st k → ¬ live st' k →
  ∃ IR, e = EvExecuted IR ∧ getLSUTokenID IR = k ∧ isMemOp IR = true.
Proof.
  intros Hwf H Hl Hgone.
  assert (Hq : ∀ st2, quiet_step st st2 None → live st2 k).
  { intros st2 (_ & _ & _ & _ & _ & _ & _ & L & _).
    by destruct (L k Hl). }
  destruct e as [IR|IR|IR|IR|]; simpl in H.
  - destruct (dispatch IR st) as [[st2 g]|] eqn:E; simplify_eq/=.
    destruct (dispatch_grows _ _ _ _ Hwf E) as (_ & _ & _ & _ & L & _).
    by destruct (Hgone (L k Hl)).
  - by destruct (Hgone (Hq _ (issued_effect _ _ _ H))).
  - exists IR. split; [done|].
    unfold onInstructionExecuted in H.
    destruct (isMemOp IR) eqn:Hmem; simpl in H; [|by simplify_eq].
    destruct (LSUnitBase_onInstructionExecuted IR st) as [st1|] eqn:Hb;
      [|done].
    simpl in H. split; [|done].
    destruct (decide (k = getLSUTokenID IR)) as [->|Hne]; [done|].
    exfalso. apply Hgone.
    pose proof (base_executed_other _ _ _ _ Hb Hne Hl) as Hl1.
    destruct (isValidGroupID st1 (getLSUTokenID IR)); by simplify_eq/=.
  - destruct (retired_effect _ _ _ H) as (Hquiet & _).
    by destruct (Hgone (Hq _ Hquiet)).
  - simplify_eq. by destruct (Hgone (Hq _ (cycle_effect st))).
Qed.

(** X10: [onInstructionExecuted] leaves the queue sizes, the queue counters,
    the alias flag, the registry and the ID counter alone, and each current
    pointer afterwards is either unchanged or 0; it is cleared only if it
    held the token of the executed instruction. *)
Theorem executed_touches_table_and_pointers (IR : Instruction)
    (st st' : LSUnit) :
  onInstructionExecuted IR st = Some st' →
  (LQSize st' = LQSize st ∧ SQSize st' = SQSize st ∧
   UsedLQEntries st' = UsedLQEntries st ∧
   UsedSQEntries st' = UsedSQEntries st ∧
   NoAlias st' = NoAlias st ∧ MDRegistry st' = MDRegistry st ∧
   NextGroupID st' = NextGroupID st) ∧
  kept_or_cleared (getLSUTokenID IR)
    (CurrentLoadGroupID st) (CurrentLoadGroupID st') ∧
  kept_or_cleared (getLSUTokenID IR)
    (CurrentStoreGroupID st) (CurrentStoreGroupID st') ∧
  kept_or_cleared (getLSUTokenID IR)
    (CurrentLoadBarrierGroupID st) (CurrentLoadBarrierGroupID st') ∧
  kept_or_cleared (getLSUTokenID IR)
    (CurrentStoreBarrierGroupID st) (CurrentStoreBarrierGroupID st').
Proof.
  intros H.
  destruct (executed_sizes _ _ _ H) as (HL & HS & HNA).
  destruct (executed_counters _ _ _ H) as [HUL HUS].
  split.
  - destruct (executed_effect _ _ _ H) as (c & HN & HR & _). done.
  - unfold onInstructionExecuted in H. unfold kept_or_cleared.
    destruct (isMemOp IR); simpl in H.
    2:{ simplify_eq. repeat split; by left. }
    destruct (LSUnitBase_onInstructionExecuted IR st) as [st1|] eqn:Hb;
      [|done].
    simpl in H.
    destruct (base_executed_effect IR st st1 Hb) as (F & _).
    apply frame_fields in F
      as (_ & _ & _ & _ & _ & _ & _ & FCL & FCS & FCLB & FCSB).
    assert (Hclr : ∀ p, (if (getLSUTokenID IR =? p)%N then 0%N else p) = p ∨
                        ((if (getLSUTokenID IR =? p)%N then 0%N else p) = 0%N
                         ∧ p = getLSUTokenID IR)).
    { intros p. destruct (N.eqb_spec (getLSUTokenID IR) p); auto. }
    destruct (isValidGroupID st1 (getLSUTokenID IR)); simpl in H;
      simplify_eq.
    + repeat split; left; congruence.
    + simpl. rewrite FCL, FCS, FCLB, FCSB. repeat split; apply Hclr.
Qed.

Lemma dispatch_edges_up IR st st' g :
  wf st → edges_up st → dispatch IR st = Some (st', g) → edges_up st'.
Proof.
  intros Hwf Hup E.
  pose proof Hwf as (_ & Hk & (HL & HS & HB & HSB) & _).
  assert (Hlt : ∀ p, ptr_ok st p → p ≠ 0%N → (p < NextGroupID st)%N).
  { intros p [->|Hp] Hne; [done|]. apply Hk in Hp. lia. }
  assert (Hdom : load_dominator st ≠ 0%N →
                 (load_dominator st < NextGroupID st)%N).
  { intros Hne. pose proof (wf_dom_live st Hwf Hne) as Hl.
    apply Hk in Hl. unfold load_dominator. lia. }
  destruct (dispatch_outcome IR st Hwf (dispatch_Some_memop _ _ _ E))
    as (st2 & g2 & E2 & _ & Hcases).
  rewrite E in E2. simplify_eq.
  destruct Hcases
    as [(_ & (added & Ho & Hadd & _) & _)
       |[(_ & _ & Ho & _)
        |(_ & _ & -> & _ & (G & HG & Heq) & _)]].
  - destruct Ho as (-> & _ & _ & S & _).
    intros a b [f [Hold|[-> Ha]]%S]; [apply Hup; by exists f|].
    destruct (Hadd _ _ Ha) as [Hne [->|[->| ->]]]; auto.
  - destruct Ho as (-> & _ & _ & S & _).
    intros a b [f [Hold|[-> [_ Ha]]]%S]; [apply Hup; by exists f|].
    destruct Ha as [(Hne & -> & _)|(Hne & ->)]; [by auto|].
    destruct (isALoadBarrier IR); auto.
  - destruct (extend_effect _ _ _ _ _ HG Heq) as (_ & S & _).
    intros a b [f Hf%S]. apply Hup. by exists f.
Qed.

Lemma step_edges_up e st st' :
  wf st → edges_up st → step e st = Some st' → edges_up st'.
Proof.
  intros Hwf Hup H.
  assert (Hd : is_dispatch e ∨ ¬ is_dispatch e) by (destruct e; simpl; tauto).
  destruct Hd as [Hd|Hd].
  - destruct e; try done. simpl in H.
    destruct (dispatch IR st) as [[st2 g]|] eqn:E; simplify_eq/=.
    by eapply dispatch_edges_up.
  - destruct (step_quiet _ _ _ Hd H)
      as (c & _ & _ & _ & _ & _ & _ & _ & _ & S & _).
    intros a b [f Hf%S]. apply Hup. by exists f.
Qed.

Lemma run_edges_up evs : ∀ st st',
  wf st → edges_up st → run evs st = Some st' → edges_up st'.
Proof.
  induction evs as [|e evs IH]; intros st st' Hwf Hup H; simpl in H.
  - by simplify_eq.
  - destruct (step e st) as [st1|] eqn:E; [|done]. simpl in H.
    eapply IH; [| |exact H]; [by eapply step_wf|by eapply step_edges_up].
Qed.

Lemma reachable_up st g h : edges_up st → reachable st g h → (g < h)%N.
Proof.
  intros Hup. induction 1 as [x y He|x y z He _ IH].
  - by apply Hup.
  - apply Hup in He. lia.
Qed.

(** X11: through any sequence of operations from construction, every edge
    goes from an older group to a younger one (smaller ID to larger ID), so
    the dependency graph is acyclic: no group is reachable from itself. *)
Theorem dependency_graph_acyclic (SM : MCSchedModel) (LQ SQ : N) (na : bool)
    (MDR : option (gmap N MD.MDMemoryAccess)) (evs : list Event)
    (st : LSUnit) :
  run evs (LSUnit_new SM LQ SQ na MDR) = Some st →
  (∀ g h, reachable st g h → (g < h)%N) ∧ (∀ g, ¬ reachable st g g).
Proof.
  intros Hrun.
  assert (Hup : edges_up st).
  { eapply run_edges_up; [apply wf_new| |exact Hrun].
    intros g h (f & G & HG & _). simpl in HG. by rewrite lookup_empty in HG. }
  split.
  - intros g h. by apply reachable_up.
  - intros g Hr. apply (reachable_up _ _ _ Hup) in Hr. lia.
Qed.

(** X12: through any sequence of operations from construction, the ID that
    [dispatch] returns is never 0 and is a valid group ID right after the
    dispatch; group 0 is never live. *)
Theorem dispatch_returns_valid_id (SM : MCSchedModel) (LQ SQ : N) (na : bool)
    (MDR : option (gmap N MD.MDMemoryAccess)) (evs : list Event)
    (IR : Instruction) (st st' : LSUnit) (g : N) :
  run evs (LSUnit_new SM LQ SQ na MDR) = Some st →
  dispatch IR st = Some (st', g) →
  g ≠ 0%N ∧ isValidGroupID st' g = true ∧ ¬ live st' 0.
Proof.
  intros Hrun E.
  pose proof (run_wf _ _ _ (wf_new SM LQ SQ na MDR) Hrun) as Hwf.
  destruct (dispatch_grows _ _ _ _ Hwf E) as ((_ & Hk & _) & Hl & _).
  assert (Hg : g ≠ 0%N) by (apply Hk in Hl; lia).
  split; [done|]. split.
  - unfold isValidGroupID. apply andb_true_iff. split.
    + by apply negb_true_iff, N.eqb_neq.
    + by apply bool_decide_eq_true.
  - intros H0%Hk. lia.
Qed.

Lemma dispatch_consecutive_le IR1 IR2 st st1 st2 g1 g2 :
  wf st → dispatch IR1 st = Some (st1, g1) →
  dispatch IR2 st1 = Some (st2, g2) → (g1 <= g2)%N.
Proof.
  intros Hwf E1 E2.
  destruct (dispatch_grows _ _ _ _ Hwf E1) as (Hwf1 & _ & Hlt & _).
  destruct (dispatch_outcome IR2 st1 Hwf1 (dispatch_Some_memop _ _ _ E2))
    as (st2' & g2' & E2' & _ & Hcases2).
  rewrite E2 in E2'. simplify_eq.
  destruct Hcases2
    as [(_ & (added & (-> & _) & _) & _)
       |[(_ & _ & (-> & _) & _)
        |(_ & Hc2 & -> & _)]]; [lia|lia|].
  destruct (dispatch_outcome IR1 st Hwf (dispatch_Some_memop _ _ _ E1))
    as (st1x & g1x & E1' & _ & Hcases1).
  rewrite E1 in E1'. simplify_eq.
  destruct Hcases1
    as [(_ & _ & PCS & _)
       |[(_ & _ & _ & _ & _ & PCL & _)
        |(_ & _ & -> & _ & _ & _ & _ & PCL & _)]].
  - destruct (N.le_gt_cases g1x (CurrentLoadGroupID st1x)) as [?|Hgt];
      [done|].
    exfalso. apply Hc2. unfold new_group_condition.
    destruct (N.max_spec (CurrentLoadGroupID st1x)
                (CurrentLoadBarrierGroupID st1x)) as [[_ ->]|[_ ->]].
    + do 2 right. by left.
    + do 3 right. left. lia.
  - lia.
  - lia.
Qed.

(** X13: in a run of dispatches from a well-formed state the returned group
    IDs never decrease: each instruction lands in the group of the previous
    one or in a younger group. *)
Theorem dispatch_ids_monotone (IRs : list Instruction) (st st' : LSUnit)
    (gs : list N) :
  wf st → dispatch_all IRs st = Some (st', gs) →
  ∀ i g h, gs !! i = Some g → gs !! S i = Some h → (g <= h)%N.
Proof.
  revert st st' gs.
  induction IRs as [|IR IRs IH]; intros st st' gs Hwf H i g h Hg Hh;
    simpl in H.
  - by simplify_eq.
  - destruct (dispatch IR st) as [[st1 g1]|] eqn:E; [|done]. simpl in H.
    destruct (dispatch_all IRs st1) as [[st2 gs']|] eqn:E'; [|done].
    simpl in H. simplify_eq.
    destruct (dispatch_grows _ _ _ _ Hwf E) as (Hwf1 & _).
    destruct i as [|i]; simpl in Hg, Hh.
    + simplify_eq. destruct IRs as [|IR2 IRs]; simpl in E'; [by simplify_eq|].
      destruct (dispatch IR2 st1) as [[st3 g3]|] eqn:E3; [|done].
      simpl in E'.
      destruct (dispatch_all IRs st3) as [[st4 gs4]|]; [|done].
      simpl in E'. simplify_eq. simpl in Hh. simplify_eq.
      exact (dispatch_consecutive_le _ _ _ _ _ _ _ Hwf E E3).
    + by eapply (IH st1 st' gs' Hwf1 E' i).
Qed.

End GroupLife.

(** ** The predecessors of a new group *)

Section NewGroupEdges.

Implicit Types (st : LSUnit) (IR : Instruction) (g k : N).

Lemma noAlias_same st st' g MDA :
  NoAlias st' = NoAlias st → mem_of st' g = mem_of st g →
  noAlias st' g MDA = noAlias st g MDA.
Proof. intros HN Hm. rewrite !noAlias_view, Hm. by rewrite HN. Qed.

Lemma wf_ptr_lt st p :
  wf st → ptr_ok st p → p ≠ 0%N → live st p ∧ (p < NextGroupID st)%N.
Proof.
  intros (_ & Hk & _) [->|Hl] Hne; [done|]. split; [done|].
  apply Hk in Hl. lia.
Qed.

Lemma noAlias_opened st0 st IR MDA g :
  st0 = acquire_slots IR st → (g < NextGroupID st)%N →
  noAlias (opened MDA st0) g MDA = noAlias st g MDA.
Proof.
  intros -> Hlt.
  destruct (acquire_slots_frame IR st) as (HG & HN & _ & HNA & _).
  apply noAlias_same; [by simpl|].
  unfold mem_of. fold (view MG.MemAccesses (opened MDA (acquire_slots IR st)) g).
  rewrite opened_view_ne by (rewrite HN; lia). unfold view. by rewrite HG.
Qed.

Lemma noAlias_wired st2 st4 tgt added g MDA :
  wiring st2 st4 tgt added → noAlias st4 g MDA = noAlias st2 g MDA.
Proof.
  intros (F & _ & V & _). apply noAlias_same.
  - by apply frame_fields in F as (_ & _ & _ & _ & ? & _).
  - unfold mem_of. fold (view MG.MemAccesses st4 g).
    by rewrite (V _ _ blind_MemAccesses).
Qed.

(** The store branch, with the edges it wires spelled out. *)
Lemma dispatch_store_exact IR st :
  wf st → is_store st IR = true → isMemOp IR = true →
  ∃ st',
    dispatch IR st = Some (st', NextGroupID st) ∧
    opens_group st st' (NextGroupID st) (getMemoryAccessMD st IR)
      (store_edge st (getMemoryAccessMD st IR)).
Proof.
  intros Hwf Hst Hmem.
  set (MDA := getMemoryAccessMD st IR).
  set (st0 := acquire_slots IR st).
  pose proof (wf_acquire_slots IR st Hwf) as Hwf0. fold st0 in Hwf0.
  destruct (acquire_slots_frame IR st)
    as (HG & HN & HR & HNA & _ & _ & HCL & HCS & HCLB & HCSB).
  fold st0 in HG, HN, HR, HNA, HCL, HCS, HCLB, HCSB.
  pose proof Hwf as (_ & _ & (HL & HS & HB & HSB) & _).
  unfold dispatch. unfold isMemOp in Hmem. rewrite Hmem. simpl.
  fold MDA. fold st0. unfold is_store in Hst. fold MDA in Hst. rewrite Hst.
  unfold dispatch_store, createMemoryGroup. simpl.
  rewrite create_then_add. simpl.
  rewrite HN, HCL, HCLB, HCS, HCSB.
  fold (load_dominator st).
  set (dom := load_dominator st). set (g := NextGroupID st).
  set (st2 := opened MDA st0).
  assert (Hdom : dom ≠ 0%N → live st dom ∧ (dom < g)%N).
  { intros Hne. pose proof (wf_dom_live st Hwf Hne) as Hl. split; [done|].
    destruct Hwf as (_ & Hk & _). apply Hk in Hl.
    unfold g, dom, load_dominator. lia. }
  assert (Hlive2 : ∀ k, live st k → live st2 k).
  { intros k Hk. apply live_opened. unfold live. by rewrite HG. }
  destruct (wire_alias (negb (dom =? 0)%N) dom g (noAlias st2 dom MDA) st2)
    as (st3 & -> & W3).
  { intros Hc%negb_true_iff%N.eqb_neq.
    assert (live st2 dom) by (apply Hlive2; by apply Hdom).
    split; [done|]. by apply noAlias_total. }
  simpl.
  destruct (wire_struct (negb (CurrentStoreBarrierGroupID st =? 0)%N)
              (CurrentStoreBarrierGroupID st) g st3) as (st4 & -> & W4).
  { intros Hc%negb_true_iff%N.eqb_neq. apply W3, Hlive2.
    by apply wf_ptr_lt. }
  simpl.
  destruct (wire_alias
              (negb (CurrentStoreGroupID st =? 0)%N &&
               negb (CurrentStoreGroupID st =? CurrentStoreBarrierGroupID st)%N)
              (CurrentStoreGroupID st) g
              (noAlias st4 (CurrentStoreGroupID st) MDA) st4)
    as (st5 & -> & W5).
  { intros [Hc%negb_true_iff%N.eqb_neq _]%andb_true_iff.
    assert (live st4 (CurrentStoreGroupID st)).
    { apply W4, W3, Hlive2. by apply wf_ptr_lt. }
    split; [done|]. by apply noAlias_total. }
  simpl. eexists. split; [done|].
  pose proof (wiring_trans _ _ _ _ _ _ (wiring_trans _ _ _ _ _ _ W3 W4) W5)
    as W.
  destruct (store_pointers_fields IR g st5) as ((PG & PN & _) & _).
  eapply (opens_group_of_wiring IR MDA st st5); [done| |done|done].
  eapply wiring_iff; [|exact W]. simpl. intros a f.
  assert (Hna4 : noAlias st4 (CurrentStoreGroupID st) MDA =
                 noAlias st2 (CurrentStoreGroupID st) MDA).
  { rewrite (noAlias_wired _ _ _ _ _ _ W4).
    by rewrite (noAlias_wired _ _ _ _ _ _ W3). }
  unfold store_edge. fold dom. rewrite Hna4.
  rewrite andb_true_iff, !negb_true_iff, !N.eqb_neq.
  split.
  - intros [[(Hc & -> & Hn)|(Hc & -> & ->)]|((Hc1 & Hc2) & -> & Hn)].
    + left. split; [done|]. split; [done|].
      rewrite <- Hn. symmetry.
      apply (noAlias_opened st0 st IR); [done|]. by apply Hdom.
    + right. left. done.
    + right. right. split; [done|]. split; [done|]. split; [done|].
      rewrite <- Hn. symmetry.
      apply (noAlias_opened st0 st IR); [done|]. by apply wf_ptr_lt.
  - intros [(-> & Hc & Hn)|[(-> & Hc & ->)|(-> & Hc1 & Hc2 & Hn)]].
    + left. left. split; [done|]. split; [done|].
      rewrite <- Hn. apply (noAlias_opened st0 st IR); [done|].
      by apply Hdom.
    + left. right. done.
    + right. split; [done|]. split; [done|].
      rewrite <- Hn. apply (noAlias_opened st0 st IR); [done|].
      by apply wf_ptr_lt.
Qed.

Lemma opens_group_preds st st' g MDA added :
  wf st → opens_group st st' g MDA added →
  ∀ a f, has_succ st' a g f ↔ added a f.
Proof.
  intros Hwf (-> & _ & _ & S & _) a f. rewrite S. split.
  - intros [Hold|[_ ?]]; [|done]. exfalso.
    destruct Hwf as (_ & _ & _ & He).
    assert (NextGroupID st < NextGroupID st)%N;
      [apply (He a); by exists f|lia].
  - intros ?. by right.
Qed.

(** The new-group branch of the load path, with the edges it wires. *)
Lemma dispatch_new_load_exact IR st :
  wf st → pure_load st IR → new_group_condition IR st →
  ∃ st',
    dispatch IR st = Some (st', NextGroupID st) ∧
    opens_group st st' (NextGroupID st) (getMemoryAccessMD st IR)
      (load_edge IR st (getMemoryAccessMD st IR)).
Proof.
  intros Hwf Hp Hc.
  destruct (dispatch_outcome IR st Hwf (pure_load_memop _ _ Hp))
    as (st' & g & E & _ & Hcases).
  destruct Hcases
    as [(Hst & _)|[(_ & _ & Ho & _)|(_ & Hn & _)]].
  - by destruct (pure_load_not_store _ _ Hp Hst).
  - pose proof Ho as (-> & _). exists st'. split; [done|]. exact Ho.
  - done.
Qed.

(** X14: the group that a store opens has as predecessors exactly: the load
    dominator [max(current_load, current_load_barrier)] when there is one,
    the current store barrier when there is one, and the current store
    group when there is one and it is not the store barrier.  The edge from
    the store barrier is always a data dependency; the other two are data
    dependencies exactly when [noAlias] answers false, and ordering-only
    edges otherwise. *)
Theorem store_group_predecessors (IR : Instruction) (st : LSUnit) :
  wf st → is_store st IR = true → isMemOp IR = true →
  ∃ st' g,
    dispatch IR st = Some (st', g) ∧
    ∀ a f, has_succ st' a g f ↔ store_edge st (getMemoryAccessMD st IR) a f.
Proof.
  intros Hwf Hst Hmem.
  destruct (dispatch_store_exact IR st Hwf Hst Hmem) as (st' & E & Ho).
  exists st', (NextGroupID st). split; [done|].
  by apply (opens_group_preds _ _ _ _ _ Hwf Ho).
Qed.

(** X15: the group that a pure load opens has as predecessors exactly: the
    current store group when there is one and [noAlias] answers false, and
    the structural predecessor when there is one (the load dominator for a
    load barrier, the current load barrier otherwise).  Every such edge is
    flagged as a data dependency; the current store barrier plays no part. *)
Theorem load_group_predecessors (IR : Instruction) (st : LSUnit) :
  wf st → pure_load st IR → new_group_condition IR st →
  ∃ st' g,
    dispatch IR st = Some (st', g) ∧
    ∀ a f, has_succ st' a g f ↔ load_edge IR st (getMemoryAccessMD st IR) a f.
Proof.
  intros Hwf Hp Hc.
  destruct (dispatch_new_load_exact IR st Hwf Hp Hc) as (st' & E & Ho).
  exists st', (NextGroupID st). split; [done|].
  by apply (opens_group_preds _ _ _ _ _ Hwf Ho).
Qed.

(** X16: without memory-access metadata for the instruction (no registry, or
    no token), a pure load that opens a group while a store group is current
    is wired after that store group when the unit was constructed with
    [AssumeNoAlias = false]; with [AssumeNoAlias = true] the store group
    precedes it only as its structural predecessor. *)
Theorem load_after_store_without_metadata (IR : Instruction) (st : LSUnit) :
  wf st → pure_load st IR → new_group_condition IR st →
  getMemoryAccessMD st IR = None →
  CurrentStoreGroupID st ≠ 0%N →
  ∃ st' g,
    dispatch IR st = Some (st', g) ∧
    (NoAlias st = false → has_succ st' (CurrentStoreGroupID st) g true) ∧
    (NoAlias st = true →
     (edge st' (CurrentStoreGroupID st) g ↔
      CurrentStoreGroupID st = structural_pred IR st)).
Proof.
  intros Hwf Hp Hc Hmd Hcs.
  destruct (dispatch_new_load_exact IR st Hwf Hp Hc) as (st' & E & Ho).
  exists st', (NextGroupID st). split; [done|].
  pose proof (opens_group_preds _ _ _ _ _ Hwf Ho) as Hpreds.
  rewrite Hmd in Hpreds. unfold load_edge, noAlias, assumeNoAlias in Hpreds.
  split.
  - intros Hna. apply Hpreds. split; [done|]. left. by rewrite Hna.
  - intros Hna. split.
    + intros [f [_ [(_ & _ & Hf)|(_ & Heq)]]%Hpreds]; [congruence|done].
    + intros Heq. exists true. apply Hpreds. split; [done|]. right.
      split; [congruence|done].
Qed.

End NewGroupEdges.

(** ** Stores are ordered after everything older *)

Section StoreOrder.

Implicit Types (st : LSUnit) (IR : Instruction) (g k : N).

Lemma blind_NumExecuting : wiring_blind MG.NumExecuting.
Proof. by split. Qed.

Lemma nexec_addMemAccess MDA G :
  MG.NumExecuting (MG.addMemAccess MDA G) = MG.NumExecuting G.
Proof. by destruct MDA. Qed.

Lemma quiescent_not_executing st k G :
  quiescent st → Groups st !! k = Some G → MG.isExecuting G = false.
Proof.
  intros Hq HG. unfold MG.isExecuting.
  rewrite (Hq k (MG.NumExecuting G)); [by rewrite andb_false_r|].
  unfold view. by rewrite HG.
Qed.

Lemma quiescent_dispatch IR st st' g :
  wf st → quiescent st → dispatch IR st = Some (st', g) → quiescent st'.
Proof.
  intros Hwf Hq E.
  destruct (dispatch_outcome IR st Hwf (dispatch_Some_memop _ _ _ E))
    as (st2 & g2 & E2 & _ & Hcases).
  rewrite E in E2. simplify_eq.
  assert (Hopen : ∀ MDA added, opens_group st st2 g2 MDA added →
                                quiescent st2).
  { intros MDA added (_ & _ & _ & _ & V & Vg) k n Hk.
    destruct (decide (k = g2)) as [->|Hne].
    - rewrite (Vg _ _ blind_NumExecuting) in Hk.
      rewrite nexec_addMemAccess in Hk. by simplify_eq/=.
    - rewrite (V _ _ blind_NumExecuting) in Hk by done. by eapply Hq. }
  destruct Hcases
    as [(_ & (added & Ho & _) & _)
       |[(_ & _ & Ho & _)
        |(_ & _ & -> & _ & (G & HG & Heq) & _)]];
    [by eapply Hopen|by eapply Hopen|].
  destruct (extend_effect _ _ _ _ _ HG Heq) as (_ & _ & V).
  intros k n Hk.
  destruct (decide (k = CurrentLoadGroupID st)) as [->|Hne].
  - unfold view in Hk. rewrite Heq, lookup_insert_eq in Hk. simpl in Hk.
    rewrite nexec_addMemAccess in Hk. simpl in Hk.
    apply (Hq (CurrentLoadGroupID st)). unfold view. rewrite HG. done.
  - rewrite V in Hk by done. by eapply Hq.
Qed.

Lemma store_edges_from_pointers IR st st' :
  wf st → is_store st IR = true →
  dispatch IR st = Some (st', NextGroupID st) →
  (load_dominator st ≠ 0%N → edge st' (load_dominator st) (NextGroupID st)) ∧
  (CurrentStoreGroupID st ≠ 0%N →
   edge st' (CurrentStoreGroupID st) (NextGroupID st)).
Proof.
  intros Hwf Hst E.
  destruct (dispatch_store_exact IR st Hwf Hst (dispatch_Some_memop _ _ _ E))
    as (st2 & E2 & Ho).
  rewrite E in E2. simplify_eq.
  pose proof (opens_group_preds _ _ _ _ _ Hwf Ho) as Hpreds.
  pose proof Hwf as (_ & _ & (_ & HS & _) & _).
  split.
  - intros Hne.
    destruct (noAlias_total st (load_dominator st) (getMemoryAccessMD st IR))
      as [na Hna]; [by apply wf_dom_live|].
    exists (negb na). apply Hpreds. left.
    by rewrite negb_involutive.
  - intros Hne.
    destruct (decide (CurrentStoreGroupID st = CurrentStoreBarrierGroupID st))
      as [Heq|Hneq].
    + exists true. apply Hpreds. right. left. by rewrite <- Heq.
    + destruct (noAlias_total st (CurrentStoreGroupID st)
                  (getMemoryAccessMD st IR)) as [na Hna].
      { by apply wf_ptr_lt. }
      exists (negb na). apply Hpreds. right. right.
      by rewrite negb_involutive.
Qed.

Lemma wf_pointers_lt st :
  wf st →
  (CurrentLoadGroupID st < NextGroupID st)%N ∧
  (CurrentStoreGroupID st < NextGroupID st)%N ∧
  (CurrentLoadBarrierGroupID st < NextGroupID st)%N ∧
  (CurrentStoreBarrierGroupID st < NextGroupID st)%N.
Proof.
  intros Hwf. pose proof Hwf as (_ & _ & (HL & HS & HB & HSB) & _).
  repeat split; by apply wf_pointer_bound.
Qed.

(** One dispatch in a dispatch-only history. *)
Lemma calm_step IR st st' g :
  calm st → dispatch IR st = Some (st', g) →
  calm st' ∧ older_covered st' g ∧
  (∀ gX, older_covered st gX →
         older_covered st' gX ∧
         (is_store st IR = true → reachable st' gX g)).
Proof.
  intros (Hwf & Hq & HK) E.
  destruct (dispatch_grows _ _ _ _ Hwf E) as (Hwf' & Hl' & _ & _ & _ & Hm & _).
  pose proof (rtc_edge_mono _ _ Hm) as Hrm.
  pose proof (quiescent_dispatch _ _ _ _ Hwf Hq E) as Hq'.
  destruct (wf_pointers_lt st Hwf) as (BL & BS & BB & BSB).
  assert (Hg0 : g ≠ 0%N).
  { destruct Hwf' as (_ & Hk & _). apply Hk in Hl'. lia. }
  destruct (dispatch_outcome IR st Hwf (dispatch_Some_memop _ _ _ E))
    as (st2 & g2 & E2 & _ & Hcases).
  rewrite E in E2. simplify_eq.
  unfold calm, older_covered, store_after_dom, load_dominator in *.
  destruct Hcases
    as [(Hst & (added & (-> & _) & _) & PCS & PCSB & PCL & PCLB)
       |[(Hp & Hc & Ho & PCS & PCSB & PCL & PCLB)
        |(Hp & Hc & -> & _ & _ & PCS & PCSB & PCL & PCLB)]].
  - destruct (store_edges_from_pointers IR st st2 Hwf Hst E) as [Ed Ec].
    unfold load_dominator in Ed.
    rewrite PCS, PCL, PCLB.
    assert (Hdom' :
      N.max (if MayLoad (getDesc IR) then NextGroupID st
             else CurrentLoadGroupID st)
            (if MayLoad (getDesc IR) && isALoadBarrier IR
             then NextGroupID st else CurrentLoadBarrierGroupID st) =
      if MayLoad (getDesc IR) then NextGroupID st
      else N.max (CurrentLoadGroupID st) (CurrentLoadBarrierGroupID st)).
    { destruct (MayLoad (getDesc IR)), (isALoadBarrier IR); simpl; lia. }
    rewrite Hdom'.
    split; [|split].
    + split; [done|]. split; [done|]. intros _ Hd _.
      destruct (MayLoad (getDesc IR)); [done|]. by apply rtc_once, Ed.
    + left. done.
    + intros gX HJ.
      assert (Hr : reachable st2 gX (NextGroupID st)).
      { destruct HJ as [[Hc Hrt]|[Hd Hrt]].
        - eapply tc_rtc_l; [apply Hrm, Hrt|]. by apply tc_once, Ec.
        - eapply tc_rtc_l; [apply Hrm, Hrt|]. by apply tc_once, Ed. }
      split; [|done]. left. split; [done|]. by apply tc_rtc.
  - pose proof (opens_group_preds _ _ _ _ _ Hwf Ho) as Hpreds.
    destruct Ho as (-> & _).
    rewrite PCS, PCL, PCLB.
    assert (Hdom' :
      N.max (NextGroupID st)
            (if isALoadBarrier IR then NextGroupID st
             else CurrentLoadBarrierGroupID st) = NextGroupID st).
    { destruct (isALoadBarrier IR); lia. }
    rewrite Hdom'.
    split; [|split].
    + split; [done|]. split; [done|]. intros _ _ Hle. lia.
    + right. done.
    + intros gX HJ. split; [|intros Hst; by destruct (pure_load_not_store _ _ Hp Hst)].
      destruct HJ as [[Hcs Hrt]|[Hd Hrt]]; [left; split; [done|by apply Hrm]|].
      assert (Hstruct : (if isALoadBarrier IR
                         then N.max (CurrentLoadGroupID st)
                                    (CurrentLoadBarrierGroupID st)
                         else CurrentLoadBarrierGroupID st) =
                        N.max (CurrentLoadGroupID st)
                              (CurrentLoadBarrierGroupID st) →
                        rtc (edge st2) gX (NextGroupID st)).
      { intros Heq. eapply rtc_r; [apply Hrm, Hrt|].
        exists true. apply Hpreds. split; [done|]. right.
        rewrite Heq. done. }
      destruct (isALoadBarrier IR) eqn:HLB; [right; split; [done|by auto]|].
      destruct (decide (CurrentLoadBarrierGroupID st =
                        N.max (CurrentLoadGroupID st)
                              (CurrentLoadBarrierGroupID st))) as [Heq|Hneq];
        [right; split; [done|by auto]|].
      unfold new_group_condition in Hc.
      destruct Hc as [?|[?|[?|[Hle|(G & HG & Hex)]]]]; try congruence.
      * left.
        assert (Hcs : CurrentStoreGroupID st ≠ 0%N) by lia.
        split; [done|]. apply Hrm. etrans; [exact Hrt|]. by apply HK.
      * rewrite (quiescent_not_executing _ _ _ Hq HG) in Hex. done.
  - rewrite PCS, PCL, PCLB.
    assert (Hj : N.max (CurrentLoadGroupID st) (CurrentLoadBarrierGroupID st) =
                 CurrentLoadGroupID st).
    { apply join_pointer. intros Heq. apply Hc. do 2 right. by left. }
    assert (Hd0 : N.max (CurrentLoadGroupID st)
                    (CurrentLoadBarrierGroupID st) ≠ 0%N).
    { intros Heq. apply Hc. right. by left. }
    split; [|split].
    + split; [done|]. split; [done|]. intros H1 H2 H3. apply Hrm. by apply HK.
    + right. split; [done|]. by rewrite Hj.
    + intros gX HJ.
      split; [|intros Hst; by destruct (pure_load_not_store _ _ Hp Hst)].
      destruct HJ as [[? ?]|[? ?]]; [left|right]; (split; [done|by apply Hrm]).
Qed.

Lemma calm_dispatch_all IRs : ∀ st st' gs,
  calm st → dispatch_all IRs st = Some (st', gs) →
  calm st' ∧ MDRegistry st' = MDRegistry st ∧
  (∀ gX, older_covered st gX → older_covered st' gX).
Proof.
  induction IRs as [|IR IRs IH]; intros st st' gs Hc H; simpl in H.
  - by simplify_eq.
  - destruct (dispatch IR st) as [[st1 g1]|] eqn:E; [|done]. simpl in H.
    destruct (dispatch_all IRs st1) as [[st2 gs']|] eqn:E'; [|done].
    simpl in H. simplify_eq.
    destruct (calm_step _ _ _ _ Hc E) as (Hc1 & _ & Hcov).
    destruct Hc as (Hwf & _).
    destruct (dispatch_grows _ _ _ _ Hwf E)
      as (_ & _ & _ & _ & _ & _ & (_ & _ & _ & HR & _)).
    destruct (IH _ _ _ Hc1 E') as (Hc2 & HR2 & Hcov2).
    split; [done|]. split; [congruence|].
    intros gX HJ. apply Hcov2. by apply Hcov.
Qed.

Lemma calm_new SM LQ SQ na MDR : calm (LSUnit_new SM LQ SQ na MDR).
Proof.
  split; [apply wf_new|]. split.
  - intros k n Hk. unfold view in Hk. simpl in Hk.
    by rewrite lookup_empty in Hk.
  - intros H. by destruct H.
Qed.

(** X17: in a history of dispatches from construction, the group of every
    store is transitively reachable from the group of every instruction
    dispatched before it, load or store: a store passes nothing older. *)
Theorem stores_ordered_after_older (SM : MCSchedModel) (LQ SQ : N)
    (na : bool) (MDR : option (gmap N MD.MDMemoryAccess))
    (pre mid : list Instruction) (X SI : Instruction)
    (st0 st1 st2 st3 : LSUnit) (gs0 gs : list N) (gX gS : N) :
  dispatch_all pre (LSUnit_new SM LQ SQ na MDR) = Some (st0, gs0) →
  dispatch X st0 = Some (st1, gX) →
  dispatch_all mid st1 = Some (st2, gs) →
  dispatch SI st2 = Some (st3, gS) →
  is_store st2 SI = true →
  reachable st3 gX gS.
Proof.
  intros Epre EX Emid ES Hst.
  destruct (calm_dispatch_all _ _ _ _ (calm_new SM LQ SQ na MDR) Epre)
    as (Hc0 & _ & _).
  destruct (calm_step _ _ _ _ Hc0 EX) as (Hc1 & HJ1 & _).
  destruct (calm_dispatch_all _ _ _ _ Hc1 Emid) as (Hc2 & _ & Hcov).
  destruct (calm_step _ _ _ _ Hc2 ES) as (_ & _ & Hfin).
  by apply (Hfin gX (Hcov gX HJ1)).
Qed.

End StoreOrder.

(** ** What one operation touches *)

Section Footprint.

Implicit Types (st : LSUnit) (IR : Instruction) (g k : N).

Lemma base_executed_total IR st :
  live st (getLSUTokenID IR) →
  is_Some (LSUnitBase_onInstructionExecuted IR st).
Proof.
  intros [G HG]. unfold LSUnitBase_onInstructionExecuted. rewrite HG. simpl.
  assert (Hl : is_Some (MG.onInstructionExecuted (getLSUTokenID IR)
                          (Groups st) !! getLSUTokenID IR)).
  { eapply lookup_is_Some_fmap;
      [apply (MG_onInstructionExecuted_lookup MG.Succ), blind_Succ_exec|].
    by eexists. }
  destruct Hl as [G1 ->]. simpl. by eexists.
Qed.

(** X18: the policy-level [onInstructionExecuted] succeeds exactly when the
    instruction is not a memory operation or the group ID stamped on it is
    live; with a stale or unknown token the assertion of the base class
    fails. *)
Theorem executed_succeeds_iff (IR : Instruction) (st : LSUnit) :
  is_Some (onInstructionExecuted IR st) ↔
  isMemOp IR = false ∨ live st (getLSUTokenID IR).
Proof.
  unfold onInstructionExecuted. destruct (isMemOp IR); simpl.
  - split.
    + intros [st' H]. right.
      destruct (LSUnitBase_onInstructionExecuted IR st) as [st1|] eqn:Hb;
        [|done].
      by destruct (base_executed_effect IR st st1 Hb) as (_ & ? & _).
    + intros [?|Hl]; [done|].
      destruct (base_executed_total IR st Hl) as [st1 ->]. simpl.
      destruct (isValidGroupID st1 (getLSUTokenID IR)); by eexists.
  - split; [by left|by eexists].
Qed.

(** X19: [dispatch] of a pure load leaves the two store-side pointers as
    they are, and [dispatch] of a store that does not load leaves the two
    load-side pointers as they are; a store always becomes the current
    store group. *)
Theorem dispatch_pointer_sides (IR : Instruction) (st st' : LSUnit) (g : N) :
  wf st → dispatch IR st = Some (st', g) →
  (pure_load st IR →
   CurrentStoreGroupID st' = CurrentStoreGroupID st ∧
   CurrentStoreBarrierGroupID st' = CurrentStoreBarrierGroupID st) ∧
  (is_store st IR = true →
   CurrentStoreGroupID st' = g ∧
   (MayLoad (getDesc IR) = false →
    CurrentLoadGroupID st' = CurrentLoadGroupID st ∧
    CurrentLoadBarrierGroupID st' = CurrentLoadBarrierGroupID st)).
Proof.
  intros Hwf E.
  destruct (dispatch_outcome IR st Hwf (dispatch_Some_memop _ _ _ E))
    as (st2 & g2 & E2 & _ & Hcases).
  rewrite E in E2. simplify_eq.
  destruct Hcases
    as [(Hst & _ & PCS & PCSB & PCL & PCLB)
       |[(Hp & _ & _ & PCS & PCSB & _)
        |(Hp & _ & _ & _ & _ & PCS & PCSB & _)]].
  - split; [intros Hp; by destruct (pure_load_not_store _ _ Hp Hst)|].
    intros _. split; [done|]. intros HML. by rewrite PCL, PCLB, HML.
  - split; [done|]. intros Hst. by destruct (pure_load_not_store _ _ Hp Hst).
  - split; [done|]. intros Hst. by destruct (pure_load_not_store _ _ Hp Hst).
Qed.

(** X20: [dispatch] adds exactly one instruction, with its memory access
    when it has one, to the group whose ID it returns, and leaves the
    instruction count and the recorded accesses of every other group as
    they are. *)
Theorem dispatch_adds_one_instruction (IR : Instruction) (st st' : LSUnit)
    (g : N) :
  wf st → dispatch IR st = Some (st', g) →
  view MG.NumInstructions st' g =
    Some (default 0%N (view MG.NumInstructions st g) + 1)%N ∧
  mem_of st' g =
    Some (default [] (mem_of st g) ++ accesses_of (getMemoryAccessMD st IR)) ∧
  (∀ k, k ≠ g →
        view MG.NumInstructions st' k = view MG.NumInstructions st k ∧
        mem_of st' k = mem_of st k).
Proof.
  intros Hwf E.
  destruct (dispatch_outcome IR st Hwf (dispatch_Some_memop _ _ _ E))
    as (st2 & g2 & E2 & _ & Hcases).
  rewrite E in E2. simplify_eq.
  assert (Hopen : ∀ added,
    opens_group st st2 g2 (getMemoryAccessMD st IR) added →
    view MG.NumInstructions st2 g2 =
      Some (default 0%N (view MG.NumInstructions st g2) + 1)%N ∧
    mem_of st2 g2 =
      Some (default [] (mem_of st g2) ++
            accesses_of (getMemoryAccessMD st IR)) ∧
    (∀ k, k ≠ g2 →
          view MG.NumInstructions st2 k = view MG.NumInstructions st k ∧
          mem_of st2 k = mem_of st k)).
  { intros added Ho.
    destruct (opened_group_content _ _ _ _ _ Ho) as [Hn Hm].
    destruct (opens_group_fresh _ _ _ _ _ Hwf Ho) as (Hfresh & _).
    assert (Hnone : Groups st !! g2 = None).
    { destruct (Groups st !! g2) eqn:HG; [|done].
      exfalso. apply Hfresh. by eexists. }
    destruct Ho as (_ & _ & _ & _ & V & _).
    unfold mem_of, view in *. rewrite Hnone. simpl.
    split; [done|]. split; [done|]. intros k Hne. split.
    - by apply (V _ _ blind_NumInstructions).
    - by apply (V _ _ blind_MemAccesses). }
  destruct Hcases
    as [(_ & (added & Ho & _) & _)
       |[(_ & _ & Ho & _)
        |(_ & _ & -> & _ & (G & HG & Heq) & _)]];
    [by eapply Hopen|by eapply Hopen|].
  destruct (extend_effect _ _ _ _ _ HG Heq) as (_ & _ & V).
  unfold mem_of, view in *. rewrite Heq, lookup_insert_eq, HG. simpl.
  rewrite ninstr_addMemAccess, mem_addMemAccess. simpl.
  split; [done|]. split; [done|]. intros k Hne.
  rewrite lookup_insert_ne by done. done.
Qed.

End Footprint.

(** ** The further properties at concrete inputs *)

Section FurtherInstances.

Import Scenario Cases.

(** Appending [120, 130) to [100, 110): start 100, size 30. *)
Lemma append_extended_exact_witness :
  MD.getExtendedStartAddr (MD.append false 120 10 base_access) = 100%Z ∧
  MD.ExtendedSize (bundle_of (MD.append false 120 10 base_access)) = 30%Z.
Proof.
  destruct (append_extended_exact false 120 10 base_access)
    as (H1 & H2 & _); [by vm_compute|by vm_compute|].
  split; [rewrite H1|rewrite H2]; by vm_compute.
Defined.

(** Appending [50, 55) to [100, 110): the new access is covered. *)
Lemma append_covers_new_access_witness :
  covers (MD.append false 50 5 base_access) (MD.mkSub false 50 5).
Proof.
  apply append_covers_new_access; by vm_compute.
Defined.

(** Appending [120, 130) and [105, 108) to [100, 110): all three accesses
    are covered. *)
Lemma append_all_rightward_covers_witness :
  covers (MD.append_all [MD.mkSub false 120 10; MD.mkSub true 105 3]
            base_access) (MD.mkSub false 100 10).
Proof.
  refine (proj2 (append_all_rightward_covers
                   [MD.mkSub false 120 10; MD.mkSub true 105 3]
                   base_access _ _ _) _ _).
  - reflexivity.
  - by vm_compute.
  - repeat constructor; by vm_compute.
  - vm_compute. apply list_elem_of_here.
Defined.

(** An access of 8 bytes at 2^64 - 4 ends at 4, below its start. *)
Lemma extended_end_wraps_witness :
  (MD.getExtendedEndAddr wrapping < MD.getExtendedStartAddr wrapping)%Z.
Proof.
  apply (proj2 (extended_end_wraps wrapping eq_refl
                  ltac:(by vm_compute) ltac:(by vm_compute))).
  by vm_compute.
Defined.

(** With a load queue of one entry: a load, its retirement and a second
    load, each dispatch made on the verdict available. *)
Lemma queues_never_overflow_witness :
  queue_bounded
    (default small
       (run_checked [EvDispatch (Load 0 1); EvRetired (Load 0 1);
                     EvDispatch (Load 1 2)] small)).
Proof.
  apply (queues_never_overflow SM 1 4 false (Some registry)
           [EvDispatch (Load 0 1); EvRetired (Load 0 1);
            EvDispatch (Load 1 2)]).
  by vm_compute.
Defined.

(** With a load queue of one entry taken by a first load, a second load is
    stalled; after the first retires it is not. *)
Lemma retire_unblocks_load_witness :
  isAvailable (Load 1 1)
    (after_run small [EvDispatch (Load 0 1); EvRetired (Load 0 1)]) ≠
  LSU_LQUEUE_FULL.
Proof.
  apply (retire_unblocks_load (Load 1 1) (Load 0 1)
           (after small [Load 0 1])); by vm_compute.
Defined.

(** The ALU instruction cannot be dispatched; a load can. *)
Lemma dispatch_succeeds_iff_memop_witness :
  ¬ is_Some (dispatch Alu unit0) ∧ is_Some (dispatch (Load 0 1) unit0).
Proof.
  pose proof (dispatch_succeeds_iff_memop Alu unit0 wf_unit0) as H1.
  pose proof (dispatch_succeeds_iff_memop (Load 0 1) unit0 wf_unit0) as H2.
  split.
  - intros [H|H]%H1; by vm_compute in H.
  - apply H2. by left.
Defined.

(** Group 1 leaves the table when its only load is executed. *)
Lemma group_leaves_only_when_executed_witness :
  ∃ IR, EvExecuted (Load 0 1) = EvExecuted IR ∧ getLSUTokenID IR = 1%N ∧
        isMemOp IR = true.
Proof.
  apply (group_leaves_only_when_executed (EvExecuted (Load 0 1))
           (after_run unit0 [EvDispatch (Load 0 1); EvIssued (Load 0 1)])
           (after_run unit0 one_load_done) 1%N).
  - apply (run_wf [EvDispatch (Load 0 1); EvIssued (Load 0 1)] unit0 _
             wf_unit0). by vm_compute.
  - by vm_compute.
  - vm_compute. by eexists.
  - intros [G HG]. vm_compute in HG. discriminate.
Defined.

(** Executing the only load of group 1 clears the current load pointer and
    keeps the load-queue entry until retirement. *)
Lemma executed_touches_table_and_pointers_witness :
  UsedLQEntries (after_run unit0 one_load_done) = 1%N ∧
  kept_or_cleared 1
    (CurrentLoadGroupID
       (after_run unit0 [EvDispatch (Load 0 1); EvIssued (Load 0 1)]))
    (CurrentLoadGroupID (after_run unit0 one_load_done)).
Proof.
  destruct (executed_touches_table_and_pointers (Load 0 1)
              (after_run unit0 [EvDispatch (Load 0 1); EvIssued (Load 0 1)])
              (after_run unit0 one_load_done))
    as ((_ & _ & HU & _) & HCL & _); [by vm_compute|].
  split; [rewrite HU; by vm_compute|exact HCL].
Defined.

(** Scenario 5: group 2 is not reachable from itself, and group 1 reaches
    only younger groups. *)
Lemma dependency_graph_acyclic_witness :
  ¬ reachable (after unit0 scenario5) 2 2.
Proof.
  apply (dependency_graph_acyclic SM 4 4 false (Some registry)
           (EvDispatch <$> scenario5) (after unit0 scenario5)).
  by vm_compute.
Defined.

(** The store of scenario 5 gets the valid ID 2. *)
Lemma dispatch_returns_valid_id_witness :
  isValidGroupID (after unit0 [Load 0 1; Load 1 1; Store 2 2]) 2 = true.
Proof.
  refine (proj1 (proj2
    (dispatch_returns_valid_id SM 4 4 false (Some registry)
       [EvDispatch (Load 0 1); EvDispatch (Load 1 1)] (Store 2 2)
       (after unit0 [Load 0 1; Load 1 1])
       (after unit0 [Load 0 1; Load 1 1; Store 2 2]) 2%N _ _)));
    by vm_compute.
Defined.

(** Scenario 5 returns 1, 1, 2, 3: the second and third IDs are in order. *)
Lemma dispatch_ids_monotone_witness :
  snd <$> dispatch_all scenario5 unit0 = Some [1; 1; 2; 3]%N ∧ (1 <= 2)%N.
Proof.
  split; [by vm_compute|].
  apply (dispatch_ids_monotone scenario5 unit0 (after unit0 scenario5)
           [1; 1; 2; 3]%N wf_unit0 ltac:(by vm_compute) 1%nat 1%N 2%N);
    reflexivity.
Defined.

(** Scenario 2: the store's group 2 has the loads' group 1 as its only
    predecessor, by an ordering-only edge. *)
Lemma store_group_predecessors_witness :
  ∃ st' g, dispatch (Store 2 2) (after unit0 [Load 0 1]) = Some (st', g) ∧
           has_succ st' 1 g false.
Proof.
  destruct (store_group_predecessors (Store 2 2) (after unit0 [Load 0 1]))
    as (st' & g & E & Hpreds).
  - apply (proj1 (dispatch_all_grows [Load 0 1] unit0 _ [1%N] wf_unit0
                    ltac:(by vm_compute))).
  - by vm_compute.
  - by vm_compute.
  - exists st', g. split; [done|]. apply Hpreds. left. by vm_compute.
Defined.

(** Scenario 3: the load's group has the store's group 1 as predecessor,
    by a data-dependency edge. *)
Lemma load_group_predecessors_witness :
  ∃ st' g, dispatch (Load 5 2) (after unit0 [Store 4 1]) = Some (st', g) ∧
           has_succ st' 1 g true.
Proof.
  destruct (load_group_predecessors (Load 5 2) (after unit0 [Store 4 1]))
    as (st' & g & E & Hpreds).
  - apply (proj1 (dispatch_all_grows [Store 4 1] unit0 _ [1%N] wf_unit0
                    ltac:(by vm_compute))).
  - by vm_compute.
  - do 3 right. left. by vm_compute.
  - exists st', g. split; [done|]. apply Hpreds. split; [done|]. left.
    by vm_compute.
Defined.

(** Without a registry and with [AssumeNoAlias = false], a load after a
    store is wired after the store's group. *)
Lemma load_after_store_without_metadata_witness :
  ∃ st' g, dispatch (Load 3 2) (after plain [Store 2 1]) = Some (st', g) ∧
           has_succ st' 1 g true.
Proof.
  destruct (load_after_store_without_metadata (Load 3 2)
              (after plain [Store 2 1]))
    as (st' & g & E & Hedge & _).
  - apply (proj1 (dispatch_all_grows [Store 2 1] plain _ [1%N]
                    (wf_new SM 4 4 false None) ltac:(by vm_compute))).
  - by vm_compute.
  - do 3 right. left. by vm_compute.
  - by vm_compute.
  - by vm_compute.
  - exists st', g. split; [done|]. apply Hedge. by vm_compute.
Defined.

(** L@0/8, L@8/8, S@32/4, L@64/8, S@0/8: the last store's group 4 descends
    from the first load's group 1. *)
Lemma stores_ordered_after_older_witness :
  reachable (after unit0 (scenario5 ++ [Store 4 4])) 1 4.
Proof.
  apply (stores_ordered_after_older SM 4 4 false (Some registry)
           [] [Load 1 1; Store 2 2; Load 3 3] (Load 0 1) (Store 4 4)
           unit0 (after unit0 [Load 0 1]) (after unit0 scenario5)
           (after unit0 (scenario5 ++ [Store 4 4])) [] [1; 2; 3]%N 1 4);
    by vm_compute.
Defined.

(** Executing a load whose token is live succeeds; with the unknown token 9
    it does not. *)
Lemma executed_succeeds_iff_witness :
  is_Some (onInstructionExecuted (Load 0 1) (after unit0 [Load 0 1])) ∧
  ¬ is_Some (onInstructionExecuted (Load 0 9) (after unit0 [Load 0 1])).
Proof.
  split.
  - apply (proj2 (executed_succeeds_iff _ _)). right. vm_compute.
    by eexists.
  - intros [H|[G HG]]%executed_succeeds_iff; [by vm_compute in H|].
    vm_compute in HG. discriminate.
Defined.

(** The final load of scenario 5 leaves the current store group at 2. *)
Lemma dispatch_pointer_sides_witness :
  CurrentStoreGroupID (after unit0 scenario5) = 2%N.
Proof.
  destruct (dispatch_pointer_sides (Load 3 3)
              (after unit0 [Load 0 1; Load 1 1; Store 2 2])
              (after unit0 scenario5) 3%N) as [H _].
  - apply (proj1 (dispatch_all_grows [Load 0 1; Load 1 1; Store 2 2] unit0 _
                    [1; 1; 2]%N wf_unit0 ltac:(by vm_compute))).
  - by vm_compute.
  - destruct H as [-> _]; by vm_compute.
Defined.

(** The second load of scenario 5 brings group 1 to two instructions. *)
Lemma dispatch_adds_one_instruction_witness :
  view MG.NumInstructions (after unit0 [Load 0 1; Load 1 1]) 1 = Some 2%N.
Proof.
  destruct (dispatch_adds_one_instruction (Load 1 1)
              (after unit0 [Load 0 1]) (after unit0 [Load 0 1; Load 1 1]) 1%N)
    as (H & _).
  - apply (proj1 (dispatch_all_grows [Load 0 1] unit0 _ [1%N] wf_unit0
                    ltac:(by vm_compute))).
  - by vm_compute.
  - rewrite H. by vm_compute.
Defined.

End FurtherInstances.
